(** * LASD library: the vector-based binary max-heap and the priority queue

    A shallow embedding of [src/vector/vector.cpp], [src/heap/vec/heapvec.cpp]
    and [src/pq/heap/pqheap.cpp], and of the member functions a vector
    inherits from [src/container/container.hpp], [src/container/linear.cpp]
    and [src/container/traversable.cpp], instantiated at [Data = int],
    together with the properties of the vector, of the heap engine and of
    the priority queue.

    Conventions of the embedding:
    - [ulong] values are numbers in [N]; every arithmetic operation of the
      source is followed by its reduction modulo [2^64];
    - [Data] values are integers in [Z]; the source only copies and compares
      them, and [Data{}] is [0];
    - the array behind [Elements] is a [list Z] whose length is the number of
      allocated slots ([nullptr] is the empty list); an access outside of it
      is undefined behaviour and is reported as [Fault];
    - [new Data[n]{}] gives [n] zeros, and throws [std::bad_alloc] when [n]
      elements cannot be addressed; memory is otherwise unbounded;
    - member functions are computations in a state-and-error monad over the
      object they are called on: they return, throw (the outcome keeps the
      object as it is at the throw), or have no defined outcome;
    - a C++ [while] or [for] loop is the iteration of its body, a step
      function on the loop variables, under an iteration bound; the bounds
      are proved sufficient on the states the properties are about. *)

From Stdlib Require Import ZArith NArith Lia ZifyNat ZifyN List String.
From Stdlib Require Import DecimalString.
From Stdlib Require Import Sorting.Sorted Sorting.Permutation.
From stdpp Require Import base decidable option numbers list sorting.

Set Default Proof Using "Type".

(* ===================================================================== *)
(** * Unsigned 64-bit arithmetic *)

Module ULong.
Local Open Scope N_scope.

Definition modulus : N := 2 ^ 64.

Definition wrap (x : N) : N := x mod modulus.

Definition add (a b : N) : N := wrap (a + b).
Definition sub (a b : N) : N := wrap (a + modulus - wrap b).
Definition mul (a b : N) : N := wrap (a * b).

(** Conversion [ulong -> long] (two's complement). *)
Definition to_long (x : N) : Z :=
  let z := Z.of_N (wrap x) in
  if (z <? 2 ^ 63)%Z then z else (z - 2 ^ 64)%Z.
End ULong.

(* ===================================================================== *)
(** * Outcomes and the monad of member functions *)

(** The exceptions thrown by the sources, with their messages. *)
Inductive exn : Type :=
| length_error (what : string)
| out_of_range (what : string)
| bad_alloc.

(** The names the specification gives to the three error conditions of the
    priority queue. *)
Definition EmptyCollection : exn := length_error "Priority queue is empty".
Definition NotFound : exn := length_error "Value not found".
Definition IndexOutOfRange : exn := out_of_range "Index out of range".

Inductive result (St A : Type) : Type :=
| Ok (a : A) (s : St)      (* normal return, with the object afterwards *)
| Throw (e : exn) (s : St) (* exception, with the object at the throw *)
| Fault                    (* access outside the allocated array *)
| Diverge.                 (* the iteration bound of a loop was exhausted *)

Arguments Ok {St A} a s.
Arguments Throw {St A} e s.
Arguments Fault {St A}.
Arguments Diverge {St A}.

Definition M (St A : Type) : Type := St -> result St A.

Definition ret {St A} (a : A) : M St A := fun s => Ok a s.

Definition bind {St A B} (m : M St A) (k : A -> M St B) : M St B :=
  fun s =>
    match m s with
    | Ok a s' => k a s'
    | Throw e s' => Throw e s'
    | Fault => Fault
    | Diverge => Diverge
    end.

Definition throw {St A} (e : exn) : M St A := fun s => Throw e s.
Definition fault {St A} : M St A := fun _ => Fault.
Definition gets {St A} (f : St -> A) : M St A := fun s => Ok (f s) s.
Definition modify {St} (f : St -> St) : M St unit := fun s => Ok tt (f s).

Definition of_option {St A} (o : option A) : M St A :=
  match o with Some a => ret a | None => fault end.

Declare Scope monad_scope.
Delimit Scope monad_scope with monad.
Notation "x <- m ;; k" := (bind m (fun x => k))
  (at level 100, m at next level, right associativity) : monad_scope.
Notation "m ;; k" := (bind m (fun _ => k))
  (at level 100, right associativity) : monad_scope.
Local Open Scope monad_scope.

(** [loop fuel step v] iterates [step] from the loop variables [v]: [inl v']
    goes round again with [v'], [inr a] leaves the loop with [a]. *)
Fixpoint loop {St V A} (fuel : nat) (step : V -> M St (V + A)) (v : V)
  : M St A :=
  match fuel with
  | O => fun _ => Diverge
  | S fuel' =>
      r <- step v ;;
      match r with
      | inl v' => loop fuel' step v'
      | inr a => ret a
      end
  end.

(* ===================================================================== *)
(** * Vector: the storage ([src/vector/vector.cpp]) *)

Record Vector : Type := mkVector {
  Elements : list Z;  (* the allocated array; [nullptr] is [[]] *)
  size : N
}.

(** Largest [n] for which [new int[n]] does not overflow [size_t]; beyond it
    the allocation throws. *)
Definition max_array_length : N := (2 ^ 62 - 1)%N.

(** [new Data[n]{}]: [n] value-initialised elements. *)
Definition alloc {St} (n : N) : M St (list Z) :=
  if (n <=? max_array_length)%N
  then ret (replicate (N.to_nat n) 0%Z)
  else throw bad_alloc.

(** Raw array accesses [a[i]]. *)
Definition rd (a : list Z) (i : N) : option Z := a !! N.to_nat i.

Definition wr (a : list Z) (i : N) (x : Z) : option (list Z) :=
  if decide (N.to_nat i < length a)%nat
  then Some (<[N.to_nat i := x]> a)
  else None.

(** [Elements[i]] read and written on the object. *)
Definition load (i : N) : M Vector Z :=
  fun v => of_option (rd (Elements v) i) v.

Definition store (i : N) (x : Z) : M Vector unit :=
  fun v =>
    match wr (Elements v) i x with
    | Some a => Ok tt (mkVector a (size v))
    | None => Fault
    end.

(** [std::swap(Elements[i], Elements[j])]. *)
Definition swap (i j : N) : M Vector unit :=
  x <- load i ;;
  y <- load j ;;
  store i y ;;
  store j x.

Module VectorImpl.
Local Open Scope N_scope.

(** The object before a constructor body runs: the default member
    initialisers [Elements = nullptr] and [size = 0]. *)
Definition fresh : Vector := mkVector [] 0.

(** [Vector(const ulong newSize)] *)
Definition Vector_size (newSize : N) : M Vector unit :=
  a <- alloc newSize ;;
  modify (fun _ => mkVector a newSize).

(** Body of the traversal lambda [Elements[i++] = data]. *)
Definition fill_step (st : N * list Z) : M Vector (N * list Z + unit) :=
  let '(i, rest) := st in
  match rest with
  | [] => ret (inr tt)
  | data :: rest' => store i data ;; ret (inl (ULong.add i 1, rest'))
  end.

(** [Vector(const TraversableContainer<Data>&)]; the container is given by
    the sequence its [Traverse] produces, and [Size()] is its length. *)
Definition Vector_container (container : list Z) : M Vector unit :=
  let sz := N.of_nat (length container) in
  a <- alloc sz ;;
  modify (fun _ => mkVector a sz) ;;
  loop (S (length container)) fill_step (0, container).

(** Body of the mapping lambda [std::swap(Elements[i++], data)]; [moved] are
    the values the visited elements of the container were left with. *)
Definition take_step (st : N * list Z * list Z)
  : M Vector (N * list Z * list Z + list Z) :=
  let '(i, rest, moved) := st in
  match rest with
  | [] => ret (inr moved)
  | data :: rest' =>
      old <- load i ;;
      store i data ;;
      ret (inl (ULong.add i 1, rest', moved ++ [old]))
  end.

(** [Vector(MappableContainer<Data>&&)]; returns the container's sequence
    after the call. *)
Definition Vector_container_move (container : list Z) : M Vector (list Z) :=
  let sz := N.of_nat (length container) in
  a <- alloc sz ;;
  modify (fun _ => mkVector a sz) ;;
  loop (S (length container)) take_step (0, container, []).

(** Loop of the copy constructor: [Elements[i] = vector.Elements[i]]. *)
Definition copy_step (vector : Vector) (i : N) : M Vector (N + unit) :=
  sz <- gets size ;;
  if i <? sz then
    x <- of_option (rd (Elements vector) i) ;;
    store i x ;;
    ret (inl (ULong.add i 1))
  else ret (inr tt).

(** [Vector(const Vector&)] *)
Definition Vector_copy (vector : Vector) : M Vector unit :=
  modify (fun v => mkVector (Elements v) (size vector)) ;;
  sz <- gets size ;;
  a <- alloc sz ;;
  modify (fun v => mkVector a (size v)) ;;
  loop (S (N.to_nat sz)) (copy_step vector) 0.

(** [Vector(Vector&&)]: both fields are swapped with the argument's; the
    pair is (this, vector). *)
Definition Vector_move (this vector : Vector) : Vector * Vector :=
  (mkVector (Elements vector) (size vector),
   mkVector (Elements this) (size this)).

(** Loop of the copy assignment: [tempElements[i] = vector.Elements[i]]. *)
Definition assign_step (vector : Vector) (st : N * list Z)
  : M Vector (N * list Z + list Z) :=
  let '(i, tempElements) := st in
  if i <? size vector then
    x <- of_option (rd (Elements vector) i) ;;
    t <- of_option (wr tempElements i x) ;;
    ret (inl (ULong.add i 1, t))
  else ret (inr tempElements).

(** [operator=(const Vector&)] on two distinct objects. *)
Definition copy_assign (vector : Vector) : M Vector unit :=
  tempElements <- alloc (size vector) ;;
  tempElements <-
    loop (S (N.to_nat (size vector))) (assign_step vector) (0, tempElements) ;;
  modify (fun _ => mkVector tempElements (size vector)).

(** [operator=(Vector&&)] on two distinct objects: a swap of both fields. *)
Definition move_assign (this vector : Vector) : Vector * Vector :=
  (mkVector (Elements vector) (size vector),
   mkVector (Elements this) (size this)).

(** Loop of [operator==]. *)
Definition eq_step (vector : Vector) (i : N) : M Vector (N + bool) :=
  sz <- gets size ;;
  if i <? sz then
    x <- load i ;;
    y <- of_option (rd (Elements vector) i) ;;
    if negb (x =? y)%Z then ret (inr false) else ret (inl (ULong.add i 1))
  else ret (inr true).

(** [operator==(const Vector&)] *)
Definition operator_eq (vector : Vector) : M Vector bool :=
  sz <- gets size ;;
  if negb (sz =? size vector) then ret false
  else loop (S (N.to_nat sz)) (eq_step vector) 0.

(** [operator!=(const Vector&)] *)
Definition operator_ne (vector : Vector) : M Vector bool :=
  b <- operator_eq vector ;; ret (negb b).

(** [std::to_string] of a [ulong]. *)
Definition to_string (n : N) : string :=
  NilZero.string_of_uint (N.to_uint n).

(** [operator[](ulong index)], both overloads, the element referred to
    being read. *)
Definition operator_at (index : N) : M Vector Z :=
  sz <- gets size ;;
  if sz <=? index then
    throw (out_of_range ("Access at index " ++ to_string index
                         ++ " on vector of size " ++ to_string sz))
  else load index.

(** [operator[](ulong index)], the element referred to being assigned:
    [v[index] = x]. *)
Definition operator_at_put (index : N) (x : Z) : M Vector unit :=
  sz <- gets size ;;
  if sz <=? index then
    throw (out_of_range ("Access at index " ++ to_string index
                         ++ " on vector of size " ++ to_string sz))
  else store index x.

(** [Front()], both overloads, read. *)
Definition Front : M Vector Z :=
  sz <- gets size ;;
  if sz =? 0 then throw (length_error "Access to an empty vector")
  else load 0.

(** [Back()], both overloads, read. *)
Definition Back : M Vector Z :=
  sz <- gets size ;;
  if sz =? 0 then throw (length_error "Access to an empty vector")
  else load (ULong.sub sz 1).

(** One round of [for (i = 0; i < minSize; ++i) tempElements[i] =
    Elements[i]]. *)
Definition resize_step (minSize : N) (st : N * list Z)
  : M Vector (N * list Z + list Z) :=
  let '(i, tempElements) := st in
  if i <? minSize then
    x <- load i ;;
    t <- of_option (wr tempElements i x) ;;
    ret (inl (ULong.add i 1, t))
  else ret (inr tempElements).

(** [Resize(ulong newSize)] *)
Definition Resize (newSize : N) : M Vector unit :=
  sz <- gets size ;;
  if newSize =? sz then ret tt
  else if newSize =? 0 then modify (fun _ => mkVector [] 0)
  else
    tempElements <- alloc newSize ;;
    let minSize := if sz <? newSize then sz else newSize in
    tempElements <-
      loop (S (N.to_nat minSize)) (resize_step minSize) (0, tempElements) ;;
    modify (fun _ => mkVector tempElements newSize).

(** [ResizableContainer::Clear()] of [src/container/container.hpp]. *)
Definition Clear : M Vector unit := Resize 0.

(** [Container::Size()] and [Container::Empty()]. *)
Definition Size : M Vector N := gets size.
Definition Empty : M Vector bool := gets (fun v => size v =? 0).

(** [SortableVector::SwapAt(i, j, temp_i, temp_j)] *)
Definition SwapAt (i j : N) (temp_i temp_j : Z) : M Vector unit :=
  store i temp_j ;; store j temp_i.
End VectorImpl.

(* ===================================================================== *)
(** * A vector as a linear container ([src/container/linear.cpp],
      [src/container/traversable.cpp])

    The member functions a vector inherits.  A [TraverseFun] is a callable
    [void(const Data&)]: what it does is its effect on the variables it
    captured, so it is given as a function from the element visited and
    the captured state to the new captured state, and a traversal returns
    the captured state it ends with.  A [MapFun], [void(Data&)], also gives
    the element its new value.  The callables do not touch the container
    they are run on. *)

Module Linear.
Local Open Scope N_scope.

(** A [const] member function run on another object [con]: it returns or
    throws as it does there. *)
Definition on_other {A} (con : Vector) (m : M Vector A) : M Vector A :=
  fun s =>
    match m con with
    | Ok a _ => Ok a s
    | Throw e _ => Throw e s
    | Fault => Fault
    | Diverge => Diverge
    end.

(** One round of the loop of [LinearContainer::operator==]: both elements
    are read through the bounds-checked [operator[]]. *)
Definition eq_step (con : Vector) (index : N) : M Vector (N + bool) :=
  sz <- gets size ;;
  if index <? sz then
    x <- VectorImpl.operator_at index ;;
    y <- on_other con (VectorImpl.operator_at index) ;;
    if negb (x =? y)%Z then ret (inr false)
    else ret (inl (ULong.add index 1))
  else ret (inr true).

(** [LinearContainer::operator==(const LinearContainer&)], the other
    container being a vector too. *)
Definition operator_eq (con : Vector) : M Vector bool :=
  sz <- gets size ;;
  if sz =? size con then loop (S (N.to_nat sz)) (eq_step con) 0
  else ret false.

(** [LinearContainer::operator!=(const LinearContainer&)] *)
Definition operator_ne (con : Vector) : M Vector bool :=
  b <- operator_eq con ;; ret (negb b).

Section Visitors.
Context {C : Type}.

(** One round of [for (index = 0; index < size; ++index)
    fun(operator[](index))]. *)
Definition PreOrderTraverse_step (f : Z -> C -> C) (st : N * C)
  : M Vector (N * C + C) :=
  let '(index, c) := st in
  sz <- gets size ;;
  if index <? sz then
    dat <- VectorImpl.operator_at index ;;
    ret (inl (ULong.add index 1, f dat c))
  else ret (inr c).

Definition PreOrderTraverse (f : Z -> C -> C) (c : C) : M Vector C :=
  sz <- gets size ;;
  loop (S (N.to_nat sz)) (PreOrderTraverse_step f) (0, c).

(** One round of [while (index > 0) fun(operator[](--index))]. *)
Definition PostOrderTraverse_step (f : Z -> C -> C) (st : N * C)
  : M Vector (N * C + C) :=
  let '(index, c) := st in
  if 0 <? index then
    let index := ULong.sub index 1 in
    dat <- VectorImpl.operator_at index ;;
    ret (inl (index, f dat c))
  else ret (inr c).

Definition PostOrderTraverse (f : Z -> C -> C) (c : C) : M Vector C :=
  sz <- gets size ;;
  loop (S (N.to_nat sz)) (PostOrderTraverse_step f) (sz, c).

(** [LinearContainer::Traverse] *)
Definition Traverse (f : Z -> C -> C) (c : C) : M Vector C :=
  PreOrderTraverse f c.

(** [Fold], [PreOrderFold] and [PostOrderFold]: the traversal by the
    callable [acc = fun(dat, acc)], whose captured state is [acc]. *)
Definition Fold (f : Z -> C -> C) (acc : C) : M Vector C :=
  Traverse (fun dat acc => f dat acc) acc.

Definition PreOrderFold (f : Z -> C -> C) (acc : C) : M Vector C :=
  PreOrderTraverse (fun dat acc => f dat acc) acc.

Definition PostOrderFold (f : Z -> C -> C) (acc : C) : M Vector C :=
  PostOrderTraverse (fun dat acc => f dat acc) acc.

(** One round of [for (index = 0; index < size; ++index)
    fun(operator[](index))] where [fun] may assign the element. *)
Definition PreOrderMap_step (f : Z -> C -> Z * C) (st : N * C)
  : M Vector (N * C + C) :=
  let '(index, c) := st in
  sz <- gets size ;;
  if index <? sz then
    dat <- VectorImpl.operator_at index ;;
    let '(dat', c') := f dat c in
    store index dat' ;;
    ret (inl (ULong.add index 1, c'))
  else ret (inr c).

Definition PreOrderMap (f : Z -> C -> Z * C) (c : C) : M Vector C :=
  sz <- gets size ;;
  loop (S (N.to_nat sz)) (PreOrderMap_step f) (0, c).

Definition PostOrderMap_step (f : Z -> C -> Z * C) (st : N * C)
  : M Vector (N * C + C) :=
  let '(index, c) := st in
  if 0 <? index then
    let index := ULong.sub index 1 in
    dat <- VectorImpl.operator_at index ;;
    let '(dat', c') := f dat c in
    store index dat' ;;
    ret (inl (index, c'))
  else ret (inr c).

Definition PostOrderMap (f : Z -> C -> Z * C) (c : C) : M Vector C :=
  sz <- gets size ;;
  loop (S (N.to_nat sz)) (PostOrderMap_step f) (sz, c).

(** [MutableLinearContainer::Map] *)
Definition Map (f : Z -> C -> Z * C) (c : C) : M Vector C :=
  PreOrderMap f c.
End Visitors.

(** [TraversableContainer::Exists]: the traversal by the callable
    [if (!found && dat == val) found = true]. *)
Definition Exists (val : Z) : M Vector bool :=
  Traverse
    (fun dat found =>
       if negb found && (dat =? val)%Z then true else found)
    false.

(** ** QuickSort of [SortableLinearContainer], on a [SortableVector] *)

(** One round of [do { j--; } while (operator[](j) > x)]. *)
Definition scan_down_step (x : Z) (j : N) : M Vector (N + N) :=
  let j := ULong.sub j 1 in
  y <- VectorImpl.operator_at j ;;
  if (y >? x)%Z then ret (inl j) else ret (inr j).

(** One round of [do { i++; } while (operator[](i) < x)]. *)
Definition scan_up_step (x : Z) (i : N) : M Vector (N + N) :=
  let i := ULong.add i 1 in
  y <- VectorImpl.operator_at i ;;
  if (y <? x)%Z then ret (inl i) else ret (inr i).

(** One round of the outer [do ... while (i < j)] of [Partition]; [inr j]
    is [return j]. *)
Definition Partition_step (x : Z) (st : N * N) : M Vector (N * N + N) :=
  let '(i, j) := st in
  sz <- gets size ;;
  j <- loop (S (N.to_nat sz)) (scan_down_step x) j ;;
  i <- loop (S (N.to_nat sz)) (scan_up_step x) i ;;
  (if i <? j then
     temp_i <- VectorImpl.operator_at i ;;
     temp_j <- VectorImpl.operator_at j ;;
     VectorImpl.SwapAt i j temp_i temp_j
   else ret tt) ;;
  if i <? j then ret (inl (i, j)) else ret (inr j).

Definition Partition (p r : N) : M Vector N :=
  x <- VectorImpl.operator_at p ;;
  sz <- gets size ;;
  loop (S (N.to_nat sz)) (Partition_step x) (ULong.sub p 1, ULong.add r 1).

(** [QuickSort(p, r)]; [depth] bounds the depth of the recursion. *)
Fixpoint QuickSort (depth : nat) (p r : N) : M Vector unit :=
  match depth with
  | O => fun _ => Diverge
  | S depth' =>
      if p <? r then
        q <- Partition p r ;;
        (if 0 <? q then QuickSort depth' p q else ret tt) ;;
        QuickSort depth' (ULong.add q 1) r
      else ret tt
  end.

(** [SortableLinearContainer::Sort()] *)
Definition Sort : M Vector unit :=
  sz <- gets size ;;
  if 1 <? sz then QuickSort (S (N.to_nat sz)) 0 (ULong.sub sz 1)
  else ret tt.
End Linear.

(* ===================================================================== *)
(** * HeapVec: the heap engine ([src/heap/vec/heapvec.cpp]) *)

Module HeapVec.
Local Open Scope N_scope.

(** ** Index navigation *)

Definition GetParent (index : N) : N := ULong.sub index 1 / 2.
Definition GetLeftChild (index : N) : N := ULong.add (ULong.mul 2 index) 1.
Definition GetRightChild (index : N) : N := ULong.add (ULong.mul 2 index) 2.

Definition HasLeftChild (index : N) : M Vector bool :=
  sz <- gets size ;; ret (GetLeftChild index <? sz).

Definition HasRightChild (index : N) : M Vector bool :=
  sz <- gets size ;; ret (GetRightChild index <? sz).

(** ** IsHeap *)

(** One round of the [for] loop of [IsHeap]; [inr b] is [return b]. *)
Definition IsHeap_step (i : N) : M Vector (N + bool) :=
  sz <- gets size ;;
  if i <? sz then
    hl <- HasLeftChild i ;;
    badl <- (if hl then
               x <- load i ;; l <- load (GetLeftChild i) ;; ret (x <? l)%Z
             else ret false) ;;
    if badl then ret (inr false)
    else
      hr <- HasRightChild i ;;
      badr <- (if hr then
                 x <- load i ;; r <- load (GetRightChild i) ;; ret (x <? r)%Z
               else ret false) ;;
      if badr then ret (inr false)
      else ret (inl (ULong.add i 1))
  else ret (inr true).

Definition IsHeap : M Vector bool :=
  sz <- gets size ;;
  loop (S (N.to_nat sz)) IsHeap_step 0.

(** ** HeapifyUp *)

Definition HeapifyUp_step (index : N) : M Vector (N + unit) :=
  if 0 <? index then
    let parentIndex := GetParent index in
    x <- load index ;;
    p <- load parentIndex ;;
    if (x >? p)%Z then
      swap index parentIndex ;;
      ret (inl parentIndex)
    else ret (inr tt)
  else ret (inr tt).

Definition HeapifyUp (index : N) : M Vector unit :=
  loop (S (N.to_nat index)) HeapifyUp_step index.

(** ** HeapifyDown *)

Definition HeapifyDown_step (index : N) : M Vector (N + unit) :=
  hl <- HasLeftChild index ;;
  if hl then
    let largestChild := GetLeftChild index in
    hr <- HasRightChild index ;;
    right_larger <- (if hr then
                       r <- load (GetRightChild index) ;;
                       l <- load largestChild ;;
                       ret (r >? l)%Z
                     else ret false) ;;
    let largestChild :=
      if right_larger then GetRightChild index else largestChild in
    x <- load index ;;
    c <- load largestChild ;;
    if (x >=? c)%Z then ret (inr tt)
    else
      swap index largestChild ;;
      ret (inl largestChild)
  else ret (inr tt).

Definition HeapifyDown (index : N) : M Vector unit :=
  sz <- gets size ;;
  loop (S (N.to_nat sz)) HeapifyDown_step index.

(** ** Heapify *)

(** One round of [for (long i = size / 2 - 1; i >= 0; --i)]. *)
Definition Heapify_step (i : Z) : M Vector (Z + unit) :=
  if (i >=? 0)%Z then
    HeapifyDown (Z.to_N i) ;;
    ret (inl (i - 1)%Z)
  else ret (inr tt).

Definition Heapify : M Vector unit :=
  sz <- gets size ;;
  if 1 <? sz then
    loop (S (N.to_nat (sz / 2))) Heapify_step
         (ULong.to_long (ULong.sub (sz / 2) 1))
  else ret tt.

(** ** Sort *)

(** One round of the [while (true)] loop inside [Sort]. *)
Definition Sort_sift_step (heapSize : N) (current : N) : M Vector (N + unit) :=
  let largest := current in
  let leftChild := GetLeftChild current in
  let rightChild := GetRightChild current in
  largest <- (if leftChild <? heapSize then
                l <- load leftChild ;;
                x <- load largest ;;
                ret (if (l >? x)%Z then leftChild else largest)
              else ret largest) ;;
  largest <- (if rightChild <? heapSize then
                r <- load rightChild ;;
                x <- load largest ;;
                ret (if (r >? x)%Z then rightChild else largest)
              else ret largest) ;;
  if negb (largest =? current) then
    swap current largest ;;
    ret (inl largest)
  else ret (inr tt).

(** One round of [for (ulong i = size - 1; i > 0; --i)]. *)
Definition Sort_step (i : N) : M Vector (N + unit) :=
  if 0 <? i then
    swap 0 i ;;
    let heapSize := i in
    loop (S (N.to_nat heapSize)) (Sort_sift_step heapSize) 0 ;;
    ret (inl (ULong.sub i 1))
  else ret (inr tt).

Definition Sort : M Vector unit :=
  sz <- gets size ;;
  if 1 <? sz then
    Heapify ;;
    loop (S (N.to_nat sz)) Sort_step (ULong.sub sz 1)
  else ret tt.

(** ** Constructors, assignment and comparison: delegated to Vector *)

Definition HeapVec_size (newSize : N) : M Vector unit :=
  VectorImpl.Vector_size newSize.

Definition HeapVec_container (container : list Z) : M Vector unit :=
  VectorImpl.Vector_container container ;; Heapify.

Definition HeapVec_container_move (container : list Z) : M Vector (list Z) :=
  moved <- VectorImpl.Vector_container_move container ;;
  Heapify ;;
  ret moved.

Definition HeapVec_copy (other : Vector) : M Vector unit :=
  VectorImpl.Vector_copy other.

Definition HeapVec_move (this other : Vector) : Vector * Vector :=
  VectorImpl.Vector_move this other.

Definition copy_assign (other : Vector) : M Vector unit :=
  VectorImpl.copy_assign other.

Definition move_assign (this other : Vector) : Vector * Vector :=
  VectorImpl.move_assign this other.

Definition operator_eq (other : Vector) : M Vector bool :=
  VectorImpl.operator_eq other.

Definition operator_ne (other : Vector) : M Vector bool :=
  b <- operator_eq other ;; ret (negb b).

(** [HeapVec::SwapAt(i, j, temp_i, temp_j)] *)
Definition SwapAt (i j : N) (temp_i temp_j : Z) : M Vector unit :=
  store i temp_j ;; store j temp_i.
End HeapVec.

(* ===================================================================== *)
(** * PQHeap: the priority queue ([src/pq/heap/pqheap.cpp]) *)

Record PQHeap : Type := mkPQHeap {
  heap :> Vector;   (* the HeapVec base object *)
  capacity : N
}.

(** A member function of the base class run on the derived object. *)
Definition lift {A} (m : M Vector A) : M PQHeap A :=
  fun pq =>
    match m (heap pq) with
    | Ok a v => Ok a (mkPQHeap v (capacity pq))
    | Throw e v => Throw e (mkPQHeap v (capacity pq))
    | Fault => Fault
    | Diverge => Diverge
    end.

Definition set_size (n : N) : M PQHeap unit :=
  modify (fun pq : PQHeap => mkPQHeap (mkVector (Elements pq) n) (capacity pq)).

Definition set_capacity (n : N) : M PQHeap unit :=
  modify (fun pq : PQHeap => mkPQHeap (heap pq) n).

Definition set_Elements (a : list Z) : M PQHeap unit :=
  modify (fun pq : PQHeap => mkPQHeap (mkVector a (size pq)) (capacity pq)).

Module PQ.
Local Open Scope N_scope.

(** The object before a constructor body runs. *)
Definition fresh : PQHeap := mkPQHeap VectorImpl.fresh 0.

(** ** Capacity management *)

(** One round of [while (newCapacity < minCapacity) newCapacity *= 2].  A
    value doubled 64 times is 0 modulo [2^64] and stays 0: a loop that has
    not stopped after 64 rounds never stops, hence the bound of 65. *)
Definition grow_step (minCapacity newCapacity : N) : M PQHeap (N + N) :=
  if newCapacity <? minCapacity
  then ret (inl (ULong.mul newCapacity 2))
  else ret (inr newCapacity).

(** One round of [for (i = 0; i < size; i++) newElements[i] =
    std::move(Elements[i])]. *)
Definition move_step (st : N * list Z) : M Vector (N * list Z + list Z) :=
  let '(i, newElements) := st in
  sz <- gets size ;;
  if i <? sz then
    x <- load i ;;
    a <- of_option (wr newElements i x) ;;
    ret (inl (ULong.add i 1, a))
  else ret (inr newElements).

Definition EnsureCapacity (minCapacity : N) : M PQHeap unit :=
  cap <- gets capacity ;;
  if cap <? minCapacity then
    newCapacity <-
      loop 65 (grow_step minCapacity) (if cap =? 0 then 1 else cap) ;;
    newElements <- alloc newCapacity ;;
    sz <- gets (fun pq : PQHeap => size pq) ;;
    newElements <- lift (loop (S (N.to_nat sz)) move_step (0, newElements)) ;;
    set_Elements newElements ;;
    set_capacity newCapacity
  else ret tt.

Definition ShrinkCapacity : M PQHeap unit :=
  cap <- gets capacity ;;
  sz <- gets (fun pq : PQHeap => size pq) ;;
  if (4 <? cap) && (sz <=? cap / 4) then
    let newCapacity := cap / 2 in
    let newCapacity := if newCapacity <? sz then sz else newCapacity in
    newElements <- alloc newCapacity ;;
    newElements <- lift (loop (S (N.to_nat sz)) move_step (0, newElements)) ;;
    set_Elements newElements ;;
    set_capacity newCapacity
  else ret tt.

(** ** Constructors and assignment *)

(** [PQHeap()] *)
Definition PQHeap_default : M PQHeap unit := set_capacity 0.

(** [PQHeap(const ulong newSize)] *)
Definition PQHeap_size (newSize : N) : M PQHeap unit :=
  lift (HeapVec.HeapVec_size newSize) ;;
  set_capacity newSize.

(** [PQHeap(const TraversableContainer<Data>&)] *)
Definition PQHeap_container (container : list Z) : M PQHeap unit :=
  lift (HeapVec.HeapVec_container container) ;;
  sz <- gets (fun pq : PQHeap => size pq) ;;
  set_capacity sz.

(** [PQHeap(MappableContainer<Data>&&)]; returns the container's sequence
    after the call. *)
Definition PQHeap_container_move (container : list Z) : M PQHeap (list Z) :=
  moved <- lift (HeapVec.HeapVec_container_move container) ;;
  sz <- gets (fun pq : PQHeap => size pq) ;;
  set_capacity sz ;;
  ret moved.

(** [PQHeap(const PQHeap&)] *)
Definition PQHeap_copy (other : PQHeap) : M PQHeap unit :=
  lift (HeapVec.HeapVec_copy other) ;;
  set_capacity (capacity other).

(** [PQHeap(PQHeap&&)]; the result is (this, other). *)
Definition PQHeap_move (this other : PQHeap) : PQHeap * PQHeap :=
  let '(v, o) := HeapVec.HeapVec_move this other in
  (mkPQHeap v (capacity other), mkPQHeap o 0).

(** [operator=(const PQHeap&)] on two distinct objects. *)
Definition copy_assign (other : PQHeap) : M PQHeap unit :=
  lift (HeapVec.copy_assign other) ;;
  set_capacity (capacity other).

(** [operator=(PQHeap&&)] on two distinct objects; the result is
    (this, other). *)
Definition move_assign (this other : PQHeap) : PQHeap * PQHeap :=
  let '(v, o) := HeapVec.move_assign this other in
  (mkPQHeap v (capacity other), mkPQHeap o 0).

(** ** Comparison *)

Definition operator_eq (other : PQHeap) : M PQHeap bool :=
  lift (HeapVec.operator_eq other).

Definition operator_ne (other : PQHeap) : M PQHeap bool :=
  b <- operator_eq other ;; ret (negb b).

(** ** Priority-queue operations *)

Definition Tip : M PQHeap Z :=
  sz <- gets (fun pq : PQHeap => size pq) ;;
  if sz =? 0 then throw (length_error "Priority queue is empty")
  else lift (load 0).

Definition RemoveTip : M PQHeap unit :=
  sz <- gets (fun pq : PQHeap => size pq) ;;
  if sz =? 0 then throw (length_error "Priority queue is empty")
  else if sz =? 1 then
    set_size 0 ;;
    ShrinkCapacity
  else
    last <- lift (load (ULong.sub sz 1)) ;;
    lift (store 0 last) ;;
    set_size (ULong.sub sz 1) ;;
    lift (HeapVec.HeapifyDown 0) ;;
    ShrinkCapacity.

Definition TipNRemove : M PQHeap Z :=
  sz <- gets (fun pq : PQHeap => size pq) ;;
  if sz =? 0 then throw (length_error "Priority queue is empty")
  else
    result <- lift (load 0) ;;
    (if sz =? 1 then
       set_size 0 ;;
       ShrinkCapacity
     else
       last <- lift (load (ULong.sub sz 1)) ;;
       lift (store 0 last) ;;
       set_size (ULong.sub sz 1) ;;
       lift (HeapVec.HeapifyDown 0) ;;
       ShrinkCapacity) ;;
    ret result.

Definition Insert (value : Z) : M PQHeap unit :=
  sz <- gets (fun pq : PQHeap => size pq) ;;
  EnsureCapacity (ULong.add sz 1) ;;
  lift (store sz value) ;;
  set_size (ULong.add sz 1) ;;
  lift (HeapVec.HeapifyUp (ULong.sub (ULong.add sz 1) 1)).

(** One round of [while (idx < size && !(Elements[idx] == oldValue))
    ++idx]. *)
Definition find_step (oldValue : Z) (idx : N) : M Vector (N + N) :=
  sz <- gets size ;;
  if idx <? sz then
    x <- load idx ;;
    if negb (x =? oldValue)%Z then ret (inl (ULong.add idx 1))
    else ret (inr idx)
  else ret (inr idx).

(** [Change(const Data& oldValue, const Data& newValue)] *)
Definition Change (oldValue newValue : Z) : M PQHeap unit :=
  sz <- gets (fun pq : PQHeap => size pq) ;;
  idx <- lift (loop (S (N.to_nat sz)) (find_step oldValue) 0) ;;
  if idx =? sz then throw (length_error "Value not found")
  else
    oldData <- lift (load idx) ;;
    lift (store idx newValue) ;;
    if (newValue >? oldData)%Z then lift (HeapVec.HeapifyUp idx)
    else if (newValue <? oldData)%Z then lift (HeapVec.HeapifyDown idx)
    else ret tt.

(** [Change(const Data& oldValue, Data&& newValue)] *)
Definition Change_move (oldValue newValue : Z) : M PQHeap unit :=
  sz <- gets (fun pq : PQHeap => size pq) ;;
  idx <- lift (loop (S (N.to_nat sz)) (find_step oldValue) 0) ;;
  if idx =? sz then throw (length_error "Value not found")
  else
    oldData <- lift (load idx) ;;
    lift (store idx newValue) ;;
    cur <- lift (load idx) ;;
    if (cur >? oldData)%Z then lift (HeapVec.HeapifyUp idx)
    else
      cur <- lift (load idx) ;;
      if (cur <? oldData)%Z then lift (HeapVec.HeapifyDown idx)
      else ret tt.

(** [Change(const ulong& idx, const Data& newValue)] *)
Definition Change_at (idx : N) (newValue : Z) : M PQHeap unit :=
  sz <- gets (fun pq : PQHeap => size pq) ;;
  if sz <=? idx then throw (out_of_range "Index out of range")
  else
    oldData <- lift (load idx) ;;
    lift (store idx newValue) ;;
    if (newValue >? oldData)%Z then lift (HeapVec.HeapifyUp idx)
    else if (newValue <? oldData)%Z then lift (HeapVec.HeapifyDown idx)
    else ret tt.

(** [Change(const ulong& idx, Data&& newValue)] *)
Definition Change_at_move (idx : N) (newValue : Z) : M PQHeap unit :=
  sz <- gets (fun pq : PQHeap => size pq) ;;
  if sz <=? idx then throw (out_of_range "Index out of range")
  else
    oldData <- lift (load idx) ;;
    lift (store idx newValue) ;;
    cur <- lift (load idx) ;;
    if (cur >? oldData)%Z then lift (HeapVec.HeapifyUp idx)
    else
      cur <- lift (load idx) ;;
      if (cur <? oldData)%Z then lift (HeapVec.HeapifyDown idx)
      else ret tt.

(** [Insert(Data&& value)]: for [int], moving is copying. *)
Definition Insert_move (value : Z) : M PQHeap unit :=
  sz <- gets (fun pq : PQHeap => size pq) ;;
  EnsureCapacity (ULong.add sz 1) ;;
  lift (store sz value) ;;
  set_size (ULong.add sz 1) ;;
  lift (HeapVec.HeapifyUp (ULong.sub (ULong.add sz 1) 1)).

(** [operator=(PQHeap&&)] when the argument is the object itself: the
    Vector assignment does nothing, then [capacity = other.capacity;
    other.capacity = 0] both act on the one object. *)
Definition move_assign_self : M PQHeap unit := set_capacity 0.

(** ** Public members inherited from HeapVec *)

Definition IsHeap : M PQHeap bool := lift HeapVec.IsHeap.
Definition Heapify : M PQHeap unit := lift HeapVec.Heapify.
Definition Sort : M PQHeap unit := lift HeapVec.Sort.

(** [Size()] and [Empty()] of Container. *)
Definition Size : M PQHeap N := gets (fun pq : PQHeap => size pq).
Definition Empty : M PQHeap bool :=
  gets (fun pq : PQHeap => size pq =? 0).

(** ** Protected helpers *)

(** [InsertWithHeapify(const Data&)] *)
Definition InsertWithHeapify (value : Z) : M PQHeap unit :=
  sz <- gets (fun pq : PQHeap => size pq) ;;
  EnsureCapacity (ULong.add sz 1) ;;
  lift (store sz value) ;;
  set_size (ULong.add sz 1) ;;
  lift (HeapVec.HeapifyUp (ULong.sub (ULong.add sz 1) 1)).

(** [ClearAll()] *)
Definition ClearAll : M PQHeap unit :=
  set_Elements [] ;;
  set_size 0 ;;
  set_capacity 0.

(** ** Public members inherited from Vector and the containers *)

(** [Resize(ulong)] and [Clear()]: the functions of Vector, which know
    nothing of [capacity]. *)
Definition Resize (newSize : N) : M PQHeap unit :=
  lift (VectorImpl.Resize newSize).

Definition Clear : M PQHeap unit := lift VectorImpl.Clear.

(** [Exists(const Data&)] *)
Definition Exists (val : Z) : M PQHeap bool := lift (Linear.Exists val).
End PQ.

(* ===================================================================== *)
(** * Callers of the priority queue

    The ways the tests of [src/zmytest/pq_test.cpp] drive a queue. *)

Module Client.
Local Open Scope N_scope.

(** [PQHeap<int> pq;] *)
Definition new_default : result PQHeap unit := PQ.PQHeap_default PQ.fresh.

(** [PQHeap<int> pq(n);] *)
Definition new_size (n : N) : result PQHeap unit := PQ.PQHeap_size n PQ.fresh.

(** [PQHeap<int> pq(container);] *)
Definition new_container (container : list Z) : result PQHeap unit :=
  PQ.PQHeap_container container PQ.fresh.

(** [PQHeap<int> pq(std::move(container));] *)
Definition new_container_move (container : list Z)
  : result PQHeap (list Z) :=
  PQ.PQHeap_container_move container PQ.fresh.

(** [PQHeap<int> pq(other);] *)
Definition new_copy (other : PQHeap) : result PQHeap unit :=
  PQ.PQHeap_copy other PQ.fresh.

(** [PQHeap<int> pq(std::move(other));] gives (pq, other). *)
Definition new_move (other : PQHeap) : PQHeap * PQHeap :=
  PQ.PQHeap_move PQ.fresh other.

(** [for (x : values) pq.Insert(x);] *)
Fixpoint insert_all (values : list Z) : M PQHeap unit :=
  match values with
  | [] => ret tt
  | x :: rest => PQ.Insert x ;; insert_all rest
  end.

(** One round of [while (!pq.Empty()) out.push_back(pq.TipNRemove());]. *)
Definition drain_step (out : list Z) : M PQHeap (list Z + list Z) :=
  e <- PQ.Empty ;;
  if negb e then
    x <- PQ.TipNRemove ;;
    ret (inl (out ++ [x]))
  else ret (inr out).

Definition drain : M PQHeap (list Z) :=
  sz <- PQ.Size ;;
  loop (S (N.to_nat sz)) drain_step [].

(** The mutating calls of the public surface that keep the heap. *)
Inductive call : Type :=
| Insert (value : Z)
| InsertMove (value : Z)
| RemoveTip
| TipNRemove
| Change (oldValue newValue : Z)
| ChangeMove (oldValue newValue : Z)
| ChangeAt (idx : N) (newValue : Z)
| ChangeAtMove (idx : N) (newValue : Z)
| Heapify.

Definition perform (c : call) : M PQHeap unit :=
  match c with
  | Insert x => PQ.Insert x
  | InsertMove x => PQ.Insert_move x
  | RemoveTip => PQ.RemoveTip
  | TipNRemove => PQ.TipNRemove ;; ret tt
  | Change o n => PQ.Change o n
  | ChangeMove o n => PQ.Change_move o n
  | ChangeAt i n => PQ.Change_at i n
  | ChangeAtMove i n => PQ.Change_at_move i n
  | Heapify => PQ.Heapify
  end.

(** The queue after one call made inside [try { ... } catch (...) {}]:
    an exception leaves the object as it was at the throw; there is no
    queue after undefined behaviour or a loop that does not end. *)
Definition after (c : call) (pq : PQHeap) : option PQHeap :=
  match perform c pq with
  | Ok _ pq' => Some pq'
  | Throw _ pq' => Some pq'
  | Fault => None
  | Diverge => None
  end.

Fixpoint after_all (cs : list call) (pq : PQHeap) : option PQHeap :=
  match cs with
  | [] => Some pq
  | c :: rest =>
      match after c pq with
      | Some pq' => after_all rest pq'
      | None => None
      end
  end.
End Client.

(* ===================================================================== *)
(** * Vocabulary of the specification *)

(** Element [i] of an array, for reasoning: reads outside of it give 0. *)
Definition elem (a : list Z) (i : nat) : Z := nth i a 0%Z.

(** The effect of [std::swap(a[i], a[j])] on the array. *)
Definition swap_list (i j : nat) (a : list Z) : list Z :=
  <[j := elem a i]> (<[i := elem a j]> a).

(** Node [p] dominates its children inside the window [[0, n)]. *)
Definition edge_ok (n : nat) (a : list Z) (p : nat) : Prop :=
  (2 * p + 1 < n -> (elem a (2 * p + 1) <= elem a p)%Z) /\
  (2 * p + 2 < n -> (elem a (2 * p + 2) <= elem a p)%Z).

(** The heap invariant of the specification, for the nodes from [lo] on. *)
Definition is_heap_from (lo n : nat) (a : list Z) : Prop :=
  forall p, lo <= p -> edge_ok n a p.

Definition is_heap (n : nat) (a : list Z) : Prop := is_heap_from 0 n a.

(** The invariant everywhere except between [i] and its children, the
    children of [i] being dominated by the parent of [i]. *)
Definition down_inv (lo n i : nat) (a : list Z) : Prop :=
  (forall p, lo <= p -> p <> i -> edge_ok n a p) /\
  (forall p, lo <= p -> i = 2 * p + 1 \/ i = 2 * p + 2 ->
     (2 * i + 1 < n -> (elem a (2 * i + 1) <= elem a p)%Z) /\
     (2 * i + 2 < n -> (elem a (2 * i + 2) <= elem a p)%Z)).

(** The invariant everywhere except between [i] and its parent, the
    children of [i] being dominated by the parent of [i]. *)
Definition up_inv (n i : nat) (a : list Z) : Prop :=
  (forall p,
     (2 * p + 1 < n -> 2 * p + 1 <> i -> (elem a (2 * p + 1) <= elem a p)%Z) /\
     (2 * p + 2 < n -> 2 * p + 2 <> i -> (elem a (2 * p + 2) <= elem a p)%Z)) /\
  (forall p, i = 2 * p + 1 \/ i = 2 * p + 2 ->
     (2 * i + 1 < n -> (elem a (2 * i + 1) <= elem a p)%Z) /\
     (2 * i + 2 < n -> (elem a (2 * i + 2) <= elem a p)%Z)).

(** [c] is a child of [i] inside the window, not smaller than the other
    child when that one is inside the window too. *)
Definition larger_child (n : nat) (a : list Z) (i c : nat) : Prop :=
  c < n /\
  (c = 2 * i + 1 /\ (2 * i + 2 < n -> (elem a (2 * i + 2) <= elem a c)%Z) \/
   c = 2 * i + 2 /\ (elem a (2 * i + 1) <= elem a c)%Z).

(** The first [n] elements are in non-decreasing order. *)
Definition sorted_upto (n : nat) (a : list Z) : Prop :=
  forall j k, j <= k -> k < n -> (elem a j <= elem a k)%Z.

(** A vector whose live elements lie inside its allocated array. *)
Definition vector_ok (v : Vector) : Prop :=
  N.to_nat (size v) <= length (Elements v) /\
  (N.of_nat (length (Elements v)) <= max_array_length)%N.

(** A priority queue whose array has room for [capacity] elements, the first
    [size] of which are live. *)
Definition valid (pq : PQHeap) : Prop :=
  (size pq <= capacity pq)%N /\
  N.to_nat (capacity pq) <= length (Elements pq) /\
  (N.of_nat (length (Elements pq)) <= max_array_length)%N.

(** The live elements, and the heap invariant on them. *)
Definition live (pq : PQHeap) : list Z :=
  take (N.to_nat (size pq)) (Elements pq).

Definition heap_ok (pq : PQHeap) : Prop :=
  is_heap (N.to_nat (size pq)) (Elements pq).

(** Predicates on the array that no swap inside the window [[0, n)] changes:
    the frame of the sift loops. *)
Definition swap_closed (n : nat) (Q : list Z -> Prop) : Prop :=
  forall a i j, i < n -> j < n -> i < length a -> j < length a ->
    Q a -> Q (swap_list i j a).

(** What one round of a sift-down loop over the window [[0, n)] of a vector
    of size [sz] does at node [idx]: stop at a node that dominates its
    children, or swap it with its larger child and move there. *)
Definition sift_down_round (sz : N) (n : nat)
  (step : N -> M Vector (N + unit)) : Prop :=
  forall (v : Vector) (idx : N),
    vector_ok v -> size v = sz -> N.to_nat idx < n ->
    (step idx v = Ok (inr tt) v /\ edge_ok n (Elements v) (N.to_nat idx)) \/
    (exists c : N,
       step idx v =
         Ok (inl c)
            (mkVector (swap_list (N.to_nat idx) (N.to_nat c) (Elements v))
                      (size v)) /\
       larger_child n (Elements v) (N.to_nat idx) (N.to_nat c) /\
       (elem (Elements v) (N.to_nat idx) < elem (Elements v) (N.to_nat c))%Z).

(** [newCapacity] is the first value of the sequence [c0, 2 c0, 4 c0, ...]
    that reaches [minCapacity]. *)
Definition first_doubling (c0 minCapacity newCapacity : N) : Prop :=
  exists k : N,
    (newCapacity = c0 * 2 ^ k)%N /\
    (minCapacity <= newCapacity)%N /\
    forall j : N, (j < k)%N -> (c0 * 2 ^ j < minCapacity)%N.

(** The queue after its live elements were moved, in order, to the front of
    a new array of [newCapacity] slots. *)
Definition relocated (pq : PQHeap) (newCapacity : N) : PQHeap :=
  mkPQHeap
    (mkVector (take (N.to_nat (size pq)) (Elements pq)
               ++ replicate (N.to_nat newCapacity - N.to_nat (size pq)) 0%Z)
              (size pq))
    newCapacity.

(** ** Vocabulary of the further properties *)

(** The live elements of a vector, in index order. *)
Definition items (v : Vector) : list Z :=
  take (N.to_nat (size v)) (Elements v).

(** The first [i] elements of [src] followed by default values, [c]
    elements in all: a new array while a loop copies [src] into it. *)
Definition copied (src : list Z) (c i : nat) : list Z :=
  take i src ++ replicate (c - i) 0%Z.

(** A [MapFun] run over a sequence, front to back: the new elements and the
    captured state at the end. *)
Fixpoint visit {C} (f : Z -> C -> Z * C) (l : list Z) (c : C) : list Z * C :=
  match l with
  | [] => ([], c)
  | x :: l' =>
      let '(y, c') := f x c in
      let '(ys, c'') := visit f l' c' in
      (y :: ys, c'')
  end.

(** The elements at the indices [p, ..., r] are in non-decreasing order. *)
Definition sorted_range (p r : nat) (a : list Z) : Prop :=
  forall j k, p <= j -> j <= k -> k <= r -> (elem a j <= elem a k)%Z.

(** Predicates on the array that no swap of two indices of [p, ..., r]
    changes: the frame of [Partition] and [QuickSort]. *)
Definition range_closed (p r : nat) (Q : list Z -> Prop) : Prop :=
  forall a i j, p <= i <= r -> p <= j <= r ->
    i < length a -> j < length a -> Q a -> Q (swap_list i j a).

(** The capacities a run of [Insert]s from the empty queue goes through. *)
Definition doubled (pq : PQHeap) : Prop :=
  (size pq = 0 /\ capacity pq = 0)%N \/
  exists k : N, (capacity pq = 2 ^ k /\
                 size pq <= capacity pq /\ capacity pq < 2 * size pq)%N.

(* ===================================================================== *)
(** * Reasoning about outcomes and loops *)

(** Divisions and remainders by constants are handed to [lia]. *)
Ltac Zify.zify_post_hook ::= Z.to_euclidean_division_equations.

(** Unfolds the monadic plumbing of a member function. *)
Ltac run_step :=
  cbv beta iota delta
    [bind gets ret modify negb of_option throw
     set_size set_capacity set_Elements
     HeapVec.HasLeftChild HeapVec.HasRightChild].

Section LoopRule.
Context {St V A : Type}.
Variable step : V -> M St (V + A).
Variable Inv : V -> St -> Prop.
Variable Post : A -> St -> Prop.
Variable mu : V -> St -> nat.

Hypothesis step_ok : forall v s, Inv v s ->
  match step v s with
  | Ok (inl v') s' => Inv v' s' /\ (mu v' s' < mu v s)%nat
  | Ok (inr a) s' => Post a s'
  | _ => False
  end.

(** Total correctness of a loop from an invariant and a variant. *)
Lemma loop_rule fuel : forall v s,
  Inv v s -> (mu v s < fuel)%nat ->
  exists a s', loop fuel step v s = Ok a s' /\ Post a s'.
Proof using step_ok.
  induction fuel as [|fuel IH]; intros v s HI Hmu; [lia|].
  simpl. unfold bind. specialize (step_ok v s HI).
  destruct (step v s) as [[v'|a] s'| | |]; try contradiction.
  - destruct step_ok as [HI' Hlt]. apply IH; [assumption|lia].
  - exists a, s'. split; [reflexivity|assumption].
Qed.
End LoopRule.

Lemma lift_Ok {A} (m : M Vector A) (pq : PQHeap) a v :
  m (heap pq) = Ok a v -> lift m pq = Ok a (mkPQHeap v (capacity pq)).
Proof. unfold lift. intros ->. reflexivity. Qed.

(* ===================================================================== *)
(** * Arrays as lists *)

Lemma lookup_elem (a : list Z) i :
  (i < length a)%nat -> a !! i = Some (elem a i).
Proof.
  intros H. unfold elem. rewrite nth_lookup.
  destruct (lookup_lt_is_Some_2 a i H) as [x ->]. reflexivity.
Qed.

Lemma rd_elem (a : list Z) (i : N) :
  (N.to_nat i < length a)%nat -> rd a i = Some (elem a (N.to_nat i)).
Proof. apply lookup_elem. Qed.

Lemma rd_None (a : list Z) (i : N) :
  (length a <= N.to_nat i)%nat -> rd a i = None.
Proof. intros H. unfold rd. apply lookup_ge_None_2. exact H. Qed.

Lemma wr_Some (a : list Z) (i : N) x :
  (N.to_nat i < length a)%nat -> wr a i x = Some (<[N.to_nat i := x]> a).
Proof. intros H. unfold wr. rewrite decide_True by exact H. reflexivity. Qed.

Lemma wr_None (a : list Z) (i : N) x :
  (length a <= N.to_nat i)%nat -> wr a i x = None.
Proof. intros H. unfold wr. rewrite decide_False by lia. reflexivity. Qed.

Lemma elem_insert (a : list Z) i j x :
  (i < length a)%nat ->
  elem (<[i := x]> a) j = if decide (j = i) then x else elem a j.
Proof.
  intros H. unfold elem. rewrite !nth_lookup.
  destruct (decide (j = i)) as [->|Hne].
  - rewrite list_lookup_insert_eq by exact H. reflexivity.
  - rewrite list_lookup_insert_ne by congruence. reflexivity.
Qed.

Lemma elem_ge (a : list Z) i : (length a <= i)%nat -> elem a i = 0%Z.
Proof. intros H. unfold elem. apply nth_overflow. exact H. Qed.

Lemma length_swap_list i j a : length (swap_list i j a) = length a.
Proof. unfold swap_list. rewrite !length_insert. reflexivity. Qed.

(** Value of every slot after a swap, in a form [lia] can split on. *)
Lemma elem_swap_list i j a k :
  (i < length a)%nat -> (j < length a)%nat ->
  (k = j /\ elem (swap_list i j a) k = elem a i) \/
  (k <> j /\ k = i /\ elem (swap_list i j a) k = elem a j) \/
  (k <> j /\ k <> i /\ elem (swap_list i j a) k = elem a k).
Proof.
  intros Hi Hj. unfold swap_list.
  rewrite elem_insert by (rewrite length_insert; exact Hj).
  rewrite elem_insert by exact Hi.
  destruct (decide (k = j)); destruct (decide (k = i)); tauto.
Qed.

Lemma swap_list_perm i j a :
  (i < length a)%nat -> (j < length a)%nat -> swap_list i j a ≡ₚ a.
Proof.
  intros Hi Hj. unfold swap_list.
  apply Permutation_insert_swap; apply lookup_elem; assumption.
Qed.

Lemma drop_swap_list n i j a :
  (i < n)%nat -> (j < n)%nat -> drop n (swap_list i j a) = drop n a.
Proof.
  intros Hi Hj. unfold swap_list. rewrite !drop_insert_lt by assumption.
  reflexivity.
Qed.

Lemma load_Ok (i : N) (v : Vector) :
  (N.to_nat i < length (Elements v))%nat ->
  load i v = Ok (elem (Elements v) (N.to_nat i)) v.
Proof. intros H. unfold load. rewrite rd_elem by exact H. reflexivity. Qed.

Lemma store_Ok (i : N) x (v : Vector) :
  (N.to_nat i < length (Elements v))%nat ->
  store i x v = Ok tt (mkVector (<[N.to_nat i := x]> (Elements v)) (size v)).
Proof. intros H. unfold store. rewrite wr_Some by exact H. reflexivity. Qed.

Lemma store_Fault (i : N) x (v : Vector) :
  (length (Elements v) <= N.to_nat i)%nat -> store i x v = Fault.
Proof. intros H. unfold store. rewrite wr_None by exact H. reflexivity. Qed.

Lemma swap_Ok (i j : N) (v : Vector) :
  (N.to_nat i < length (Elements v))%nat ->
  (N.to_nat j < length (Elements v))%nat ->
  swap i j v =
  Ok tt (mkVector (swap_list (N.to_nat i) (N.to_nat j) (Elements v)) (size v)).
Proof.
  intros Hi Hj. unfold swap, bind.
  rewrite (load_Ok i), (load_Ok j) by assumption.
  rewrite (store_Ok i) by assumption.
  rewrite store_Ok by (simpl; rewrite length_insert; assumption).
  reflexivity.
Qed.

(* ===================================================================== *)
(** * The max-heap ordering on an array window *)

Section HeapOrder.

Lemma larger_child_bounds n a i c : larger_child n a i c -> i < c < n.
Proof. unfold larger_child. lia. Qed.

Lemma is_heap_from_down_inv lo n a :
  is_heap_from (S lo) n a -> down_inv lo n lo a.
Proof.
  intros H. split.
  - intros p Hp Hne. apply H. lia.
  - intros p Hp Hc. lia.
Qed.

Lemma is_heap_down_inv lo n i a : is_heap_from lo n a -> down_inv lo n i a.
Proof.
  intros H. split.
  - intros p Hp _. apply H, Hp.
  - intros p Hp Hc.
    pose proof (H p Hp) as Hpe. pose proof (H i ltac:(lia)) as Hie.
    unfold edge_ok in *. destruct Hc; subst i; lia.
Qed.

Lemma is_heap_up_inv n i a : is_heap n a -> up_inv n i a.
Proof.
  intros H. split.
  - intros p. pose proof (H p ltac:(lia)) as Hp. unfold edge_ok in Hp. lia.
  - intros p Hc.
    pose proof (H p ltac:(lia)) as Hpe. pose proof (H i ltac:(lia)) as Hie.
    unfold edge_ok in *. destruct Hc; subst i; lia.
Qed.

(** The sift-down loop stops: the invariant holds everywhere. *)
Lemma down_inv_done lo n i a :
  down_inv lo n i a -> edge_ok n a i -> is_heap_from lo n a.
Proof.
  intros [H1 _] Hi p Hp. destruct (decide (p = i)) as [->|Hne]; auto.
Qed.

(** The sift-down loop swaps [i] with its larger child [c]. *)
Lemma down_inv_swap lo n i c a :
  down_inv lo n i a -> lo <= i -> n <= length a ->
  larger_child n a i c ->
  (elem a i < elem a c)%Z ->
  down_inv lo n c (swap_list i c a).
Proof.
  intros [H1 H2] Hlo Hn [Hc Hmax] Hlt.
  assert (Hi : i < length a) by lia.
  assert (Hcl : c < length a) by lia.
  split.
  - intros p Hp Hne.
    pose proof (H2 p Hp) as H2p.
    destruct (decide (p = i)) as [->|Hpi].
    + pose proof (elem_swap_list i c a i Hi Hcl).
      pose proof (elem_swap_list i c a (2 * i + 1) Hi Hcl).
      pose proof (elem_swap_list i c a (2 * i + 2) Hi Hcl).
      unfold edge_ok. destruct Hmax as [[-> Hm]|[-> Hm]]; lia.
    + pose proof (H1 p Hp Hpi) as H1p. unfold edge_ok in *.
      pose proof (elem_swap_list i c a p Hi Hcl).
      destruct (decide (2 * p + 1 = i)) as [<-|];
        [|destruct (decide (2 * p + 2 = i)) as [<-|]].
      * pose proof (elem_swap_list (2 * p + 1) c a (2 * p + 1) Hi Hcl).
        pose proof (elem_swap_list (2 * p + 1) c a (2 * p + 2) Hi Hcl).
        destruct Hmax as [[-> Hm]|[-> Hm]]; lia.
      * pose proof (elem_swap_list (2 * p + 2) c a (2 * p + 1) Hi Hcl).
        pose proof (elem_swap_list (2 * p + 2) c a (2 * p + 2) Hi Hcl).
        destruct Hmax as [[-> Hm]|[-> Hm]]; lia.
      * pose proof (elem_swap_list i c a (2 * p + 1) Hi Hcl).
        pose proof (elem_swap_list i c a (2 * p + 2) Hi Hcl).
        lia.
  - intros p Hp Hpar.
    assert (p = i) as -> by lia.
    pose proof (elem_swap_list i c a i Hi Hcl).
    pose proof (elem_swap_list i c a (2 * c + 1) Hi Hcl).
    pose proof (elem_swap_list i c a (2 * c + 2) Hi Hcl).
    pose proof (H1 c ltac:(lia) ltac:(lia)) as H1c.
    unfold edge_ok in *. lia.
Qed.

(** The sift-up loop stops. *)
Lemma up_inv_done n i a :
  up_inv n i a ->
  (i = 0 \/ (elem a i <= elem a ((i - 1) / 2))%Z) -> is_heap n a.
Proof.
  intros [H1 _] Hi p _. pose proof (H1 p) as Hp.
  unfold edge_ok. split; intros Hc.
  - destruct (decide (2 * p + 1 = i)) as [Heq|Hne]; [|lia].
    assert ((i - 1) / 2 = p) as Hpar by lia. rewrite Hpar in Hi. subst i. lia.
  - destruct (decide (2 * p + 2 = i)) as [Heq|Hne]; [|lia].
    assert ((i - 1) / 2 = p) as Hpar by lia. rewrite Hpar in Hi. subst i. lia.
Qed.

(** The sift-up loop swaps [i] with its parent. *)
Lemma up_inv_swap n i a :
  up_inv n i a -> 0 < i -> i < n -> n <= length a ->
  (elem a ((i - 1) / 2) < elem a i)%Z ->
  up_inv n ((i - 1) / 2) (swap_list i ((i - 1) / 2) a).
Proof.
  intros [H1 H2] Hpos Hi Hn Hlt.
  set (q := (i - 1) / 2) in *.
  assert (Hq : i = 2 * q + 1 \/ i = 2 * q + 2) by (subst q; lia).
  clearbody q.
  assert (Hil : i < length a) by lia.
  assert (Hql : q < length a) by lia.
  pose proof (H2 q Hq) as H2q. pose proof (H1 q) as H1q.
  split.
  - intros p. pose proof (H1 p) as H1p.
    destruct (decide (p = q)) as [->|Hpq];
      [|destruct (decide (p = i)) as [->|Hpi]].
    + pose proof (elem_swap_list i q a q Hil Hql).
      destruct Hq as [->| ->].
      * pose proof (elem_swap_list (2 * q + 1) q a (2 * q + 1) Hil Hql).
        pose proof (elem_swap_list (2 * q + 1) q a (2 * q + 2) Hil Hql).
        lia.
      * pose proof (elem_swap_list (2 * q + 2) q a (2 * q + 1) Hil Hql).
        pose proof (elem_swap_list (2 * q + 2) q a (2 * q + 2) Hil Hql).
        lia.
    + pose proof (elem_swap_list i q a i Hil Hql).
      pose proof (elem_swap_list i q a (2 * i + 1) Hil Hql).
      pose proof (elem_swap_list i q a (2 * i + 2) Hil Hql).
      lia.
    + pose proof (elem_swap_list i q a p Hil Hql).
      pose proof (elem_swap_list i q a (2 * p + 1) Hil Hql).
      pose proof (elem_swap_list i q a (2 * p + 2) Hil Hql).
      lia.
  - intros p Hpar. pose proof (H1 p) as H1p.
    pose proof (elem_swap_list i q a p Hil Hql).
    destruct Hq as [->| ->]; destruct Hpar as [->| ->].
    all: match goal with
         | |- context [swap_list ?i' ?q' ?a'] =>
             pose proof (elem_swap_list i' q' a' (2 * q' + 1) Hil Hql);
             pose proof (elem_swap_list i' q' a' (2 * q' + 2) Hil Hql)
         end; lia.
Qed.

(** In a heap the root is a maximum of the window. *)
Lemma is_heap_root_max n a :
  is_heap n a -> forall i, i < n -> (elem a i <= elem a 0)%Z.
Proof.
  intros H i. induction (lt_wf i) as [i _ IH]. intros Hi.
  destruct (decide (i = 0)) as [->|Hne]; [lia|].
  pose proof (IH ((i - 1) / 2) ltac:(lia) ltac:(lia)) as Hp.
  pose proof (H ((i - 1) / 2) ltac:(lia)) as He. unfold edge_ok in He.
  assert (i = 2 * ((i - 1) / 2) + 1 \/ i = 2 * ((i - 1) / 2) + 2) as Hc by lia.
  destruct Hc as [Hc|Hc]; rewrite <- Hc in He; lia.
Qed.

(** The invariant only reads the window. *)
Lemma is_heap_from_ext lo n a b :
  (forall i, i < n -> elem b i = elem a i) ->
  is_heap_from lo n a -> is_heap_from lo n b.
Proof.
  intros Heq H p Hp. specialize (H p Hp). unfold edge_ok in *.
  split; intros Hc.
  - rewrite !Heq by lia. apply H, Hc.
  - rewrite !Heq by lia. apply H, Hc.
Qed.

Lemma is_heap_from_shrink lo n m a :
  m <= n -> is_heap_from lo n a -> is_heap_from lo m a.
Proof.
  intros Hm H p Hp. specialize (H p Hp). unfold edge_ok in *. lia.
Qed.
End HeapOrder.

(* ===================================================================== *)
(** * Index arithmetic without wrap-around *)

Section NoWrap.
Local Open Scope N_scope.

Lemma add_nowrap a b : a + b < 2 ^ 64 -> ULong.add a b = a + b.
Proof. unfold ULong.add, ULong.wrap, ULong.modulus. lia. Qed.

Lemma sub_nowrap a b : b <= a -> a < 2 ^ 64 -> ULong.sub a b = a - b.
Proof. unfold ULong.sub, ULong.wrap, ULong.modulus. lia. Qed.

Lemma mul_nowrap a b : a * b < 2 ^ 64 -> ULong.mul a b = a * b.
Proof. unfold ULong.mul, ULong.wrap, ULong.modulus. intros H. nia. Qed.

Lemma GetLeftChild_nowrap i :
  i < 2 ^ 62 -> HeapVec.GetLeftChild i = 2 * i + 1.
Proof.
  intros H. unfold HeapVec.GetLeftChild, ULong.add, ULong.mul, ULong.wrap,
    ULong.modulus. lia.
Qed.

Lemma GetRightChild_nowrap i :
  i < 2 ^ 62 -> HeapVec.GetRightChild i = 2 * i + 2.
Proof.
  intros H. unfold HeapVec.GetRightChild, ULong.add, ULong.mul, ULong.wrap,
    ULong.modulus. lia.
Qed.

Lemma GetParent_nowrap i :
  0 < i -> i < 2 ^ 64 -> HeapVec.GetParent i = (i - 1) / 2.
Proof.
  intros H0 H. unfold HeapVec.GetParent. rewrite sub_nowrap by lia.
  reflexivity.
Qed.

Lemma to_nat_left i : N.to_nat (2 * i + 1) = (2 * N.to_nat i + 1)%nat.
Proof. lia. Qed.

Lemma to_nat_right i : N.to_nat (2 * i + 2) = (2 * N.to_nat i + 2)%nat.
Proof. lia. Qed.

Lemma to_nat_parent i : N.to_nat ((i - 1) / 2) = ((N.to_nat i - 1) / 2)%nat.
Proof. lia. Qed.
End NoWrap.

Lemma swap_closed_weaken n m Q :
  (m <= n)%nat -> swap_closed n Q -> swap_closed m Q.
Proof. intros Hm H a i j Hi Hj Hil Hjl. apply H; lia. Qed.

Lemma swap_closed_and n Q1 Q2 :
  swap_closed n Q1 -> swap_closed n Q2 ->
  swap_closed n (fun a => Q1 a /\ Q2 a).
Proof.
  intros H1 H2 a i j Hi Hj Hil Hjl [? ?]. split; [apply H1|apply H2]; auto.
Qed.

Lemma take_swap_list n i j a :
  (i < n)%nat -> (j < n)%nat ->
  take n (swap_list i j a) = swap_list i j (take n a).
Proof.
  intros Hi Hj. unfold swap_list.
  rewrite !take_insert_lt by assumption.
  unfold elem. rewrite !nth_lookup, !lookup_take_lt by assumption. reflexivity.
Qed.

Lemma swap_closed_perm n (a0 : list Z) :
  swap_closed n (fun a => take n a ≡ₚ a0).
Proof.
  intros a i j Hi Hj Hil Hjl HQ. rewrite take_swap_list by assumption.
  rewrite swap_list_perm; [exact HQ| |]; rewrite length_take; lia.
Qed.

Lemma swap_closed_drop n (a0 : list Z) :
  swap_closed n (fun a => drop n a = a0).
Proof.
  intros a i j Hi Hj Hil Hjl HQ. rewrite drop_swap_list by assumption. exact HQ.
Qed.

Lemma swap_closed_length n (k : nat) :
  swap_closed n (fun a => length a = k).
Proof. intros a i j Hi Hj Hil Hjl HQ. rewrite length_swap_list. exact HQ. Qed.

Lemma swap_closed_True n : swap_closed n (fun _ => True).
Proof. intros a i j _ _ _ _ _. exact I. Qed.

(* ===================================================================== *)
(** * The sift loops of the heap engine *)

Section SiftDown.

(** The heap part of the statement is relative to a condition [H], so that
    the same lemma also gives termination and the frame on arrays that are
    not heaps. *)
Lemma sift_down_loop (H : Prop) n step (Q : list Z -> Prop) lo fuel v idx :
  sift_down_round (size v) n step ->
  vector_ok v -> (n <= N.to_nat (size v))%nat ->
  (N.to_nat idx < n)%nat -> (lo <= N.to_nat idx)%nat -> (n < fuel)%nat ->
  (H -> down_inv lo n (N.to_nat idx) (Elements v)) ->
  swap_closed n Q -> Q (Elements v) ->
  exists a,
    loop fuel step idx v = Ok tt (mkVector a (size v)) /\
    length a = length (Elements v) /\
    (H -> is_heap_from lo n a) /\ Q a.
Proof.
  intros Hstep Hok Hn Hidx Hlo Hfuel Hinv HQc HQ.
  destruct (loop_rule step
    (fun i s => size s = size v /\ length (Elements s) = length (Elements v) /\
                (N.to_nat i < n)%nat /\ (lo <= N.to_nat i)%nat /\
                (H -> down_inv lo n (N.to_nat i) (Elements s)) /\
                Q (Elements s))
    (fun _ s => size s = size v /\ length (Elements s) = length (Elements v) /\
                (H -> is_heap_from lo n (Elements s)) /\ Q (Elements s))
    (fun i _ => (n - N.to_nat i)%nat)) with (fuel := fuel) (v := idx) (s := v)
    as ([] & s' & Hrun & Hsz & Hlen & Hheap & HQ').
  - intros i s (Hsz & Hlen & Hi & Hloi & Hdi & HQs).
    assert (Hoks : vector_ok s).
    { destruct Hok. split; rewrite ?Hsz, ?Hlen; assumption. }
    assert (n <= length (Elements s))%nat
      by (destruct Hoks; rewrite Hsz in *; lia).
    destruct (Hstep s i Hoks Hsz Hi)
      as [[-> Hedge]|(c & -> & Hc & Hlt)].
    + split; [assumption|]. split; [assumption|]. split; [|assumption].
      intros HH. eapply down_inv_done; [apply Hdi, HH|eassumption].
    + simpl. rewrite length_swap_list.
      pose proof (larger_child_bounds _ _ _ _ Hc) as Hcn.
      split; [split; [assumption|]|lia]. split; [assumption|].
      split; [lia|]. split; [lia|]. split.
      * intros HH. apply down_inv_swap; auto.
      * apply HQc; try assumption; lia.
  - tauto.
  - lia.
  - exists (Elements s'). destruct s' as [a sz]. simpl in *. subst sz.
    tauto.
Qed.
End SiftDown.

Section Rounds.
Local Open Scope N_scope.

Lemma vector_ok_index (v : Vector) (idx : N) :
  vector_ok v -> (N.to_nat idx < N.to_nat (size v))%nat ->
  idx < 2 ^ 62 /\ size v < 2 ^ 62 /\
  (N.to_nat (size v) <= length (Elements v))%nat.
Proof. unfold vector_ok, max_array_length. lia. Qed.

Lemma HeapifyDown_round sz :
  sift_down_round sz (N.to_nat sz) HeapVec.HeapifyDown_step.
Proof.
  intros v idx Hok <- Hidx.
  destruct (vector_ok_index v idx Hok Hidx) as (Hi & Hs & Hlen).
  unfold HeapVec.HeapifyDown_step. run_step.
  rewrite GetLeftChild_nowrap, GetRightChild_nowrap by exact Hi.
  destruct (N.ltb_spec (2 * idx + 1) (size v)) as [Hl|Hl].
  2:{ left. split; [reflexivity|]. unfold edge_ok. lia. }
  assert (Hfin : forall c : N,
    (N.to_nat c < N.to_nat (size v))%nat ->
    ((elem (Elements v) (N.to_nat c) <= elem (Elements v) (N.to_nat idx))%Z ->
     edge_ok (N.to_nat (size v)) (Elements v) (N.to_nat idx)) ->
    larger_child (N.to_nat (size v)) (Elements v) (N.to_nat idx) (N.to_nat c) ->
    (x <- load idx ;; y <- load c ;;
     if (x >=? y)%Z then ret (inr tt)
     else swap idx c ;; ret (inl c)) v = Ok (inr tt) v /\
      edge_ok (N.to_nat (size v)) (Elements v) (N.to_nat idx) \/
    exists c' : N,
      (x <- load idx ;; y <- load c ;;
       if (x >=? y)%Z then ret (inr tt)
       else swap idx c ;; ret (inl c)) v =
      Ok (inl c')
         (mkVector (swap_list (N.to_nat idx) (N.to_nat c') (Elements v))
                   (size v)) /\
      larger_child (N.to_nat (size v)) (Elements v) (N.to_nat idx) (N.to_nat c') /\
      (elem (Elements v) (N.to_nat idx) < elem (Elements v) (N.to_nat c'))%Z).
  { intros c Hc Hedge Hlc. run_step.
    rewrite (load_Ok idx), (load_Ok c) by lia. rewrite Z.geb_leb.
    destruct (Z.leb_spec (elem (Elements v) (N.to_nat c))
                         (elem (Elements v) (N.to_nat idx))) as [Hle|Hgt].
    - left. split; [reflexivity|]. apply Hedge, Hle.
    - right. exists c. rewrite swap_Ok by lia. auto. }
  destruct (N.ltb_spec (2 * idx + 2) (size v)) as [Hr|Hr].
  - rewrite (load_Ok (2 * idx + 2)), (load_Ok (2 * idx + 1)) by lia.
    rewrite to_nat_left, to_nat_right. rewrite Z.gtb_ltb.
    destruct (Z.ltb_spec (elem (Elements v) (2 * N.to_nat idx + 1))
                         (elem (Elements v) (2 * N.to_nat idx + 2)))
      as [Hrl|Hrl].
    + apply (Hfin (2 * idx + 2)); rewrite ?to_nat_right;
        unfold edge_ok, larger_child; lia.
    + apply (Hfin (2 * idx + 1)); rewrite ?to_nat_left;
        unfold edge_ok, larger_child; lia.
  - apply (Hfin (2 * idx + 1)); rewrite ?to_nat_left;
      unfold edge_ok, larger_child; lia.
Qed.

Lemma Sort_sift_round sz heapSize :
  heapSize <= sz ->
  sift_down_round sz (N.to_nat heapSize) (HeapVec.Sort_sift_step heapSize).
Proof.
  intros Hh v idx Hok <- Hidx.
  destruct (vector_ok_index v idx Hok ltac:(lia)) as (Hi & Hs & Hlen).
  unfold HeapVec.Sort_sift_step. run_step.
  rewrite GetLeftChild_nowrap, GetRightChild_nowrap by exact Hi.
  assert (Hstop :
    edge_ok (N.to_nat heapSize) (Elements v) (N.to_nat idx) ->
    (if negb (idx =? idx) then
       swap idx idx ;; ret (inl idx)
     else ret (inr tt)) v = Ok (inr tt) v /\
    edge_ok (N.to_nat heapSize) (Elements v) (N.to_nat idx)).
  { intros He. rewrite N.eqb_refl. split; [reflexivity|exact He]. }
  assert (Hswap : forall c : N,
    larger_child (N.to_nat heapSize) (Elements v) (N.to_nat idx) (N.to_nat c) ->
    (elem (Elements v) (N.to_nat idx) < elem (Elements v) (N.to_nat c))%Z ->
    exists c' : N,
      (if negb (c =? idx) then
         swap idx c ;; ret (inl c)
       else ret (inr tt)) v =
      Ok (inl c')
         (mkVector (swap_list (N.to_nat idx) (N.to_nat c') (Elements v))
                   (size v)) /\
      larger_child (N.to_nat heapSize) (Elements v) (N.to_nat idx) (N.to_nat c') /\
      (elem (Elements v) (N.to_nat idx) < elem (Elements v) (N.to_nat c'))%Z).
  { intros c Hlc Hlt. exists c.
    pose proof (larger_child_bounds _ _ _ _ Hlc) as Hb.
    replace (c =? idx) with false by (symmetry; apply N.eqb_neq; lia).
    run_step. rewrite swap_Ok by lia. auto. }
  unfold bind, ret in Hstop, Hswap.
  destruct (N.ltb_spec (2 * idx + 1) heapSize) as [Hl|Hl];
    destruct (N.ltb_spec (2 * idx + 2) heapSize) as [Hr|Hr]; try lia.
  - rewrite (load_Ok (2 * idx + 1)), (load_Ok idx) by lia.
    rewrite to_nat_left, Z.gtb_ltb.
    destruct (Z.ltb_spec (elem (Elements v) (N.to_nat idx))
                         (elem (Elements v) (2 * N.to_nat idx + 1))) as [Hx|Hx].
    + rewrite (load_Ok (2 * idx + 2)), (load_Ok (2 * idx + 1)) by lia.
      rewrite to_nat_left, to_nat_right, Z.gtb_ltb.
      destruct (Z.ltb_spec (elem (Elements v) (2 * N.to_nat idx + 1))
                           (elem (Elements v) (2 * N.to_nat idx + 2)))
        as [Hy|Hy]; right; apply Hswap;
        rewrite ?to_nat_left, ?to_nat_right; unfold larger_child; lia.
    + rewrite (load_Ok (2 * idx + 2)), (load_Ok idx) by lia.
      rewrite to_nat_right, Z.gtb_ltb.
      destruct (Z.ltb_spec (elem (Elements v) (N.to_nat idx))
                           (elem (Elements v) (2 * N.to_nat idx + 2)))
        as [Hy|Hy].
      * right; apply Hswap; rewrite ?to_nat_right; unfold larger_child; lia.
      * left; apply Hstop; unfold edge_ok; lia.
  - rewrite (load_Ok (2 * idx + 1)), (load_Ok idx) by lia.
    rewrite to_nat_left, Z.gtb_ltb.
    destruct (Z.ltb_spec (elem (Elements v) (N.to_nat idx))
                         (elem (Elements v) (2 * N.to_nat idx + 1))) as [Hx|Hx].
    + right; apply Hswap; rewrite ?to_nat_left; unfold larger_child; lia.
    + left; apply Hstop; unfold edge_ok; lia.
  - left; apply Hstop; unfold edge_ok; lia.
Qed.
End Rounds.

Section HeapEngine.
Local Open Scope N_scope.

(** [HeapifyDown(idx)] repairs a heap that is broken only below [idx]. *)
Lemma HeapifyDown_spec (H : Prop) lo (Q : list Z -> Prop) v idx :
  vector_ok v -> idx < size v -> (lo <= N.to_nat idx)%nat ->
  (H -> down_inv lo (N.to_nat (size v)) (N.to_nat idx) (Elements v)) ->
  swap_closed (N.to_nat (size v)) Q -> Q (Elements v) ->
  exists a,
    HeapVec.HeapifyDown idx v = Ok tt (mkVector a (size v)) /\
    length a = length (Elements v) /\
    (H -> is_heap_from lo (N.to_nat (size v)) a) /\ Q a.
Proof.
  intros Hok Hidx Hlo Hinv HQc HQ. unfold HeapVec.HeapifyDown. run_step.
  apply sift_down_loop with (lo := lo); try assumption; try lia.
  apply HeapifyDown_round.
Qed.

(** [HeapifyUp(idx)] repairs a heap that is broken only above [idx]. *)
Lemma HeapifyUp_spec (H : Prop) n (Q : list Z -> Prop) v idx :
  vector_ok v -> (n <= N.to_nat (size v))%nat -> (N.to_nat idx < n)%nat ->
  (H -> up_inv n (N.to_nat idx) (Elements v)) ->
  swap_closed n Q -> Q (Elements v) ->
  exists a,
    HeapVec.HeapifyUp idx v = Ok tt (mkVector a (size v)) /\
    length a = length (Elements v) /\
    (H -> is_heap n a) /\ Q a.
Proof.
  intros Hok Hn Hidx Hinv HQc HQ. unfold HeapVec.HeapifyUp.
  destruct (loop_rule HeapVec.HeapifyUp_step
    (fun i s => size s = size v /\ length (Elements s) = length (Elements v) /\
                (N.to_nat i < n)%nat /\
                (H -> up_inv n (N.to_nat i) (Elements s)) /\ Q (Elements s))
    (fun _ s => size s = size v /\ length (Elements s) = length (Elements v) /\
                (H -> is_heap n (Elements s)) /\ Q (Elements s))
    (fun i _ => N.to_nat i)) with (fuel := S (N.to_nat idx)) (v := idx) (s := v)
    as ([] & s' & Hrun & Hsz & Hlen & Hheap & HQ').
  - intros i s (Hsz & Hlen & Hi & Hui & HQs).
    assert (Hoks : vector_ok s).
    { destruct Hok. split; rewrite ?Hsz, ?Hlen; assumption. }
    destruct (vector_ok_index s i Hoks ltac:(rewrite Hsz; lia))
      as (Hi62 & Hs62 & Hl).
    rewrite Hsz in Hl.
    unfold HeapVec.HeapifyUp_step. run_step.
    destruct (N.ltb_spec 0 i) as [Hpos|Hz].
    2:{ split; [assumption|]. split; [assumption|]. split; [|assumption].
        intros HH. eapply up_inv_done; [apply Hui, HH|]. left. lia. }
    rewrite GetParent_nowrap by lia.
    rewrite (load_Ok i), (load_Ok ((i - 1) / 2)) by lia.
    rewrite to_nat_parent, Z.gtb_ltb.
    destruct (Z.ltb_spec (elem (Elements s) ((N.to_nat i - 1) / 2))
                         (elem (Elements s) (N.to_nat i))) as [Hlt|Hge].
    + rewrite swap_Ok by lia. rewrite to_nat_parent. cbn [Elements size].
      rewrite length_swap_list.
      split; [|lia]. split; [assumption|]. split; [assumption|].
      split; [lia|]. split.
      * intros HH. apply up_inv_swap; auto; lia.
      * apply HQc; try assumption; lia.
    + split; [assumption|]. split; [assumption|]. split; [|assumption].
      intros HH. eapply up_inv_done; [apply Hui, HH|]. right. exact Hge.
  - tauto.
  - lia.
  - exists (Elements s'). destruct s' as [a sz]. simpl in *. subst sz. tauto.
Qed.

(** [IsHeap()] decides the heap invariant and leaves the vector alone. *)
Lemma IsHeap_spec v :
  vector_ok v ->
  exists b : bool,
    HeapVec.IsHeap v = Ok b v /\
    (b = true <-> is_heap (N.to_nat (size v)) (Elements v)).
Proof.
  intros Hok. unfold HeapVec.IsHeap. run_step.
  destruct (loop_rule HeapVec.IsHeap_step
    (fun i s => s = v /\ i <= size v /\
                forall p, (p < N.to_nat i)%nat ->
                          edge_ok (N.to_nat (size v)) (Elements v) p)
    (fun b s => s = v /\
                (b = true <-> is_heap (N.to_nat (size v)) (Elements v)))
    (fun i _ => N.to_nat (size v - i)))
    with (fuel := S (N.to_nat (size v))) (v := 0) (s := v)
    as (b & s' & Hrun & -> & Hb).
  - intros i s (-> & Hi & Hp).
    unfold HeapVec.IsHeap_step. run_step.
    destruct (N.ltb_spec i (size v)) as [Hlt|Hge].
    2:{ split; [reflexivity|]. split; [|reflexivity]. intros _ p _.
        destruct (decide (p < N.to_nat i)%nat); [auto|]. unfold edge_ok. lia. }
    destruct (vector_ok_index v i Hok ltac:(lia)) as (Hi62 & Hs62 & Hl).
    rewrite GetLeftChild_nowrap, GetRightChild_nowrap by exact Hi62.
    assert (Hbad : (~ edge_ok (N.to_nat (size v)) (Elements v) (N.to_nat i)) ->
                   false = true <-> is_heap (N.to_nat (size v)) (Elements v)).
    { intros Hne. split; [discriminate|]. intros Hh. exfalso. apply Hne, Hh. lia. }
    assert (Hnext : edge_ok (N.to_nat (size v)) (Elements v) (N.to_nat i) ->
      (v = v /\ ULong.add i 1 <= size v /\
       (forall p, (p < N.to_nat (ULong.add i 1))%nat ->
                  edge_ok (N.to_nat (size v)) (Elements v) p)) /\
      (N.to_nat (size v - ULong.add i 1) < N.to_nat (size v - i))%nat).
    { intros He. rewrite add_nowrap by lia. split; [|lia].
      split; [reflexivity|]. split; [lia|]. intros p Hlt'.
      destruct (decide (p = N.to_nat i)) as [->|]; [exact He|]. apply Hp. lia. }
    assert (Hright :
      (2 * i + 1 < size v ->
       (elem (Elements v) (2 * N.to_nat i + 1) <= elem (Elements v) (N.to_nat i))%Z) ->
      match
        (hr <- HeapVec.HasRightChild i ;;
         badr <- (if hr then
                    x <- load i ;; r <- load (2 * i + 2) ;; ret (x <? r)%Z
                  else ret false) ;;
         if badr then ret (inr false)
         else ret (inl (ULong.add i 1))) v
      with
      | Ok (inl v') s' =>
          (s' = v /\ v' <= size v /\
           (forall p, (p < N.to_nat v')%nat ->
                      edge_ok (N.to_nat (size v)) (Elements v) p)) /\
          (N.to_nat (size v - v') < N.to_nat (size v - i))%nat
      | Ok (inr a) s' =>
          s' = v /\ (a = true <-> is_heap (N.to_nat (size v)) (Elements v))
      | _ => False
      end).
    { intros Hleft. run_step.
      rewrite GetRightChild_nowrap by exact Hi62.
      destruct (N.ltb_spec (2 * i + 2) (size v)) as [Hr1|Hr1].
      - rewrite (load_Ok i), (load_Ok (2 * i + 2)) by lia. rewrite to_nat_right.
        destruct (Z.ltb_spec (elem (Elements v) (N.to_nat i))
                             (elem (Elements v) (2 * N.to_nat i + 2))) as [H2|H2].
        + split; [reflexivity|]. apply Hbad. unfold edge_ok. lia.
        + apply Hnext. unfold edge_ok. lia.
      - apply Hnext. unfold edge_ok. lia. }
    revert Hright. run_step.
    rewrite GetRightChild_nowrap by exact Hi62. intros Hright.
    destruct (N.ltb_spec (2 * i + 1) (size v)) as [Hl1|Hl1].
    + rewrite (load_Ok i), (load_Ok (2 * i + 1)) by lia. rewrite to_nat_left.
      destruct (Z.ltb_spec (elem (Elements v) (N.to_nat i))
                           (elem (Elements v) (2 * N.to_nat i + 1))) as [H1|H1].
      { split; [reflexivity|]. apply Hbad. unfold edge_ok. lia. }
      apply Hright. lia.
    + apply Hright. lia.
  - split; [reflexivity|]. split; [lia|]. intros p Hp. lia.
  - lia.
  - exists b. split; [exact Hrun|exact Hb].
Qed.

Lemma is_heap_small n a : (n <= 1)%nat -> is_heap n a.
Proof. intros Hn p _. unfold edge_ok. lia. Qed.

Lemma to_long_pred h : 1 <= h -> h < 2 ^ 63 ->
  ULong.to_long (ULong.sub h 1) = (Z.of_N h - 1)%Z.
Proof.
  intros H1 H2. rewrite sub_nowrap by lia.
  unfold ULong.to_long, ULong.wrap, ULong.modulus.
  destruct (Z.ltb_spec (Z.of_N ((h - 1) mod 2 ^ 64)) (2 ^ 63)); lia.
Qed.

(** [Heapify()] builds a heap out of any contents, by swaps only. *)
Lemma Heapify_spec (Q : list Z -> Prop) v :
  vector_ok v ->
  swap_closed (N.to_nat (size v)) Q -> Q (Elements v) ->
  exists a,
    HeapVec.Heapify v = Ok tt (mkVector a (size v)) /\
    length a = length (Elements v) /\
    is_heap (N.to_nat (size v)) a /\ Q a.
Proof.
  intros Hok HQc HQ. unfold HeapVec.Heapify. run_step.
  destruct (N.ltb_spec 1 (size v)) as [Hgt|Hle].
  2:{ exists (Elements v). destruct v as [a sz]. simpl in *.
      split; [reflexivity|]. split; [reflexivity|].
      split; [apply is_heap_small; lia|exact HQ]. }
  assert (Hs62 : size v < 2 ^ 62)
    by (destruct Hok; unfold max_array_length in *; lia).
  rewrite to_long_pred by lia.
  destruct (loop_rule HeapVec.Heapify_step
    (fun i s => size s = size v /\ length (Elements s) = length (Elements v) /\
                (-1 <= i < Z.of_N (size v / 2))%Z /\
                is_heap_from (Z.to_nat (i + 1)) (N.to_nat (size v)) (Elements s) /\
                Q (Elements s))
    (fun _ s => size s = size v /\ length (Elements s) = length (Elements v) /\
                is_heap (N.to_nat (size v)) (Elements s) /\ Q (Elements s))
    (fun i _ => Z.to_nat (i + 1)))
    with (fuel := S (N.to_nat (size v / 2)))
         (v := (Z.of_N (size v / 2) - 1)%Z) (s := v)
    as ([] & s' & Hrun & Hsz & Hlen & Hheap & HQ').
  - intros i s (Hsz & Hlen & Hi & Hh & HQs).
    assert (Hoks : vector_ok s).
    { destruct Hok. split; rewrite ?Hsz, ?Hlen; assumption. }
    unfold HeapVec.Heapify_step. rewrite Z.geb_leb.
    destruct (Z.leb_spec 0 i) as [Hpos|Hneg].
    + run_step.
      destruct (HeapifyDown_spec True (Z.to_nat i) Q s (Z.to_N i))
        as (a & -> & Hla & Hha & HQa); try assumption; try lia.
      * intros _. rewrite Hsz.
        replace (N.to_nat (Z.to_N i)) with (Z.to_nat i) by lia.
        apply is_heap_from_down_inv.
        replace (S (Z.to_nat i)) with (Z.to_nat (i + 1)) by lia. exact Hh.
      * rewrite Hsz. exact HQc.
      * cbn [Elements size]. rewrite Hsz in Hha. specialize (Hha I).
        replace (i - 1 + 1)%Z with i by lia.
        split; [|lia]. split; [assumption|]. split; [lia|].
        split; [lia|]. split; assumption.
    + run_step. split; [assumption|]. split; [assumption|].
      split; [|assumption]. replace (Z.to_nat (i + 1)) with 0%nat in Hh by lia.
      exact Hh.
  - split; [reflexivity|]. split; [reflexivity|]. split; [lia|].
    split; [|exact HQ]. intros p Hp. unfold edge_ok. lia.
  - lia.
  - exists (Elements s'). destruct s' as [a sz]. simpl in *. subst sz. tauto.
Qed.

Lemma swap_closed_tail n (a0 : list Z) :
  swap_closed n (fun a => forall k, (n <= k)%nat -> elem a k = elem a0 k).
Proof.
  intros a i j Hi Hj Hil Hjl HQ k Hk.
  pose proof (elem_swap_list i j a k Hil Hjl). rewrite <- HQ by exact Hk. lia.
Qed.

Lemma swap_closed_bounded n (m : Z) :
  swap_closed n (fun a => forall k, (k < n)%nat -> (elem a k <= m)%Z).
Proof.
  intros a i j Hi Hj Hil Hjl HQ k Hk.
  pose proof (elem_swap_list i j a k Hil Hjl).
  pose proof (HQ i Hi). pose proof (HQ j Hj). pose proof (HQ k Hk). lia.
Qed.

(** [Sort()] is heap-sort: it permutes the live elements into
    non-decreasing order. *)
Lemma Sort_spec v :
  vector_ok v ->
  exists a,
    HeapVec.Sort v = Ok tt (mkVector a (size v)) /\
    length a = length (Elements v) /\
    take (N.to_nat (size v)) a ≡ₚ take (N.to_nat (size v)) (Elements v) /\
    drop (N.to_nat (size v)) a = drop (N.to_nat (size v)) (Elements v) /\
    sorted_upto (N.to_nat (size v)) a.
Proof.
  intros Hok. unfold HeapVec.Sort. run_step.
  set (n := N.to_nat (size v)).
  set (Q := fun a : list Z =>
              take n a ≡ₚ take n (Elements v) /\
              drop n a = drop n (Elements v)).
  assert (HQc : swap_closed n Q).
  { apply swap_closed_and; [apply swap_closed_perm|apply swap_closed_drop]. }
  destruct (N.ltb_spec 1 (size v)) as [Hgt|Hle].
  2:{ exists (Elements v). destruct v as [a sz]. simpl in *.
      split; [reflexivity|]. split; [reflexivity|]. split; [reflexivity|].
      split; [reflexivity|]. intros j k Hjk Hk.
      assert (j = k) as -> by lia. lia. }
  assert (Hs62 : size v < 2 ^ 62)
    by (destruct Hok; unfold max_array_length in *; lia).
  destruct (Heapify_spec Q v Hok HQc) as (a0 & -> & Hl0 & Hh0 & HQ0).
  { split; reflexivity. }
  fold n in Hh0.
  destruct (loop_rule HeapVec.Sort_step
    (fun i s => size s = size v /\ length (Elements s) = length (Elements v) /\
                (N.to_nat i < n)%nat /\
                is_heap (S (N.to_nat i)) (Elements s) /\
                (forall j k, (N.to_nat i < j)%nat -> (j <= k)%nat -> (k < n)%nat ->
                             (elem (Elements s) j <= elem (Elements s) k)%Z) /\
                (forall j k, (j <= N.to_nat i)%nat -> (N.to_nat i < k)%nat ->
                             (k < n)%nat ->
                             (elem (Elements s) j <= elem (Elements s) k)%Z) /\
                Q (Elements s))
    (fun _ s => size s = size v /\ length (Elements s) = length (Elements v) /\
                sorted_upto n (Elements s) /\ Q (Elements s))
    (fun i _ => N.to_nat i))
    with (fuel := S (N.to_nat (size v))) (v := ULong.sub (size v) 1)
         (s := mkVector a0 (size v))
    as ([] & s' & Hrun & Hsz & Hlen & Hsorted & HQ').
  - intros i s (Hsz & Hlen & Hi & Hh & Hsuf & Hpre & HQs).
    assert (Hoks : vector_ok s).
    { destruct Hok. split; rewrite ?Hsz, ?Hlen; assumption. }
    destruct (vector_ok_index s i Hoks ltac:(rewrite Hsz; lia))
      as (Hi62 & _ & Hl).
    rewrite Hsz in Hl. fold n in Hl.
    unfold HeapVec.Sort_step. run_step.
    destruct (N.ltb_spec 0 i) as [Hpos|Hz].
    2:{ split; [assumption|]. split; [assumption|]. split; [|assumption].
        intros j k Hjk Hk. destruct (decide (j = k)) as [->|]; [lia|].
        destruct (decide (j = 0)%nat) as [->|].
        - apply Hpre; lia.
        - apply Hsuf; lia. }
    rewrite swap_Ok by (simpl; lia). change (N.to_nat 0) with 0%nat.
    set (a1 := swap_list 0 (N.to_nat i) (Elements s)).
    assert (Hsw : forall k,
              (k = N.to_nat i /\ elem a1 k = elem (Elements s) 0%nat) \/
              (k <> N.to_nat i /\ k = 0%nat /\
               elem a1 k = elem (Elements s) (N.to_nat i)) \/
              (k <> N.to_nat i /\ k <> 0%nat /\ elem a1 k = elem (Elements s) k)).
    { intros k. apply elem_swap_list; lia. }
    pose proof (is_heap_root_max _ _ Hh) as Hmax.
    set (Q' := fun a : list Z =>
                 (forall k, (N.to_nat i <= k)%nat -> elem a k = elem a1 k) /\
                 (forall k, (k < N.to_nat i)%nat ->
                            (elem a k <= elem (Elements s) 0%nat)%Z) /\ Q a).
    destruct (sift_down_loop True (N.to_nat i) (HeapVec.Sort_sift_step i) Q' 0%nat
                (S (N.to_nat i)) (mkVector a1 (size s)) 0)
      as (a2 & -> & Hl2 & Hh2 & Htail & Hbnd & HQ2).
    + apply Sort_sift_round. simpl. lia.
    + destruct Hoks. split; simpl; unfold a1; rewrite ?length_swap_list;
        assumption.
    + simpl. lia.
    + lia.
    + lia.
    + lia.
    + intros _. simpl. change (N.to_nat 0) with 0%nat. split.
      * intros p _ Hp0. pose proof (Hh p ltac:(lia)) as Hpe.
        pose proof (Hsw p). pose proof (Hsw (2 * p + 1)%nat).
        pose proof (Hsw (2 * p + 2)%nat). unfold edge_ok in *. lia.
      * intros p _ Hc. lia.
    + apply swap_closed_and; [apply swap_closed_tail|].
      apply swap_closed_and; [apply swap_closed_bounded|].
      eapply swap_closed_weaken; [|exact HQc]. lia.
    + simpl. split; [reflexivity|]. split.
      * intros k Hk. pose proof (Hsw k). pose proof (Hmax k ltac:(lia)).
        pose proof (Hmax (N.to_nat i) ltac:(lia)). lia.
      * apply HQc; try assumption; lia.
    + cbn [Elements size]. rewrite sub_nowrap by lia.
      unfold a1 in Hl2. simpl in Hl2. rewrite length_swap_list in Hl2.
      split; [|lia]. split; [assumption|]. split; [lia|]. split; [lia|].
      replace (S (N.to_nat (i - 1))) with (N.to_nat i) by lia.
      split; [exact (Hh2 I)|]. split; [|split; [|exact HQ2]].
      * intros j k Hj Hjk Hk.
        rewrite (Htail j), (Htail k) by lia.
        pose proof (Hsw j). pose proof (Hsw k).
        destruct (decide (j = k)) as [->|]; [lia|].
        destruct (decide (j = N.to_nat i)) as [->|].
        -- pose proof (Hpre 0%nat k ltac:(lia) ltac:(lia) ltac:(lia)). lia.
        -- pose proof (Hsuf j k ltac:(lia) ltac:(lia) ltac:(lia)). lia.
      * intros j k Hj Hjk Hk.
        rewrite (Htail k) by lia. pose proof (Hbnd j ltac:(lia)).
        pose proof (Hsw k).
        destruct (decide (k = N.to_nat i)) as [->|]; [lia|].
        pose proof (Hpre 0%nat k ltac:(lia) ltac:(lia) ltac:(lia)). lia.
  - simpl. rewrite sub_nowrap by lia.
    split; [reflexivity|]. split; [assumption|]. split; [lia|].
    replace (S (N.to_nat (size v - 1))) with n by lia.
    split; [exact Hh0|]. split; [intros; lia|]. split; [intros; lia|exact HQ0].
  - rewrite sub_nowrap by lia. lia.
  - exists (Elements s'). destruct s' as [a sz]. simpl in *. subst sz.
    destruct HQ' as [HP HD]. tauto.
Qed.
End HeapEngine.

(* ===================================================================== *)
(** * Capacity management of the priority queue *)

Lemma valid_vector_ok pq : valid pq -> vector_ok pq.
Proof. unfold valid, vector_ok. lia. Qed.

Section Capacity.
Local Open Scope N_scope.

(** The element-moving loop of [EnsureCapacity] and [ShrinkCapacity] copies
    the live elements to the front of the new array. *)
Lemma move_loop_spec (v : Vector) (c : nat) :
  vector_ok v -> (N.to_nat (size v) <= c)%nat ->
  loop (S (N.to_nat (size v))) PQ.move_step (0, replicate c 0%Z) v =
  Ok (take (N.to_nat (size v)) (Elements v)
      ++ replicate (c - N.to_nat (size v)) 0%Z) v.
Proof.
  intros Hok Hc.
  destruct (loop_rule PQ.move_step
    (fun st s => s = v /\ fst st <= size v /\
                 snd st = take (N.to_nat (fst st)) (Elements v)
                          ++ replicate (c - N.to_nat (fst st)) 0%Z)
    (fun a s => s = v /\
                a = take (N.to_nat (size v)) (Elements v)
                    ++ replicate (c - N.to_nat (size v)) 0%Z)
    (fun st _ => N.to_nat (size v - fst st)))
    with (fuel := S (N.to_nat (size v))) (v := (0, replicate c 0%Z)) (s := v)
    as (a & s' & Hrun & -> & ->); [| | |exact Hrun].
  - intros [i a] s (-> & Hi & Ha). simpl in Hi, Ha.
    unfold PQ.move_step. run_step.
    destruct (N.ltb_spec i (size v)) as [Hlt|Hge].
    2:{ split; [reflexivity|]. assert (i = size v) as -> by lia. exact Ha. }
    destruct (vector_ok_index v i Hok ltac:(lia)) as (Hi62 & Hs62 & Hl).
    rewrite load_Ok by lia.
    assert (Hla : length a = c).
    { rewrite Ha, length_app, length_take, length_replicate. lia. }
    rewrite wr_Some by lia. run_step. simpl fst. simpl snd.
    rewrite add_nowrap by lia.
    split; [|lia]. split; [reflexivity|]. split; [lia|].
    rewrite Ha. rewrite insert_app_r_alt by (rewrite length_take; lia).
    rewrite length_take.
    replace (N.to_nat i `min` length (Elements v))%nat with (N.to_nat i) by lia.
    replace (N.to_nat i - N.to_nat i)%nat with 0%nat by lia.
    replace (c - N.to_nat i)%nat with (S (c - N.to_nat (i + 1))) by lia.
    replace (N.to_nat (i + 1)) with (S (N.to_nat i)) by lia.
    rewrite (take_S_r _ _ (elem (Elements v) (N.to_nat i)))
      by (apply lookup_elem; lia).
    simpl. rewrite <- app_assoc. reflexivity.
  - simpl. split; [reflexivity|]. split; [lia|].
    rewrite Nat.sub_0_r. reflexivity.
  - simpl. lia.
Qed.

(** Once the doubled value has wrapped to 0 the loop cannot stop. *)
Lemma grow_loop_stuck (pq : PQHeap) (minCapacity : N) (fuel : nat) :
  0 < minCapacity ->
  loop fuel (PQ.grow_step minCapacity) 0 pq = Diverge.
Proof.
  intros Hmin. induction fuel as [|fuel IH]; [reflexivity|].
  simpl. unfold bind, PQ.grow_step.
  destruct (N.ltb_spec 0 minCapacity); [|lia]. exact IH.
Qed.

Lemma grow_loop_spec (pq : PQHeap) (c0 minCapacity : N) :
  1 <= c0 -> c0 < 2 ^ 64 -> minCapacity <= 2 ^ 63 ->
  exists newCapacity,
    loop 65 (PQ.grow_step minCapacity) c0 pq = Ok newCapacity pq /\
    first_doubling c0 minCapacity newCapacity /\
    (c0 < minCapacity -> newCapacity < 2 * minCapacity).
Proof.
  intros H1 H64 Hmin.
  destruct (loop_rule (PQ.grow_step minCapacity)
    (fun c s => s = pq /\ c < 2 ^ 64 /\
                (c0 < minCapacity -> c < 2 * minCapacity) /\
                exists k, c = c0 * 2 ^ k /\
                          forall j, j < k -> c0 * 2 ^ j < minCapacity)
    (fun c s => s = pq /\ first_doubling c0 minCapacity c /\
                (c0 < minCapacity -> c < 2 * minCapacity))
    (fun c _ => N.to_nat (64 - N.log2 c)))
    with (fuel := 65%nat) (v := c0) (s := pq)
    as (c & s' & Hrun & -> & Hfd & Hlt).
  - intros c s (-> & Hc64 & Hc2 & k & Hk & Hprev).
    unfold PQ.grow_step. run_step.
    destruct (N.ltb_spec c minCapacity) as [Hlt|Hge].
    + assert (Hcpos : 0 < c).
      { subst c. pose proof (N.pow_nonzero 2 k ltac:(lia)). nia. }
      rewrite mul_nowrap by lia.
      split.
      * split; [reflexivity|]. split; [lia|]. split; [lia|].
        exists (k + 1). split.
        -- rewrite N.pow_add_r. subst c. change (2 ^ 1) with 2. lia.
        -- intros j Hj. destruct (N.eq_dec j k) as [->|Hne].
           ++ rewrite <- Hk. exact Hlt.
           ++ apply Hprev. lia.
      * replace (c * 2) with (2 * c) by lia.
        rewrite N.log2_double by lia.
        assert (N.log2 c < 64).
        { apply N.log2_lt_pow2; [lia|]. exact Hc64. }
        lia.
    + split; [reflexivity|]. split; [|exact Hc2].
      exists k. split; [exact Hk|]. split; [lia|exact Hprev].
  - split; [reflexivity|]. split; [exact H64|]. split; [lia|].
    exists 0. split; [simpl; lia|]. intros j Hj. lia.
  - assert (N.log2 c0 < 64) by (apply N.log2_lt_pow2; lia). lia.
  - exists c. auto.
Qed.

Lemma relocate_run (pq : PQHeap) (newCapacity : N) :
  vector_ok pq -> size pq <= newCapacity ->
  (newElements <- alloc newCapacity ;;
   sz <- gets (fun pq : PQHeap => size pq) ;;
   newElements <- lift (loop (S (N.to_nat sz)) PQ.move_step (0, newElements)) ;;
   set_Elements newElements ;;
   set_capacity newCapacity) pq =
  if newCapacity <=? max_array_length
  then Ok tt (relocated pq newCapacity)
  else Throw bad_alloc pq.
Proof.
  intros Hok Hsz. unfold alloc. run_step.
  destruct (N.leb_spec newCapacity max_array_length) as [Hle|Hgt];
    [|reflexivity].
  run_step.
  rewrite (lift_Ok _ pq _ _ (move_loop_spec pq (N.to_nat newCapacity) Hok
                               ltac:(lia))).
  reflexivity.
Qed.

Lemma relocate_run_sized (pq : PQHeap) (newCapacity : N) :
  vector_ok pq -> size pq <= newCapacity ->
  (newElements <- alloc newCapacity ;;
   newElements <-
     lift (loop (S (N.to_nat (size pq))) PQ.move_step (0, newElements)) ;;
   set_Elements newElements ;;
   set_capacity newCapacity) pq =
  if newCapacity <=? max_array_length
  then Ok tt (relocated pq newCapacity)
  else Throw bad_alloc pq.
Proof.
  intros Hok Hsz. unfold alloc. run_step.
  destruct (N.leb_spec newCapacity max_array_length) as [Hle|Hgt];
    [|reflexivity].
  run_step.
  rewrite (lift_Ok _ pq _ _ (move_loop_spec pq (N.to_nat newCapacity) Hok
                               ltac:(lia))).
  reflexivity.
Qed.

Lemma EnsureCapacity_noop (pq : PQHeap) (minCapacity : N) :
  minCapacity <= capacity pq -> PQ.EnsureCapacity minCapacity pq = Ok tt pq.
Proof.
  intros H. unfold PQ.EnsureCapacity. run_step.
  destruct (N.ltb_spec (capacity pq) minCapacity); [lia|reflexivity].
Qed.

Lemma EnsureCapacity_grow (pq : PQHeap) (minCapacity : N) :
  vector_ok pq -> size pq <= minCapacity ->
  capacity pq < minCapacity -> minCapacity <= 2 ^ 63 ->
  exists newCapacity,
    first_doubling (N.max (capacity pq) 1) minCapacity newCapacity /\
    newCapacity < 2 * minCapacity /\
    PQ.EnsureCapacity minCapacity pq =
    if newCapacity <=? max_array_length
    then Ok tt (relocated pq newCapacity)
    else Throw bad_alloc pq.
Proof.
  intros Hok Hsz Hcap Hmin. unfold PQ.EnsureCapacity.
  unfold bind at 1. unfold gets at 1.
  destruct (N.ltb_spec (capacity pq) minCapacity) as [_|]; [|lia].
  destruct (grow_loop_spec pq (N.max (capacity pq) 1) minCapacity)
    as (newCapacity & Hrun & Hfd & Hlt); try lia.
  exists newCapacity. split; [exact Hfd|].
  assert (Hlt' : newCapacity < 2 * minCapacity).
  { destruct (N.ltb_spec (N.max (capacity pq) 1) minCapacity) as [Hl|Hg];
      [apply Hlt, Hl|].
    destruct Hfd as (k & Hk & Hge & Hprev).
    destruct (N.eq_dec k 0) as [->|Hk0].
    - rewrite Hk. simpl. lia.
    - specialize (Hprev 0 ltac:(lia)). simpl in Hprev. lia. }
  split; [exact Hlt'|].
  replace (if capacity pq =? 0 then 1 else capacity pq)
    with (N.max (capacity pq) 1)
    by (destruct (N.eqb_spec (capacity pq) 0); lia).
  unfold bind at 1. rewrite Hrun.
  apply relocate_run; [exact Hok|].
  destruct Hfd as (k & _ & Hge & _). lia.
Qed.

Lemma ShrinkCapacity_noop (pq : PQHeap) :
  ~ (4 < capacity pq /\ size pq <= capacity pq / 4) ->
  PQ.ShrinkCapacity pq = Ok tt pq.
Proof.
  intros H. unfold PQ.ShrinkCapacity. run_step.
  destruct (N.ltb_spec 4 (capacity pq));
    destruct (N.leb_spec (size pq) (capacity pq / 4));
    try reflexivity. exfalso. apply H. split; assumption.
Qed.

Lemma ShrinkCapacity_shrink (pq : PQHeap) :
  vector_ok pq -> capacity pq / 2 <= max_array_length ->
  4 < capacity pq -> size pq <= capacity pq / 4 ->
  PQ.ShrinkCapacity pq =
  Ok tt (relocated pq (N.max (capacity pq / 2) (size pq))).
Proof.
  intros Hok Hmax H4 Hq. unfold PQ.ShrinkCapacity.
  unfold bind at 1. unfold gets at 1. unfold bind at 1. unfold gets at 1.
  destruct (N.ltb_spec 4 (capacity pq)); [|lia].
  destruct (N.leb_spec (size pq) (capacity pq / 4)); [|lia].
  cbn [andb].
  replace (if capacity pq / 2 <? size pq then size pq else capacity pq / 2)
    with (N.max (capacity pq / 2) (size pq))
    by (destruct (N.ltb_spec (capacity pq / 2) (size pq)); lia).
  rewrite relocate_run_sized by (try assumption; lia).
  destruct (N.leb_spec (N.max (capacity pq / 2) (size pq)) max_array_length);
    [reflexivity|lia].
Qed.

Lemma relocated_valid (pq : PQHeap) (newCapacity : N) :
  vector_ok pq -> size pq <= newCapacity ->
  newCapacity <= max_array_length ->
  valid (relocated pq newCapacity).
Proof.
  intros [Hl Hm] Hsz Hmax. unfold valid, relocated. simpl.
  rewrite length_app, length_take, length_replicate. lia.
Qed.

Lemma relocated_elem (pq : PQHeap) (newCapacity : N) i :
  vector_ok pq -> (i < N.to_nat (size pq))%nat ->
  elem (Elements (relocated pq newCapacity)) i = elem (Elements pq) i.
Proof.
  intros [Hl Hm] Hi. unfold relocated, elem. simpl.
  rewrite !nth_lookup, lookup_app_l by (rewrite length_take; lia).
  rewrite lookup_take_lt by exact Hi. reflexivity.
Qed.

Lemma relocated_take (pq : PQHeap) (newCapacity : N) :
  vector_ok pq ->
  take (N.to_nat (size pq)) (Elements (relocated pq newCapacity)) =
  take (N.to_nat (size pq)) (Elements pq).
Proof.
  intros [Hl Hm]. unfold relocated. simpl.
  rewrite take_app_le by (rewrite length_take; lia).
  rewrite take_take. f_equal. lia.
Qed.

(** The outcome of [ShrinkCapacity] on a valid queue: same live elements,
    same size, still valid. *)
Lemma ShrinkCapacity_valid (pq : PQHeap) :
  valid pq ->
  exists pq',
    PQ.ShrinkCapacity pq = Ok tt pq' /\ valid pq' /\ size pq' = size pq /\
    take (N.to_nat (size pq)) (Elements pq') =
    take (N.to_nat (size pq)) (Elements pq) /\
    (forall i, (i < N.to_nat (size pq))%nat ->
               elem (Elements pq') i = elem (Elements pq) i).
Proof.
  intros Hv. pose proof (valid_vector_ok pq Hv) as Hok.
  destruct (decide (4 < capacity pq /\ size pq <= capacity pq / 4))
    as [[H4 Hq]|Hno].
  - exists (relocated pq (N.max (capacity pq / 2) (size pq))).
    destruct Hv as (Hsc & Hcl & Hm).
    split; [apply ShrinkCapacity_shrink; try assumption; lia|].
    split; [apply relocated_valid; try assumption; lia|].
    split; [reflexivity|].
    split; [apply relocated_take; assumption|].
    intros i Hi. apply relocated_elem; assumption.
  - exists pq. split; [apply ShrinkCapacity_noop; exact Hno|]. auto.
Qed.
End Capacity.

(* ===================================================================== *)
(** * How single writes break the heap *)

(** Rewrites the reads of an updated array and splits on the indices. *)
Ltac elem_cases :=
  rewrite ?elem_insert by lia; repeat case_decide; subst; try lia.

Section HeapWrites.

(** A new last element only breaks the edge to its parent. *)
Lemma up_inv_store_end n a x :
  is_heap n a -> n < length a -> up_inv (S n) n (<[n := x]> a).
Proof.
  intros H Hn. split.
  - intros p. pose proof (H p ltac:(lia)) as Hp. unfold edge_ok in Hp.
    split; intros; elem_cases.
  - intros p Hc. lia.
Qed.

(** A new root only breaks the edges to its children. *)
Lemma down_inv_store_root n a x :
  is_heap (S n) a -> 0 < length a -> down_inv 0 n 0 (<[0 := x]> a).
Proof.
  intros H Hn. split.
  - intros p _ Hp0. pose proof (H p ltac:(lia)) as Hp. unfold edge_ok in *.
    split; intros; elem_cases.
  - intros p _ Hc. lia.
Qed.

(** Raising the value at [i] only breaks the edge to its parent. *)
Lemma up_inv_raise n a i x :
  is_heap n a -> i < n -> n <= length a -> (elem a i <= x)%Z ->
  up_inv n i (<[i := x]> a).
Proof.
  intros H Hi Hn Hx. split.
  - intros p. pose proof (H p ltac:(lia)) as Hp. unfold edge_ok in Hp.
    split; intros; elem_cases.
  - intros p Hc. pose proof (H p ltac:(lia)) as Hp.
    pose proof (H i ltac:(lia)) as Hie. unfold edge_ok in *.
    split; intros; destruct Hc; elem_cases.
Qed.

(** Lowering the value at [i] only breaks the edges to its children. *)
Lemma down_inv_lower n a i x :
  is_heap n a -> i < n -> n <= length a -> (x <= elem a i)%Z ->
  down_inv 0 n i (<[i := x]> a).
Proof.
  intros H Hi Hn Hx. split.
  - intros p _ Hpi. pose proof (H p ltac:(lia)) as Hp. unfold edge_ok in *.
    split; intros; elem_cases.
  - intros p _ Hc. pose proof (H p ltac:(lia)) as Hp.
    pose proof (H i ltac:(lia)) as Hie. unfold edge_ok in *.
    split; intros; destruct Hc; elem_cases.
Qed.

(** Writing back the value already there changes nothing. *)
Lemma is_heap_store_same n a i :
  is_heap n a -> i < length a -> is_heap n (<[i := elem a i]> a).
Proof.
  intros H Hi. eapply is_heap_from_ext; [|exact H].
  intros k _. rewrite elem_insert by lia. case_decide; subst; reflexivity.
Qed.
End HeapWrites.

(* ===================================================================== *)
(** * The operations of the priority queue *)

Lemma bind_Ok {St A B} (m : M St A) (k : A -> M St B) s a s' :
  m s = Ok a s' -> bind m k s = k a s'.
Proof. unfold bind. intros ->. reflexivity. Qed.

Lemma bind_Throw {St A B} (m : M St A) (k : A -> M St B) s e s' :
  m s = Throw e s' -> bind m k s = Throw e s'.
Proof. unfold bind. intros ->. reflexivity. Qed.

Section Operations.
Local Open Scope N_scope.

Lemma valid_size_bound (pq : PQHeap) : valid pq -> size pq < 2 ^ 62.
Proof. unfold valid, max_array_length. lia. Qed.

Lemma relocated_heap_ok (pq : PQHeap) newCapacity :
  vector_ok pq -> heap_ok pq -> heap_ok (relocated pq newCapacity).
Proof.
  intros Hok H. unfold heap_ok.
  eapply is_heap_from_ext; [|exact H].
  intros i Hi. apply relocated_elem; assumption.
Qed.

(** [Insert] after its call to [EnsureCapacity]. *)
Lemma Insert_tail x (pq : PQHeap) :
  valid pq -> size pq < capacity pq ->
  exists pq',
    (lift (store (size pq) x) ;;
     set_size (size pq + 1) ;;
     lift (HeapVec.HeapifyUp (ULong.sub (size pq + 1) 1))) pq = Ok tt pq' /\
    valid pq' /\ size pq' = size pq + 1 /\ capacity pq' = capacity pq /\
    live pq' ≡ₚ x :: live pq /\
    (heap_ok pq -> heap_ok pq').
Proof.
  intros Hv Hcap. pose proof (valid_size_bound pq Hv) as Hs62.
  destruct Hv as (Hsc & Hcl & Hm).
  rewrite sub_nowrap by lia. replace (size pq + 1 - 1) with (size pq) by lia.
  rewrite (bind_Ok _ _ _ _ _ (lift_Ok _ pq _ _ (store_Ok (size pq) x pq ltac:(lia)))).
  run_step. cbn [heap Elements size capacity].
  set (a1 := <[N.to_nat (size pq) := x]> (Elements pq)).
  destruct (HeapifyUp_spec (heap_ok pq) (N.to_nat (size pq + 1))
              (fun a => take (N.to_nat (size pq + 1)) a ≡ₚ x :: live pq)
              (mkVector a1 (size pq + 1)) (size pq))
    as (a2 & Hrun & Hl2 & Hh2 & HQ2).
  - split; simpl; unfold a1; rewrite length_insert; lia.
  - simpl. lia.
  - lia.
  - intros Hh. simpl. unfold a1.
    replace (N.to_nat (size pq + 1)) with (S (N.to_nat (size pq))) by lia.
    apply up_inv_store_end; [exact Hh|lia].
  - apply swap_closed_perm.
  - simpl. unfold a1, live.
    replace (N.to_nat (size pq + 1)) with (S (N.to_nat (size pq))) by lia.
    rewrite (take_S_r _ _ x) by (apply list_lookup_insert_eq; lia).
    rewrite take_insert_ge by lia.
    symmetry. apply Permutation_cons_append.
  - exists (mkPQHeap (mkVector a2 (size pq + 1)) (capacity pq)).
    split.
    { unfold lift at 1. cbn [heap]. rewrite Hrun. reflexivity. }
    simpl in Hl2. unfold a1 in Hl2. rewrite length_insert in Hl2.
    split; [unfold valid; simpl; lia|].
    split; [reflexivity|]. split; [reflexivity|].
    split; [exact HQ2|exact Hh2].
Qed.

(** Outcome of [Insert] on a valid queue. *)
Lemma Insert_spec x (pq : PQHeap) :
  valid pq ->
  match PQ.Insert x pq with
  | Ok _ pq' =>
      valid pq' /\ size pq' = size pq + 1 /\
      live pq' ≡ₚ x :: live pq /\ (heap_ok pq -> heap_ok pq')
  | Throw e pq' => e = bad_alloc /\ pq' = pq /\ 2 ^ 61 < size pq + 1
  | _ => False
  end.
Proof.
  intros Hv. pose proof (valid_size_bound pq Hv) as Hs62.
  pose proof (valid_vector_ok pq Hv) as Hok.
  unfold PQ.Insert. unfold bind at 1. unfold gets at 1.
  rewrite add_nowrap by lia.
  destruct (N.le_gt_cases (size pq + 1) (capacity pq)) as [Hle|Hgt].
  - rewrite (bind_Ok _ _ _ _ _ (EnsureCapacity_noop pq _ Hle)).
    destruct (Insert_tail x pq Hv ltac:(lia))
      as (pq' & -> & Hv' & Hs' & _ & Hp' & Hh'). auto.
  - destruct (EnsureCapacity_grow pq (size pq + 1) Hok ltac:(lia) Hgt
                ltac:(lia)) as (newCapacity & Hfd & Hlt & Hrun).
    destruct (N.leb_spec newCapacity max_array_length) as [Hfit|Hbig].
    + rewrite (bind_Ok _ _ _ _ _ Hrun).
      destruct Hfd as (k & _ & Hge & _).
      assert (Hv1 : valid (relocated pq newCapacity))
        by (apply relocated_valid; try assumption; lia).
      destruct (Insert_tail x (relocated pq newCapacity) Hv1
                  ltac:(simpl; lia))
        as (pq' & Hrun' & Hv' & Hs' & _ & Hp' & Hh').
      change (size (relocated pq newCapacity)) with (size pq) in Hrun'.
      rewrite Hrun'. split; [exact Hv'|]. split; [exact Hs'|]. split.
      * rewrite Hp'. unfold live at 1.
        change (size (relocated pq newCapacity)) with (size pq).
        rewrite relocated_take by exact Hok. reflexivity.
      * intros Hh. apply Hh', relocated_heap_ok; assumption.
    + rewrite (bind_Throw _ _ _ _ _ Hrun).
      unfold max_array_length in Hbig. split; [reflexivity|].
      split; [reflexivity|]. lia.
Qed.

Lemma remove_root_perm (a : list Z) (n : nat) :
  (2 <= n)%nat -> (n <= length a)%nat ->
  elem a 0 :: take (n - 1) (<[0%nat := elem a (n - 1)]> a) ≡ₚ take n a.
Proof.
  intros Hn Hl. destruct n as [|[|m]]; try lia.
  replace (S (S m) - 1)%nat with (S m) by lia.
  rewrite (take_S_r a (S m) (elem a (S m))) by (apply lookup_elem; lia).
  destruct a as [|e0 rest]; [simpl in Hl; lia|].
  simpl. unfold elem at 1. simpl.
  rewrite (Permutation_cons_append (take m rest)). reflexivity.
Qed.

(** Outcome of [RemoveTip] on a valid queue. *)
Lemma RemoveTip_spec (pq : PQHeap) :
  valid pq ->
  match PQ.RemoveTip pq with
  | Ok _ pq' =>
      size pq <> 0 /\ valid pq' /\ size pq' = size pq - 1 /\
      elem (Elements pq) 0 :: live pq' ≡ₚ live pq /\
      (heap_ok pq -> heap_ok pq')
  | Throw e pq' => size pq = 0 /\ e = EmptyCollection /\ pq' = pq
  | _ => False
  end.
Proof.
  intros Hv. pose proof (valid_size_bound pq Hv) as Hs62.
  pose proof Hv as (Hsc & Hcl & Hm).
  unfold PQ.RemoveTip. unfold bind at 1. unfold gets at 1.
  destruct (N.eqb_spec (size pq) 0) as [H0|H0].
  { unfold throw. auto. }
  destruct (N.eqb_spec (size pq) 1) as [H1|H1].
  - unfold bind at 1. unfold set_size, modify.
    set (pq0 := mkPQHeap (mkVector (Elements pq) 0) (capacity pq)).
    assert (Hv0 : valid pq0) by (unfold valid, pq0; simpl; lia).
    destruct (ShrinkCapacity_valid pq0 Hv0) as (pq' & -> & Hv' & Hs' & _ & _).
    change (size pq0) with 0 in Hs'.
    split; [exact H0|]. split; [exact Hv'|]. split; [lia|]. split.
    + unfold live. rewrite Hs', H1. simpl.
      destruct (Elements pq) as [|e0 rest]; [simpl in Hcl; lia|]. reflexivity.
    + intros _. unfold heap_ok. rewrite Hs'. apply is_heap_small. simpl. lia.
  - rewrite sub_nowrap by lia.
    rewrite (bind_Ok _ _ _ _ _
               (lift_Ok _ pq _ _ (load_Ok (size pq - 1) pq ltac:(lia)))).
    rewrite (bind_Ok _ _ _ _ _
               (lift_Ok _ _ _ _
                  (store_Ok 0 _ (heap (mkPQHeap (heap pq) (capacity pq)))
                     ltac:(simpl; lia)))).
    unfold bind at 1. unfold set_size, modify. cbn [heap Elements size capacity].
    change (N.to_nat 0) with 0%nat.
    replace (N.to_nat (size pq - 1)) with (N.to_nat (size pq) - 1)%nat by lia.
    set (a1 := <[0%nat := elem (Elements pq) (N.to_nat (size pq) - 1)]>
                 (Elements pq)).
    destruct (HeapifyDown_spec (heap_ok pq) 0
                (fun a => take (N.to_nat (size pq) - 1) a
                          ≡ₚ take (N.to_nat (size pq) - 1) a1)
                (mkVector a1 (size pq - 1)) 0)
      as (a2 & Hrun & Hl2 & Hh2 & HQ2).
    + split; simpl; unfold a1; rewrite length_insert; lia.
    + simpl. lia.
    + lia.
    + intros Hh. simpl. change (N.to_nat 0) with 0%nat. unfold a1.
      apply down_inv_store_root; [|lia].
      replace (S (N.to_nat (size pq - 1))) with (N.to_nat (size pq)) by lia.
      exact Hh.
    + simpl. replace (N.to_nat (size pq - 1)) with (N.to_nat (size pq) - 1)%nat
        by lia. apply swap_closed_perm.
    + reflexivity.
    + unfold bind at 1. unfold lift at 1. cbn [heap capacity]. rewrite Hrun.
      cbn [size] in Hh2 |- *.
      simpl in Hl2. unfold a1 in Hl2. rewrite length_insert in Hl2.
      set (pq2 := mkPQHeap (mkVector a2 (size pq - 1)) (capacity pq)).
      assert (Hv2 : valid pq2) by (unfold valid, pq2; simpl; lia).
      destruct (ShrinkCapacity_valid pq2 Hv2)
        as (pq' & -> & Hv' & Hs' & Ht' & He').
      change (size pq2) with (size pq - 1) in Hs', Ht', He'.
      change (Elements pq2) with a2 in Ht', He'.
      split; [exact H0|]. split; [exact Hv'|]. split; [exact Hs'|]. split.
      * unfold live. rewrite Hs', Ht'.
        replace (N.to_nat (size pq - 1)) with (N.to_nat (size pq) - 1)%nat
          by lia.
        rewrite HQ2. unfold a1. apply remove_root_perm; lia.
      * intros Hh. unfold heap_ok. rewrite Hs'.
        eapply is_heap_from_ext; [exact He'|]. apply Hh2, Hh.
Qed.

(** [TipNRemove] is [RemoveTip] returning the former root. *)
Lemma TipNRemove_RemoveTip (pq : PQHeap) :
  (size pq <> 0 -> (0 < length (Elements pq))%nat) ->
  PQ.TipNRemove pq =
  match PQ.RemoveTip pq with
  | Ok _ pq' => Ok (elem (Elements pq) 0) pq'
  | Throw e pq' => Throw e pq'
  | Fault => Fault
  | Diverge => Diverge
  end.
Proof.
  intros Hl. unfold PQ.TipNRemove, PQ.RemoveTip. run_step.
  destruct (N.eqb_spec (size pq) 0) as [H0|H0]; [reflexivity|].
  rewrite (lift_Ok _ pq _ _ (load_Ok 0 pq ltac:(simpl; lia))).
  destruct pq as [[a sz] cap]. cbn [heap Elements size capacity].
  destruct (N.eqb_spec sz 1) as [H1|H1]; reflexivity.
Qed.

(** Outcome of [TipNRemove] on a valid queue. *)
Lemma TipNRemove_spec (pq : PQHeap) :
  valid pq ->
  match PQ.TipNRemove pq with
  | Ok x pq' =>
      size pq <> 0 /\ x = elem (Elements pq) 0 /\
      valid pq' /\ size pq' = size pq - 1 /\
      x :: live pq' ≡ₚ live pq /\
      (heap_ok pq -> heap_ok pq')
  | Throw e pq' => size pq = 0 /\ e = EmptyCollection /\ pq' = pq
  | _ => False
  end.
Proof.
  intros Hv. rewrite TipNRemove_RemoveTip
    by (destruct Hv as (? & ? & ?); lia).
  pose proof (RemoveTip_spec pq Hv) as H.
  destruct (PQ.RemoveTip pq) as [[] pq'|e pq'| |]; try assumption.
  destruct H as (? & ? & ? & ? & ?). auto 10.
Qed.

(** Outcome of [Tip] on a valid queue. *)
Lemma Tip_spec (pq : PQHeap) :
  valid pq ->
  PQ.Tip pq =
  if size pq =? 0 then Throw EmptyCollection pq
  else Ok (elem (Elements pq) 0) pq.
Proof.
  intros (Hsc & Hcl & Hm). unfold PQ.Tip. run_step.
  destruct (N.eqb_spec (size pq) 0) as [H0|H0]; [reflexivity|].
  rewrite (lift_Ok _ pq _ _ (load_Ok 0 pq ltac:(simpl; lia))).
  destruct pq as [[a sz] cap]. reflexivity.
Qed.

(** Outcome of the index-based [Change] on a valid queue. *)
Lemma Change_at_spec idx x (pq : PQHeap) :
  valid pq ->
  match PQ.Change_at idx x pq with
  | Ok _ pq' =>
      idx < size pq /\ valid pq' /\
      size pq' = size pq /\ capacity pq' = capacity pq /\
      live pq' ≡ₚ <[N.to_nat idx := x]> (live pq) /\
      (heap_ok pq -> heap_ok pq')
  | Throw e pq' => size pq <= idx /\ e = IndexOutOfRange /\ pq' = pq
  | _ => False
  end.
Proof.
  intros Hv. pose proof (valid_size_bound pq Hv) as Hs62.
  pose proof Hv as (Hsc & Hcl & Hm).
  unfold PQ.Change_at. unfold bind at 1. unfold gets at 1.
  destruct (N.leb_spec (size pq) idx) as [Hout|Hin].
  { unfold throw. auto. }
  rewrite (bind_Ok _ _ _ _ _
             (lift_Ok _ pq _ _ (load_Ok idx pq ltac:(lia)))).
  rewrite (bind_Ok _ _ _ _ _
             (lift_Ok _ _ _ _
                (store_Ok idx x (heap (mkPQHeap (heap pq) (capacity pq)))
                   ltac:(simpl; lia)))).
  cbn [heap Elements size capacity].
  set (n := N.to_nat (size pq)).
  set (a1 := <[N.to_nat idx := x]> (Elements pq)).
  assert (Hok1 : vector_ok (mkVector a1 (size pq))).
  { split; simpl; unfold a1; rewrite length_insert; lia. }
  assert (Hfin : forall a2,
    length a2 = length a1 -> take n a2 ≡ₚ take n a1 ->
    (heap_ok pq -> is_heap n a2) ->
    let pq' := mkPQHeap (mkVector a2 (size pq)) (capacity pq) in
    idx < size pq /\ valid pq' /\
    size pq' = size pq /\ capacity pq' = capacity pq /\
    live pq' ≡ₚ <[N.to_nat idx := x]> (live pq) /\
    (heap_ok pq -> heap_ok pq')).
  { intros a2 Hl2 Hp2 Hh2 pq'. unfold a1 in Hl2. rewrite length_insert in Hl2.
    split; [exact Hin|]. split; [unfold valid, pq'; simpl; lia|].
    split; [reflexivity|]. split; [reflexivity|]. split; [|exact Hh2].
    unfold live, pq'. cbn [heap Elements size]. fold n. rewrite Hp2.
    unfold a1. rewrite take_insert_lt by lia. reflexivity. }
  rewrite Z.gtb_ltb.
  destruct (Z.ltb_spec (elem (Elements pq) (N.to_nat idx)) x) as [Hup|Hnup].
  - destruct (HeapifyUp_spec (heap_ok pq) n
                (fun a => take n a ≡ₚ take n a1)
                (mkVector a1 (size pq)) idx)
      as (a2 & Hrun & Hl2 & Hh2 & HQ2); try assumption;
      try (simpl; lia); try reflexivity.
    + intros Hh. apply up_inv_raise; try assumption; try (simpl; lia).
    + apply swap_closed_perm.
    + unfold lift. cbn [heap capacity]. rewrite Hrun.
      apply Hfin; assumption.
  - destruct (Z.ltb_spec x (elem (Elements pq) (N.to_nat idx))) as [Hdn|Hndn].
    + destruct (HeapifyDown_spec (heap_ok pq) 0
                  (fun a => take n a ≡ₚ take n a1)
                  (mkVector a1 (size pq)) idx)
        as (a2 & Hrun & Hl2 & Hh2 & HQ2); try assumption;
        try (simpl; lia); try reflexivity.
      * intros Hh. apply down_inv_lower; try assumption; try (simpl; lia).
      * apply swap_closed_perm.
      * unfold lift. cbn [heap capacity]. rewrite Hrun.
        apply Hfin; assumption.
    + unfold ret. apply Hfin; [reflexivity|reflexivity|].
      intros Hh. assert (x = elem (Elements pq) (N.to_nat idx)) as -> by lia.
      apply is_heap_store_same; [exact Hh|lia].
Qed.

Lemma Change_at_in idx x (pq : PQHeap) :
  idx < size pq ->
  PQ.Change_at idx x pq =
  (oldData <- lift (load idx) ;;
   lift (store idx x) ;;
   if (x >? oldData)%Z then lift (HeapVec.HeapifyUp idx)
   else if (x <? oldData)%Z then lift (HeapVec.HeapifyDown idx)
   else ret tt) pq.
Proof.
  intros Hin. unfold PQ.Change_at. unfold bind at 1. unfold gets at 1.
  destruct (N.leb_spec (size pq) idx); [lia|reflexivity].
Qed.

(** The linear search of the value-based [Change] stops at the first live
    element equal to [oldValue], or at [size]. *)
Lemma find_loop_spec oldValue (v : Vector) :
  vector_ok v ->
  exists idx,
    loop (S (N.to_nat (size v))) (PQ.find_step oldValue) 0 v = Ok idx v /\
    idx <= size v /\
    (forall j, (j < N.to_nat idx)%nat -> elem (Elements v) j <> oldValue) /\
    (idx < size v -> elem (Elements v) (N.to_nat idx) = oldValue).
Proof.
  intros Hok.
  destruct (loop_rule (PQ.find_step oldValue)
    (fun i s => s = v /\ i <= size v /\
                forall j, (j < N.to_nat i)%nat ->
                          elem (Elements v) j <> oldValue)
    (fun i s => s = v /\ i <= size v /\
                (forall j, (j < N.to_nat i)%nat ->
                           elem (Elements v) j <> oldValue) /\
                (i < size v -> elem (Elements v) (N.to_nat i) = oldValue))
    (fun i _ => N.to_nat (size v - i)))
    with (fuel := S (N.to_nat (size v))) (v := 0) (s := v)
    as (idx & s' & Hrun & -> & H).
  - intros i s (-> & Hi & Hprev). unfold PQ.find_step. run_step.
    destruct (N.ltb_spec i (size v)) as [Hlt|Hge].
    2:{ split; [reflexivity|]. split; [exact Hi|]. split; [exact Hprev|]. lia. }
    destruct (vector_ok_index v i Hok ltac:(lia)) as (Hi62 & Hs62 & Hl).
    rewrite load_Ok by lia.
    destruct (Z.eqb_spec (elem (Elements v) (N.to_nat i)) oldValue) as [Heq|Hne].
    + split; [reflexivity|]. split; [exact Hi|]. split; [exact Hprev|]. auto.
    + rewrite add_nowrap by lia. split; [|lia].
      split; [reflexivity|]. split; [lia|]. intros j Hj.
      destruct (decide (j = N.to_nat i)) as [->|]; [exact Hne|]. apply Hprev. lia.
  - split; [reflexivity|]. split; [lia|]. intros j Hj. lia.
  - lia.
  - exists idx. split; [exact Hrun|exact H].
Qed.

(** Outcome of the value-based [Change] on a valid queue. *)
Lemma Change_spec oldValue newValue (pq : PQHeap) :
  valid pq ->
  match PQ.Change oldValue newValue pq with
  | Ok _ pq' =>
      (exists idx, idx < size pq /\
         elem (Elements pq) (N.to_nat idx) = oldValue /\
         (forall j, (j < N.to_nat idx)%nat -> elem (Elements pq) j <> oldValue) /\
         live pq' ≡ₚ <[N.to_nat idx := newValue]> (live pq)) /\
      valid pq' /\ size pq' = size pq /\ capacity pq' = capacity pq /\
      (heap_ok pq -> heap_ok pq')
  | Throw e pq' =>
      (forall j, (j < N.to_nat (size pq))%nat ->
                 elem (Elements pq) j <> oldValue) /\
      e = NotFound /\ pq' = pq
  | _ => False
  end.
Proof.
  intros Hv.
  destruct (find_loop_spec oldValue pq (valid_vector_ok pq Hv))
    as (idx & Hrun & Hle & Hprev & Hfound).
  assert (Heq : PQ.Change oldValue newValue pq =
                if idx =? size pq then Throw NotFound pq
                else PQ.Change_at idx newValue pq).
  { unfold PQ.Change. unfold bind at 1. unfold gets at 1.
    rewrite (bind_Ok _ _ _ _ _ (lift_Ok _ pq _ _ Hrun)).
    destruct pq as [[a sz] cap]. cbn [heap Elements size capacity] in *.
    destruct (N.eqb_spec idx sz) as [He|Hne]; [reflexivity|].
    rewrite Change_at_in by (simpl; lia). reflexivity. }
  rewrite Heq.
  destruct (N.eqb_spec idx (size pq)) as [He|Hne].
  - subst idx. auto.
  - pose proof (Change_at_spec idx newValue pq Hv) as H.
    destruct (PQ.Change_at idx newValue pq) as [[] pq'|e pq'| |];
      try assumption; [|lia].
    destruct H as (Hi & Hv' & Hs' & Hc' & Hp' & Hh').
    split; [|auto]. exists idx. auto.
Qed.

(** The overloads taking [Data&&] behave as the ones taking [const Data&]. *)
Lemma Change_at_move_eq idx x (pq : PQHeap) :
  PQ.Change_at_move idx x pq = PQ.Change_at idx x pq.
Proof.
  unfold PQ.Change_at_move, PQ.Change_at. run_step.
  destruct (size pq <=? idx); [reflexivity|].
  unfold lift, load, store, of_option, rd, wr, ret, fault.
  destruct pq as [[a sz] cap]. cbn [heap Elements size capacity].
  destruct (a !! N.to_nat idx) as [old|] eqn:Hold; [|reflexivity].
  assert (N.to_nat idx < length a)%nat by (eapply lookup_lt_Some; eassumption).
  rewrite decide_True by assumption. cbn [heap Elements size capacity].
  rewrite list_lookup_insert_eq by assumption.
  destruct (x >? old)%Z; [reflexivity|].
  cbn [heap Elements size capacity].
  rewrite list_lookup_insert_eq by assumption. reflexivity.
Qed.

Lemma Change_move_eq oldValue newValue (pq : PQHeap) :
  PQ.Change_move oldValue newValue pq = PQ.Change oldValue newValue pq.
Proof.
  unfold PQ.Change_move, PQ.Change. run_step.
  destruct (lift _ pq) as [idx pq1| | |]; try reflexivity.
  destruct (idx =? size pq); [reflexivity|].
  unfold lift, load, store, of_option, rd, wr, ret, fault.
  destruct pq1 as [[a sz] cap]. cbn [heap Elements size capacity].
  destruct (a !! N.to_nat idx) as [old|] eqn:Hold; [|reflexivity].
  assert (N.to_nat idx < length a)%nat by (eapply lookup_lt_Some; eassumption).
  rewrite decide_True by assumption. cbn [heap Elements size capacity].
  rewrite list_lookup_insert_eq by assumption.
  destruct (newValue >? old)%Z; [reflexivity|].
  cbn [heap Elements size capacity].
  rewrite list_lookup_insert_eq by assumption. reflexivity.
Qed.

(** [IsHeap()] on the queue answers the heap invariant. *)
Lemma PQ_IsHeap_spec (pq : PQHeap) :
  valid pq ->
  exists b : bool,
    PQ.IsHeap pq = Ok b pq /\ (b = true <-> heap_ok pq).
Proof.
  intros Hv.
  destruct (IsHeap_spec pq (valid_vector_ok pq Hv)) as (b & Hrun & Hb).
  exists b. split; [|exact Hb].
  unfold PQ.IsHeap. rewrite (lift_Ok _ _ _ _ Hrun).
  destruct pq as [v cap]. reflexivity.
Qed.

Lemma PQ_IsHeap_true (pq : PQHeap) :
  valid pq -> (PQ.IsHeap pq = Ok true pq <-> heap_ok pq).
Proof.
  intros Hv. destruct (PQ_IsHeap_spec pq Hv) as (b & Hrun & Hb).
  rewrite Hrun. split.
  - intros Heq. apply Hb. congruence.
  - intros Hh. apply Hb in Hh. subst b. reflexivity.
Qed.

(** Outcome of [Heapify] on a valid queue. *)
Lemma PQ_Heapify_spec (pq : PQHeap) :
  valid pq ->
  exists pq',
    PQ.Heapify pq = Ok tt pq' /\ valid pq' /\ size pq' = size pq /\
    live pq' ≡ₚ live pq /\ heap_ok pq'.
Proof.
  intros Hv. pose proof Hv as (Hsc & Hcl & Hm).
  destruct (Heapify_spec
              (fun a => take (N.to_nat (size pq)) a ≡ₚ live pq)
              pq (valid_vector_ok pq Hv))
    as (a & Hrun & Hl & Hh & HQ).
  - apply swap_closed_perm.
  - reflexivity.
  - exists (mkPQHeap (mkVector a (size pq)) (capacity pq)).
    split; [unfold PQ.Heapify; apply lift_Ok; exact Hrun|].
    split; [unfold valid; simpl; lia|]. split; [reflexivity|].
    split; [exact HQ|exact Hh].
Qed.

(** Every call of the list keeps a valid heap valid and a heap. *)
Lemma after_keeps_heap (c : Client.call) (pq : PQHeap) :
  valid pq -> heap_ok pq ->
  exists pq', Client.after c pq = Some pq' /\ valid pq' /\ heap_ok pq'.
Proof.
  intros Hv Hh. unfold Client.after.
  destruct c as [x|x| | |o n|o n|i n|i n|]; cbn [Client.perform].
  - pose proof (Insert_spec x pq Hv) as H.
    destruct (PQ.Insert x pq) as [[] pq'|e pq'| |]; try contradiction.
    + exists pq'. destruct H as (? & ? & ? & ?). auto.
    + exists pq'. destruct H as (? & -> & ?). auto.
  - change (PQ.Insert_move x) with (PQ.Insert x).
    pose proof (Insert_spec x pq Hv) as H.
    destruct (PQ.Insert x pq) as [[] pq'|e pq'| |]; try contradiction.
    + exists pq'. destruct H as (? & ? & ? & ?). auto.
    + exists pq'. destruct H as (? & -> & ?). auto.
  - pose proof (RemoveTip_spec pq Hv) as H.
    destruct (PQ.RemoveTip pq) as [[] pq'|e pq'| |]; try contradiction.
    + exists pq'. destruct H as (? & ? & ? & ? & ?). auto.
    + exists pq'. destruct H as (? & ? & ->). auto.
  - pose proof (TipNRemove_spec pq Hv) as H. unfold bind, ret.
    destruct (PQ.TipNRemove pq) as [x pq'|e pq'| |]; try contradiction.
    + exists pq'. destruct H as (? & ? & ? & ? & ? & ?). auto.
    + exists pq'. destruct H as (? & ? & ->). auto.
  - pose proof (Change_spec o n pq Hv) as H.
    destruct (PQ.Change o n pq) as [[] pq'|e pq'| |]; try contradiction.
    + exists pq'. destruct H as (? & ? & ? & ? & ?). auto.
    + exists pq'. destruct H as (? & ? & ->). auto.
  - rewrite Change_move_eq. pose proof (Change_spec o n pq Hv) as H.
    destruct (PQ.Change o n pq) as [[] pq'|e pq'| |]; try contradiction.
    + exists pq'. destruct H as (? & ? & ? & ? & ?). auto.
    + exists pq'. destruct H as (? & ? & ->). auto.
  - pose proof (Change_at_spec i n pq Hv) as H.
    destruct (PQ.Change_at i n pq) as [[] pq'|e pq'| |]; try contradiction.
    + exists pq'. destruct H as (? & ? & ? & ? & ? & ?). auto.
    + exists pq'. destruct H as (? & ? & ->). auto.
  - rewrite Change_at_move_eq. pose proof (Change_at_spec i n pq Hv) as H.
    destruct (PQ.Change_at i n pq) as [[] pq'|e pq'| |]; try contradiction.
    + exists pq'. destruct H as (? & ? & ? & ? & ? & ?). auto.
    + exists pq'. destruct H as (? & ? & ->). auto.
  - destruct (PQ_Heapify_spec pq Hv) as (pq' & -> & Hv' & _ & _ & Hh').
    exists pq'. auto.
Qed.

Lemma after_all_keeps_heap (cs : list Client.call) (pq : PQHeap) :
  valid pq -> heap_ok pq ->
  exists pq', Client.after_all cs pq = Some pq' /\ valid pq' /\ heap_ok pq'.
Proof.
  revert pq. induction cs as [|c cs IH]; intros pq Hv Hh.
  - exists pq. auto.
  - simpl. destruct (after_keeps_heap c pq Hv Hh) as (pq1 & -> & Hv1 & Hh1).
    apply IH; assumption.
Qed.

(** The traversal of the bulk constructor fills the array with the
    container's sequence. *)
Lemma fill_loop_spec (l : list Z) :
  N.of_nat (length l) <= max_array_length ->
  loop (S (length l)) VectorImpl.fill_step (0, l)
       (mkVector (replicate (length l) 0%Z) (N.of_nat (length l))) =
  Ok tt (mkVector l (N.of_nat (length l))).
Proof.
  intros Hmax.
  destruct (loop_rule VectorImpl.fill_step
    (fun st s => size s = N.of_nat (length l) /\
                 exists filled,
                   l = filled ++ snd st /\
                   N.to_nat (fst st) = length filled /\
                   Elements s = filled ++ replicate (length (snd st)) 0%Z)
    (fun _ s => s = mkVector l (N.of_nat (length l)))
    (fun st _ => length (snd st)))
    with (fuel := S (length l)) (v := (0, l))
         (s := mkVector (replicate (length l) 0%Z) (N.of_nat (length l)))
    as ([] & s' & Hrun & ->); [| | |exact Hrun].
  - intros [i rest] s (Hsz & filled & Hl & Hi & He). simpl in Hl, Hi, He.
    unfold VectorImpl.fill_step.
    destruct rest as [|data rest'].
    + unfold ret. destruct s as [a sz]. simpl in *. subst sz.
      rewrite He, Hl, app_nil_r. reflexivity.
    + assert (Hlen : length l = (length filled + S (length rest'))%nat).
      { rewrite Hl at 1. rewrite length_app. reflexivity. }
      unfold max_array_length in Hmax.
      unfold bind. rewrite store_Ok
        by (rewrite He, length_app, length_replicate; simpl; lia).
      unfold ret. cbn [Elements size fst snd]. rewrite add_nowrap by lia.
      split; [|simpl; lia]. split; [exact Hsz|].
      exists (filled ++ [data]). split; [|split].
      * rewrite <- app_assoc. exact Hl.
      * rewrite length_app. simpl. lia.
      * rewrite He, Hi. simpl.
        rewrite insert_app_r_alt by lia.
        replace (length filled - length filled)%nat with 0%nat by lia.
        simpl. rewrite <- app_assoc. reflexivity.
  - simpl. split; [reflexivity|]. exists []. auto.
  - simpl. lia.
Qed.

(** A queue built by the bulk constructor is a valid heap of the
    container's elements. *)
Lemma new_container_spec (l : list Z) (pq : PQHeap) :
  Client.new_container l = Ok tt pq ->
  valid pq /\ heap_ok pq /\ live pq ≡ₚ l.
Proof.
  unfold Client.new_container, PQ.PQHeap_container, HeapVec.HeapVec_container,
    VectorImpl.Vector_container, alloc, PQ.fresh, VectorImpl.fresh.
  unfold bind at 1. unfold lift at 1. cbn [heap capacity]. unfold bind at 1 2.
  destruct (N.leb_spec (N.of_nat (length l)) max_array_length) as [Hle|Hgt];
    [|discriminate].
  unfold ret at 1. rewrite Nat2N.id. unfold bind at 1. unfold modify at 1.
  rewrite fill_loop_spec by exact Hle.
  set (v := mkVector l (N.of_nat (length l))).
  assert (Hok : vector_ok v) by (split; simpl; lia).
  destruct (Heapify_spec (fun a => take (length l) a ≡ₚ l) v Hok)
    as (a & -> & Hl & Hh & HQ).
  - simpl. rewrite Nat2N.id. apply swap_closed_perm.
  - simpl. rewrite firstn_all. reflexivity.
  - run_step. cbn [heap Elements size capacity]. intros [= <-].
    simpl in Hl, Hh. rewrite Nat2N.id in Hh.
    split; [unfold valid; simpl; lia|]. split.
    + unfold heap_ok. simpl. rewrite Nat2N.id. exact Hh.
    + unfold live. simpl. rewrite Nat2N.id. exact HQ.
Qed.

(** The mapping of the bulk move constructor fills the array the same way
    and leaves default values in the container. *)
Lemma take_loop_spec (l : list Z) :
  N.of_nat (length l) <= max_array_length ->
  loop (S (length l)) VectorImpl.take_step (0, l, [])
       (mkVector (replicate (length l) 0%Z) (N.of_nat (length l))) =
  Ok (replicate (length l) 0%Z) (mkVector l (N.of_nat (length l))).
Proof.
  intros Hmax.
  destruct (loop_rule VectorImpl.take_step
    (fun st s => size s = N.of_nat (length l) /\
                 exists filled,
                   l = filled ++ snd (fst st) /\
                   N.to_nat (fst (fst st)) = length filled /\
                   snd st = replicate (length filled) 0%Z /\
                   Elements s
                   = filled ++ replicate (length (snd (fst st))) 0%Z)
    (fun moved s => moved = replicate (length l) 0%Z /\
                   s = mkVector l (N.of_nat (length l)))
    (fun st _ => length (snd (fst st))))
    with (fuel := S (length l)) (v := (0, l, @nil Z))
         (s := mkVector (replicate (length l) 0%Z) (N.of_nat (length l)))
    as (moved & s' & Hrun & -> & ->); [| | |exact Hrun].
  - intros [[i rest] moved] s (Hsz & filled & Hl & Hi & Hleft & He).
    simpl in Hl, Hi, Hleft, He. unfold VectorImpl.take_step.
    destruct rest as [|data rest'].
    + unfold ret. destruct s as [a sz]. simpl in *. subst sz.
      rewrite app_nil_r in Hl. subst filled.
      rewrite He, app_nil_r. auto.
    + assert (Hlen : length l = (length filled + S (length rest'))%nat).
      { rewrite Hl at 1. rewrite length_app. reflexivity. }
      unfold max_array_length in Hmax.
      assert (Hin : (N.to_nat i < length (Elements s))%nat).
      { rewrite He, length_app, length_replicate. simpl. lia. }
      unfold bind. rewrite load_Ok by exact Hin.
      rewrite store_Ok by exact Hin.
      unfold ret. cbn [Elements size fst snd]. rewrite add_nowrap by lia.
      split; [|simpl; lia]. split; [exact Hsz|].
      exists (filled ++ [data]). split; [|split; [|split]].
      * rewrite <- app_assoc. exact Hl.
      * rewrite length_app. simpl. lia.
      * rewrite Hleft, length_app. simpl.
        replace (elem (Elements s) (N.to_nat i)) with 0%Z.
        { rewrite Nat.add_1_r. rewrite replicate_S_end. reflexivity. }
        unfold elem. rewrite nth_lookup, He, Hi.
        rewrite lookup_app_r by lia.
        replace (length filled - length filled)%nat with 0%nat by lia.
        reflexivity.
      * rewrite He, Hi. simpl.
        rewrite insert_app_r_alt by lia.
        replace (length filled - length filled)%nat with 0%nat by lia.
        simpl. rewrite <- app_assoc. reflexivity.
  - simpl. split; [reflexivity|]. exists []. auto.
  - simpl. lia.
Qed.

(** A queue built by the bulk move constructor is a valid heap of the
    container's elements. *)
Lemma new_container_move_spec (l moved : list Z) (pq : PQHeap) :
  Client.new_container_move l = Ok moved pq ->
  valid pq /\ heap_ok pq /\ live pq ≡ₚ l.
Proof.
  unfold Client.new_container_move, PQ.PQHeap_container_move,
    HeapVec.HeapVec_container_move, VectorImpl.Vector_container_move, alloc,
    PQ.fresh, VectorImpl.fresh.
  unfold bind at 1. unfold lift at 1. cbn [heap capacity].
  unfold bind at 1 2 3.
  destruct (N.leb_spec (N.of_nat (length l)) max_array_length) as [Hle|Hgt];
    [|discriminate].
  unfold ret at 1. rewrite Nat2N.id. unfold modify at 1.
  rewrite take_loop_spec by exact Hle.
  set (v := mkVector l (N.of_nat (length l))).
  assert (Hok : vector_ok v) by (split; simpl; lia).
  destruct (Heapify_spec (fun a => take (length l) a ≡ₚ l) v Hok)
    as (a & Hrun & Hl & Hh & HQ).
  - simpl. rewrite Nat2N.id. apply swap_closed_perm.
  - simpl. rewrite firstn_all. reflexivity.
  - unfold bind at 1. rewrite Hrun. run_step. cbn [heap Elements size capacity].
    intros [= _ <-].
    simpl in Hl, Hh. rewrite Nat2N.id in Hh.
    split; [unfold valid; simpl; lia|]. split.
    + unfold heap_ok. simpl. rewrite Nat2N.id. exact Hh.
    + unfold live. simpl. rewrite Nat2N.id. exact HQ.
Qed.

(** A run of [Insert]s that all return adds their values to a valid
    heap. *)
Lemma insert_all_spec (values : list Z) : forall pq0 pq : PQHeap,
  valid pq0 -> heap_ok pq0 ->
  Client.insert_all values pq0 = Ok tt pq ->
  valid pq /\ heap_ok pq /\ live pq ≡ₚ values ++ live pq0.
Proof.
  induction values as [|x rest IH]; intros pq0 pq Hv Hh Hrun.
  - simpl in Hrun. injection Hrun as <-. auto.
  - simpl in Hrun. unfold bind in Hrun.
    pose proof (Insert_spec x pq0 Hv) as H.
    destruct (PQ.Insert x pq0) as [[] pq1|e pq1| |]; try discriminate.
    destruct H as (Hv1 & _ & Hp1 & Hh1).
    destruct (IH pq1 pq Hv1 (Hh1 Hh) Hrun) as (Hv' & Hh' & Hp').
    split; [exact Hv'|]. split; [exact Hh'|].
    rewrite Hp', Hp1. simpl. symmetry. apply Permutation_middle.
Qed.

Lemma fresh_valid : valid PQ.fresh /\ heap_ok PQ.fresh.
Proof.
  split.
  - unfold valid, max_array_length. simpl. lia.
  - apply is_heap_small. simpl. lia.
Qed.

Lemma live_elem_of (pq : PQHeap) y :
  valid pq -> y ∈ live pq ->
  exists j, (j < N.to_nat (size pq))%nat /\ elem (Elements pq) j = y.
Proof.
  intros (Hsc & Hcl & Hm) Hy. unfold live in Hy.
  apply elem_of_take in Hy as (j & Hj & Hlt).
  exists j. split; [exact Hlt|]. unfold elem. rewrite nth_lookup, Hj.
  reflexivity.
Qed.

(** Emptying a valid heap with [TipNRemove] lists its elements in
    non-increasing order. *)
Lemma drain_spec (pq : PQHeap) :
  valid pq -> heap_ok pq ->
  exists out pq',
    Client.drain pq = Ok out pq' /\ size pq' = 0 /\
    out ≡ₚ live pq /\ StronglySorted (flip Z.le) out.
Proof.
  intros Hv Hh. unfold Client.drain, PQ.Size. unfold bind at 1. unfold gets at 1.
  destruct (loop_rule Client.drain_step
    (fun out s => valid s /\ heap_ok s /\ out ++ live s ≡ₚ live pq /\
                  StronglySorted (flip Z.le) out /\
                  forall x y, x ∈ out -> y ∈ live s -> (y <= x)%Z)
    (fun out s => size s = 0 /\ out ≡ₚ live pq /\
                  StronglySorted (flip Z.le) out)
    (fun _ s => N.to_nat (size s)))
    with (fuel := S (N.to_nat (size pq))) (v := @nil Z) (s := pq)
    as (out & pq' & Hrun & H0 & Hp & Hs).
  - intros out s (Hvs & Hhs & Hps & Hss & Hbs).
    unfold Client.drain_step, PQ.Empty. unfold bind at 1. unfold gets at 1.
    destruct (N.eqb_spec (size s) 0) as [Hz|Hnz]; cbn [negb].
    { unfold ret. split; [exact Hz|]. split; [|exact Hss].
      rewrite <- Hps. unfold live. rewrite Hz. simpl. rewrite app_nil_r.
      reflexivity. }
    pose proof (TipNRemove_spec s Hvs) as H. unfold bind.
    destruct (PQ.TipNRemove s) as [x s'|e s'| |]; try contradiction.
    2:{ destruct H as (? & _). contradiction. }
    destruct H as (_ & Hx & Hvs' & Hsz' & Hpx & Hhs'). unfold ret.
    assert (Hroot : forall y, y ∈ live s -> (y <= x)%Z).
    { intros y Hy. destruct (live_elem_of s y Hvs Hy) as (j & Hj & <-).
      subst x. apply (is_heap_root_max _ _ Hhs). exact Hj. }
    assert (Hsub : forall y, y ∈ live s' -> y ∈ live s).
    { intros y Hy. rewrite <- Hpx. apply elem_of_cons. right. exact Hy. }
    split; [|lia]. split; [exact Hvs'|]. split; [apply Hhs', Hhs|].
    split; [|split].
    + rewrite <- Hps, <- Hpx, <- app_assoc. reflexivity.
    + apply StronglySorted_app_2; [|exact Hss|repeat constructor].
      intros x1 x2 Hx1 Hx2. apply list_elem_of_singleton in Hx2. subst x2.
      unfold flip. apply Hbs; [exact Hx1|].
      rewrite <- Hpx. apply elem_of_cons. left. reflexivity.
    + intros z y Hz Hy. apply elem_of_app in Hz as [Hz|Hz].
      * apply Hbs; [exact Hz|]. apply Hsub, Hy.
      * apply list_elem_of_singleton in Hz. subst z. apply Hroot, Hsub, Hy.
  - split; [exact Hv|]. split; [exact Hh|]. split; [reflexivity|].
    split; [constructor|]. intros x y Hx. inversion Hx.
  - lia.
  - exists out, pq'. auto.
Qed.

Lemma elem_take n (a : list Z) j :
  (j < n)%nat -> elem (take n a) j = elem a j.
Proof.
  intros Hj. unfold elem. rewrite !nth_lookup, lookup_take_lt by exact Hj.
  reflexivity.
Qed.

Lemma index_sorted_StronglySorted (l : list Z) :
  (forall j k, (j <= k)%nat -> (k < length l)%nat ->
               (elem l j <= elem l k)%Z) ->
  StronglySorted Z.le l.
Proof.
  induction l as [|x l IH]; intros H; constructor.
  - apply IH. intros j k Hjk Hk.
    apply (H (S j) (S k)); simpl; lia.
  - apply Forall_forall. intros y Hy.
    apply list_elem_of_lookup in Hy as (k & Hk).
    pose proof (lookup_lt_Some _ _ _ Hk) as Hlt.
    specialize (H 0%nat (S k) ltac:(lia) ltac:(simpl; lia)).
    unfold elem in H. simpl in H. rewrite nth_lookup, Hk in H. exact H.
Qed.

Lemma sorted_upto_StronglySorted n (a : list Z) :
  (n <= length a)%nat -> sorted_upto n a -> StronglySorted Z.le (take n a).
Proof.
  intros Hn H. apply index_sorted_StronglySorted.
  rewrite length_take. intros j k Hjk Hk.
  rewrite !elem_take by lia. apply H; lia.
Qed.

Lemma elem_of_take_elem n (a : list Z) y :
  (n <= length a)%nat ->
  (y ∈ take n a <-> exists j, (j < n)%nat /\ elem a j = y).
Proof.
  intros Hn. rewrite elem_of_take. split.
  - intros (j & Hj & Hlt). exists j. split; [exact Hlt|].
    unfold elem. rewrite nth_lookup, Hj. reflexivity.
  - intros (j & Hlt & <-). exists j. split; [|exact Hlt].
    apply lookup_elem. lia.
Qed.

(** A sorted window is a heap exactly when its ends are equal. *)
Lemma sorted_is_heap_iff n (a : list Z) :
  (2 <= n)%nat -> sorted_upto n a ->
  (is_heap n a <-> elem a 0 = elem a (n - 1)).
Proof.
  intros Hn Hs. split.
  - intros Hh.
    pose proof (is_heap_root_max _ _ Hh (n - 1)%nat ltac:(lia)).
    pose proof (Hs 0%nat (n - 1)%nat ltac:(lia) ltac:(lia)). lia.
  - intros Heq p _.
    assert (Hall : forall j, (j < n)%nat -> elem a j = elem a 0).
    { intros j Hj.
      pose proof (Hs 0%nat j ltac:(lia) Hj).
      pose proof (Hs j (n - 1)%nat ltac:(lia) ltac:(lia)). lia. }
    unfold edge_ok. split; intros Hc.
    + rewrite (Hall (2 * p + 1)%nat), (Hall p) by lia. lia.
    + rewrite (Hall (2 * p + 2)%nat), (Hall p) by lia. lia.
Qed.

(** [operator==] compares the sizes, then the live elements. *)
Lemma operator_eq_spec (other v : Vector) :
  vector_ok v -> (size v = size other -> vector_ok other) ->
  exists b : bool,
    VectorImpl.operator_eq other v = Ok b v /\
    (b = true <->
     size v = size other /\
     forall i, (i < N.to_nat (size v))%nat ->
               elem (Elements v) i = elem (Elements other) i).
Proof.
  intros Hok Hoko. unfold VectorImpl.operator_eq. run_step.
  destruct (N.eqb_spec (size v) (size other)) as [Hsz|Hsz].
  2:{ exists false. split; [reflexivity|]. split; [discriminate|].
      intros [? _]. contradiction. }
  specialize (Hoko Hsz).
  destruct (loop_rule (VectorImpl.eq_step other)
    (fun i s => s = v /\ i <= size v /\
                forall j, (j < N.to_nat i)%nat ->
                          elem (Elements v) j = elem (Elements other) j)
    (fun b s => s = v /\
                (b = true <->
                 forall j, (j < N.to_nat (size v))%nat ->
                           elem (Elements v) j = elem (Elements other) j))
    (fun i _ => N.to_nat (size v - i)))
    with (fuel := S (N.to_nat (size v))) (v := 0) (s := v)
    as (b & s' & Hrun & -> & Hb).
  - intros i s (-> & Hi & Hprev). unfold VectorImpl.eq_step. run_step.
    destruct (N.ltb_spec i (size v)) as [Hlt|Hge].
    2:{ split; [reflexivity|]. split; [|reflexivity]. intros _ j Hj.
        apply Hprev. lia. }
    destruct (vector_ok_index v i Hok ltac:(lia)) as (Hi62 & Hs62 & Hl).
    destruct (vector_ok_index other i Hoko ltac:(lia)) as (_ & _ & Hlo).
    rewrite load_Ok by lia. rewrite rd_elem by lia.
    destruct (Z.eqb_spec (elem (Elements v) (N.to_nat i))
                         (elem (Elements other) (N.to_nat i))) as [Heq|Hne].
    + rewrite add_nowrap by lia. split; [|lia].
      split; [reflexivity|]. split; [lia|]. intros j Hj.
      destruct (decide (j = N.to_nat i)) as [->|]; [exact Heq|].
      apply Hprev. lia.
    + split; [reflexivity|]. split; [discriminate|].
      intros Hall. exfalso. apply Hne, Hall. lia.
  - split; [reflexivity|]. split; [lia|]. intros j Hj. lia.
  - lia.
  - exists b. split; [exact Hrun|]. rewrite Hb. tauto.
Qed.
End Operations.

(* ===================================================================== *)
(** * The properties of the specification *)

Local Open Scope N_scope.

(** The three root operations throw on an empty valid queue and return on
    a non-empty one. *)
Lemma root_operations (pq : PQHeap) :
  valid pq ->
  (size pq = 0 ->
   PQ.Tip pq = Throw EmptyCollection pq /\
   PQ.RemoveTip pq = Throw EmptyCollection pq /\
   PQ.TipNRemove pq = Throw EmptyCollection pq) /\
  (size pq <> 0 ->
   PQ.Tip pq = Ok (elem (Elements pq) 0) pq /\
   (exists pq', PQ.RemoveTip pq = Ok tt pq') /\
   (exists pq', PQ.TipNRemove pq = Ok (elem (Elements pq) 0) pq')).
Proof.
  intros Hv.
  pose proof (Tip_spec pq Hv) as HT.
  pose proof (RemoveTip_spec pq Hv) as HR.
  pose proof (TipNRemove_spec pq Hv) as HN.
  split.
  - intros H0. rewrite HT, H0. split; [reflexivity|].
    destruct (PQ.RemoveTip pq) as [[] r|e r| |]; try contradiction;
      [destruct HR as (? & _); contradiction|].
    destruct (PQ.TipNRemove pq) as [x n|e' n| |]; try contradiction;
      [destruct HN as (? & _); contradiction|].
    destruct HR as (_ & -> & ->). destruct HN as (_ & -> & ->). auto.
  - intros H0. rewrite HT.
    destruct (N.eqb_spec (size pq) 0); [contradiction|].
    split; [reflexivity|].
    destruct (PQ.RemoveTip pq) as [[] r|e r| |]; try contradiction;
      [|destruct HR as (? & _); contradiction].
    destruct (PQ.TipNRemove pq) as [x n'|e' n'| |]; try contradiction;
      [|destruct HN as (? & _); contradiction].
    destruct HN as (_ & -> & _). eauto.
Qed.

(** C1: starting from any valid max-heap state of the priority queue, after
    every step of any sequence of [Insert], [RemoveTip], [TipNRemove],
    [Change] (by value or by index) and [Heapify] calls, [IsHeap()] returns
    true.  A call that throws leaves the queue as it was. *)
Theorem heap_invariant_preserved (pq : PQHeap) (cs : list Client.call) (k : nat) :
  valid pq -> PQ.IsHeap pq = Ok true pq ->
  exists pq',
    Client.after_all (take k cs) pq = Some pq' /\
    PQ.IsHeap pq' = Ok true pq'.
Proof.
  intros Hv Hh. apply PQ_IsHeap_true in Hh; [|exact Hv].
  destruct (after_all_keeps_heap (take k cs) pq Hv Hh) as (pq' & Hrun & Hv' & Hh').
  exists pq'. split; [exact Hrun|]. apply PQ_IsHeap_true; assumption.
Qed.

Lemma heap_invariant_preserved_witness :
  let pq := mkPQHeap (mkVector [20; 8; 15; 2; 5; 10; 3]%Z 7) 7 in
  let cs := [Client.Insert 30; Client.TipNRemove; Client.Change 8 1;
             Client.ChangeAt 0 100; Client.RemoveTip; Client.Heapify]%Z in
  valid pq /\ PQ.IsHeap pq = Ok true pq /\
  exists pq',
    Client.after_all (take 4 cs) pq = Some pq' /\
    PQ.IsHeap pq' = Ok true pq'.
Proof.
  intros pq cs.
  assert (Hv : valid pq) by (unfold valid, max_array_length; simpl; lia).
  assert (Hh : PQ.IsHeap pq = Ok true pq) by (vm_compute; reflexivity).
  split; [exact Hv|]. split; [exact Hh|].
  exact (heap_invariant_preserved pq cs 4 Hv Hh).
Defined.

(** C2: a priority queue built from a finite multiset of elements, by one
    of the bulk constructors or by a run of [Insert]s on an empty queue, and
    emptied
    by repeated [TipNRemove()], yields exactly those elements in
    non-increasing order; built from [10, 5, 15, 2, 8, 20, 3] it yields
    [20, 15, 10, 8, 5, 3, 2]. *)
Theorem extraction_order (elements : list Z) (pq : PQHeap) :
  Client.new_container elements = Ok tt pq \/
  (exists moved, Client.new_container_move elements = Ok moved pq) \/
  (PQ.PQHeap_default ;; Client.insert_all elements)%monad PQ.fresh = Ok tt pq ->
  exists out pq',
    Client.drain pq = Ok out pq' /\ size pq' = 0 /\
    out ≡ₚ elements /\ StronglySorted (flip Z.le) out /\
    (elements = [10; 5; 15; 2; 8; 20; 3]%Z ->
     out = [20; 15; 10; 8; 5; 3; 2]%Z).
Proof.
  intros Hbuilt.
  assert (Hpq : valid pq /\ heap_ok pq /\ live pq ≡ₚ elements).
  { destruct Hbuilt as [Hb|[[moved Hb]|Hb]].
    - apply new_container_spec, Hb.
    - apply (new_container_move_spec _ _ _ Hb).
    - destruct fresh_valid as [Hv0 Hh0].
      destruct (insert_all_spec elements PQ.fresh pq Hv0 Hh0 Hb)
        as (Hv & Hh & Hp).
      split; [exact Hv|]. split; [exact Hh|].
      rewrite Hp. unfold live. simpl. rewrite app_nil_r. reflexivity. }
  destruct Hpq as (Hv & Hh & Hp).
  destruct (drain_spec pq Hv Hh) as (out & pq' & Hrun & Hz & Hpo & Hso).
  exists out, pq'. split; [exact Hrun|]. split; [exact Hz|].
  split; [rewrite Hpo; exact Hp|]. split; [exact Hso|].
  intros ->.
  destruct Hbuilt as [Hb|[[moved Hb]|Hb]]; vm_compute in Hb;
    injection Hb as <-; subst; vm_compute in Hrun; congruence.
Qed.

Lemma extraction_order_witness :
  let pq := mkPQHeap (mkVector [20; 8; 15; 2; 5; 10; 3]%Z 7) 7 in
  Client.new_container [10; 5; 15; 2; 8; 20; 3]%Z = Ok tt pq /\
  exists out pq',
    Client.drain pq = Ok out pq' /\ size pq' = 0 /\
    out ≡ₚ [10; 5; 15; 2; 8; 20; 3]%Z /\ StronglySorted (flip Z.le) out /\
    ([10; 5; 15; 2; 8; 20; 3]%Z = [10; 5; 15; 2; 8; 20; 3]%Z ->
     out = [20; 15; 10; 8; 5; 3; 2]%Z).
Proof.
  intros pq.
  assert (Hb : Client.new_container [10; 5; 15; 2; 8; 20; 3]%Z = Ok tt pq)
    by (vm_compute; reflexivity).
  split; [exact Hb|].
  exact (extraction_order [10; 5; 15; 2; 8; 20; 3]%Z pq (or_introl Hb)).
Defined.

(** C3: on a copy of a queue whose capacity exceeds its size, made by the
    copy constructor or by copy assignment, the array has [size] slots while
    [capacity] is the source's: the next [Insert] skips the reallocation and
    writes at index [size], outside the array. *)
Theorem copy_then_insert_faults :
  exists pq cp,
    (PQ.PQHeap_default ;; Client.insert_all [1; 2; 3]%Z)%monad PQ.fresh
    = Ok tt pq /\
    Client.new_copy pq = Ok tt cp /\
    PQ.copy_assign pq PQ.fresh = Ok tt cp /\
    size cp = 3 /\ capacity cp = 4 /\ length (Elements cp) = 3%nat /\
    PQ.EnsureCapacity (ULong.add (size cp) 1) cp = Ok tt cp /\
    PQ.Insert 4 cp = Fault.
Proof.
  eexists. eexists. split; [vm_compute; reflexivity|].
  split; [vm_compute; reflexivity|]. vm_compute. auto 10.
Qed.

(** C4: move construction leaves the source empty, with size 0 and
    capacity 0; but after a move assignment into a non-empty queue the
    source is not empty: it holds the target's former array and size. *)
Theorem move_assign_source_not_empty :
  exists target source,
    Client.new_container [1]%Z = Ok tt target /\
    Client.new_container [2; 3]%Z = Ok tt source /\
    Client.new_move source = (source, mkPQHeap (mkVector [] 0) 0) /\
    PQ.move_assign target source =
    (mkPQHeap (mkVector [3; 2]%Z 2) 2, mkPQHeap (mkVector [1]%Z 1) 0).
Proof.
  eexists. eexists. split; [vm_compute; reflexivity|].
  split; [vm_compute; reflexivity|]. split; vm_compute; reflexivity.
Qed.

(** C5: after a move assignment into a non-empty queue, the capacity of the
    source is below its size. *)
Theorem move_assign_capacity_below_size :
  exists target source,
    Client.new_container [1]%Z = Ok tt target /\
    Client.new_container [2; 3]%Z = Ok tt source /\
    capacity (snd (PQ.move_assign target source))
    < size (snd (PQ.move_assign target source)).
Proof.
  eexists. eexists. split; [vm_compute; reflexivity|].
  split; vm_compute; reflexivity.
Qed.

(** C6, as stated, fails on a vector of two equal elements: it has more
    than one element and [IsHeap()] is true after [Sort()]. *)
Lemma sort_equal_elements_still_heap :
  1 < size (mkVector [1; 1]%Z 2) /\
  (HeapVec.Sort ;; HeapVec.IsHeap)%monad (mkVector [1; 1]%Z 2)
  = Ok true (mkVector [1; 1]%Z 2).
Proof. split; vm_compute; reflexivity. Qed.

(** C6, amended: for every contents, [Sort()] returns with the first [size]
    elements permuted into non-decreasing order; for [size <= 1] it changes
    nothing and [IsHeap()] remains true; for [size > 1], [IsHeap()] returns
    false afterwards exactly when the live elements are not all equal. *)
Theorem sort_sorts (v : Vector) :
  vector_ok v ->
  exists a,
    HeapVec.Sort v = Ok tt (mkVector a (size v)) /\
    StronglySorted Z.le (take (N.to_nat (size v)) a) /\
    take (N.to_nat (size v)) a ≡ₚ take (N.to_nat (size v)) (Elements v) /\
    (size v <= 1 -> a = Elements v /\ HeapVec.IsHeap v = Ok true v) /\
    (1 < size v ->
     exists b : bool,
       HeapVec.IsHeap (mkVector a (size v)) = Ok b (mkVector a (size v)) /\
       (b = false <->
        exists x y, x ∈ take (N.to_nat (size v)) (Elements v) /\
                    y ∈ take (N.to_nat (size v)) (Elements v) /\ x <> y)).
Proof.
  intros Hok. pose proof Hok as [Hlen Hmax].
  destruct (Sort_spec v Hok) as (a & Hrun & Hl & Hp & Hd & Hs).
  set (n := N.to_nat (size v)) in *.
  exists a. split; [exact Hrun|].
  split; [apply sorted_upto_StronglySorted; [lia|exact Hs]|].
  split; [exact Hp|]. split.
  - intros Hsmall. split.
    + unfold HeapVec.Sort, bind, gets, ret in Hrun.
      destruct (N.ltb_spec 1 (size v)); [lia|]. destruct v as [e sz].
      simpl in *. congruence.
    + destruct (IsHeap_spec v Hok) as (b & -> & Hb).
      f_equal. apply Hb. apply is_heap_small. lia.
  - intros Hbig.
    assert (Hok' : vector_ok (mkVector a (size v))).
    { split; simpl; rewrite ?Hl; assumption. }
    destruct (IsHeap_spec _ Hok') as (b & Hb & Hiff). simpl in Hiff. fold n in Hiff.
    exists b. split; [exact Hb|].
    rewrite (sorted_is_heap_iff n a ltac:(lia) Hs) in Hiff.
    assert (Hin : forall y, y ∈ take n (Elements v) <->
                            exists j, (j < n)%nat /\ elem a j = y).
    { intros y. rewrite <- Hp. apply elem_of_take_elem. lia. }
    split.
    + intros Hf. exists (elem a 0), (elem a (n - 1)).
      split; [apply Hin; exists 0%nat; split; [lia|reflexivity]|].
      split; [apply Hin; exists (n - 1)%nat; split; [lia|reflexivity]|].
      intros Heq. apply Hiff in Heq. congruence.
    + intros (x & y & Hx & Hy & Hne).
      destruct b; [|reflexivity]. exfalso.
      apply Hin in Hx as (i & Hi & <-). apply Hin in Hy as (j & Hj & <-).
      pose proof (proj1 Hiff eq_refl) as Hends.
      pose proof (Hs 0%nat i ltac:(lia) Hi).
      pose proof (Hs i (n - 1)%nat ltac:(lia) ltac:(lia)).
      pose proof (Hs 0%nat j ltac:(lia) Hj).
      pose proof (Hs j (n - 1)%nat ltac:(lia) ltac:(lia)).
      apply Hne. lia.
Qed.

Lemma sort_sorts_witness :
  let v := mkVector [10; 5; 15; 2; 8; 20; 3]%Z 7 in
  vector_ok v /\
  exists a,
    HeapVec.Sort v = Ok tt (mkVector a (size v)) /\
    StronglySorted Z.le (take (N.to_nat (size v)) a) /\
    take (N.to_nat (size v)) a ≡ₚ take (N.to_nat (size v)) (Elements v) /\
    (size v <= 1 -> a = Elements v /\ HeapVec.IsHeap v = Ok true v) /\
    (1 < size v ->
     exists b : bool,
       HeapVec.IsHeap (mkVector a (size v)) = Ok b (mkVector a (size v)) /\
       (b = false <->
        exists x y, x ∈ take (N.to_nat (size v)) (Elements v) /\
                    y ∈ take (N.to_nat (size v)) (Elements v) /\ x <> y)).
Proof.
  intros v.
  assert (Hok : vector_ok v)
    by (unfold vector_ok, max_array_length; simpl; lia).
  split; [exact Hok|]. exact (sort_sorts v Hok).
Defined.

(** C7: [EnsureCapacity(min)] does nothing when [capacity >= min];
    otherwise the new capacity is the first value of the sequence
    [max(capacity, 1)], doubled repeatedly, that is [>= min], and the [size]
    live elements are moved in order to the front of the new array (unless
    an array of that length cannot be allocated, which throws and changes
    nothing).  [ShrinkCapacity()] does nothing unless [capacity > 4] and
    [size <= capacity / 4]; otherwise the new capacity is
    [max(capacity / 2, size)] and the elements are moved the same way. *)
Theorem capacity_policy (pq : PQHeap) (minCapacity : N) :
  valid pq ->
  (minCapacity <= capacity pq ->
   PQ.EnsureCapacity minCapacity pq = Ok tt pq) /\
  (capacity pq < minCapacity -> minCapacity <= 2 ^ 63 ->
   exists newCapacity,
     first_doubling (N.max (capacity pq) 1) minCapacity newCapacity /\
     PQ.EnsureCapacity minCapacity pq =
     if newCapacity <=? max_array_length
     then Ok tt (relocated pq newCapacity)
     else Throw bad_alloc pq) /\
  (~ (4 < capacity pq /\ size pq <= capacity pq / 4) ->
   PQ.ShrinkCapacity pq = Ok tt pq) /\
  (4 < capacity pq -> size pq <= capacity pq / 4 ->
   PQ.ShrinkCapacity pq =
   Ok tt (relocated pq (N.max (capacity pq / 2) (size pq)))) /\
  (forall newCapacity,
     size (relocated pq newCapacity) = size pq /\
     capacity (relocated pq newCapacity) = newCapacity /\
     (size pq <= newCapacity ->
      length (Elements (relocated pq newCapacity)) = N.to_nat newCapacity) /\
     live (relocated pq newCapacity) = live pq).
Proof.
  intros Hv. pose proof (valid_vector_ok pq Hv) as Hok.
  pose proof Hv as (Hsc & Hcl & Hm).
  split; [apply EnsureCapacity_noop|].
  split.
  { intros Hlt Hmin.
    destruct (EnsureCapacity_grow pq minCapacity Hok ltac:(lia) Hlt Hmin)
      as (newCapacity & Hfd & _ & Hrun).
    exists newCapacity. auto. }
  split; [apply ShrinkCapacity_noop|].
  split; [intros H4 Hq; apply ShrinkCapacity_shrink; try assumption; lia|].
  intros newCapacity. split; [reflexivity|]. split; [reflexivity|]. split.
  - intros Hfit. destruct Hok as [Hl _]. unfold relocated. simpl.
    rewrite length_app, length_take, length_replicate. lia.
  - unfold live. change (size (relocated pq newCapacity)) with (size pq).
    apply relocated_take, Hok.
Qed.

Lemma capacity_policy_witness :
  let pq := mkPQHeap (mkVector [3; 1; 2; 0]%Z 3) 4 in
  valid pq /\
  (5 <= capacity pq -> PQ.EnsureCapacity 5 pq = Ok tt pq) /\
  (capacity pq < 5 -> 5 <= 2 ^ 63 ->
   exists newCapacity,
     first_doubling (N.max (capacity pq) 1) 5 newCapacity /\
     PQ.EnsureCapacity 5 pq =
     if newCapacity <=? max_array_length
     then Ok tt (relocated pq newCapacity)
     else Throw bad_alloc pq) /\
  (~ (4 < capacity pq /\ size pq <= capacity pq / 4) ->
   PQ.ShrinkCapacity pq = Ok tt pq) /\
  (4 < capacity pq -> size pq <= capacity pq / 4 ->
   PQ.ShrinkCapacity pq =
   Ok tt (relocated pq (N.max (capacity pq / 2) (size pq)))) /\
  (forall newCapacity,
     size (relocated pq newCapacity) = size pq /\
     capacity (relocated pq newCapacity) = newCapacity /\
     (size pq <= newCapacity ->
      length (Elements (relocated pq newCapacity)) = N.to_nat newCapacity) /\
     live (relocated pq newCapacity) = live pq).
Proof.
  intros pq.
  assert (Hv : valid pq) by (unfold valid, max_array_length; simpl; lia).
  split; [exact Hv|]. exact (capacity_policy pq 5 Hv).
Defined.

(** C8: on a valid queue, [Tip], [RemoveTip] and [TipNRemove] throw
    EmptyCollection exactly when [size = 0]; the value-based [Change] throws
    NotFound exactly when no live element equals [oldValue]; the index-based
    [Change] throws IndexOutOfRange exactly when [index >= size]; the queue
    at each of these throws is the queue before the call; and in the other
    cases the call returns. *)
Theorem failures_leave_state (pq : PQHeap) (oldValue newValue : Z) (idx : N) :
  valid pq ->
  (size pq = 0 ->
   PQ.Tip pq = Throw EmptyCollection pq /\
   PQ.RemoveTip pq = Throw EmptyCollection pq /\
   PQ.TipNRemove pq = Throw EmptyCollection pq) /\
  (size pq <> 0 ->
   (exists x, PQ.Tip pq = Ok x pq) /\
   (exists pq', PQ.RemoveTip pq = Ok tt pq') /\
   (exists x pq', PQ.TipNRemove pq = Ok x pq')) /\
  ((forall j, (j < N.to_nat (size pq))%nat -> elem (Elements pq) j <> oldValue) ->
   PQ.Change oldValue newValue pq = Throw NotFound pq /\
   PQ.Change_move oldValue newValue pq = Throw NotFound pq) /\
  ((exists j, (j < N.to_nat (size pq))%nat /\ elem (Elements pq) j = oldValue) ->
   exists pq',
     PQ.Change oldValue newValue pq = Ok tt pq' /\
     PQ.Change_move oldValue newValue pq = Ok tt pq') /\
  (size pq <= idx ->
   PQ.Change_at idx newValue pq = Throw IndexOutOfRange pq /\
   PQ.Change_at_move idx newValue pq = Throw IndexOutOfRange pq) /\
  (idx < size pq ->
   exists pq',
     PQ.Change_at idx newValue pq = Ok tt pq' /\
     PQ.Change_at_move idx newValue pq = Ok tt pq').
Proof.
  intros Hv.
  destruct (root_operations pq Hv) as [Hz Hnz].
  pose proof (Change_spec oldValue newValue pq Hv) as HC.
  pose proof (Change_at_spec idx newValue pq Hv) as HA.
  rewrite Change_move_eq, Change_at_move_eq.
  split; [|split; [|split; [|split; [|split]]]].
  - exact Hz.
  - intros H0. destruct (Hnz H0) as (HT & HR & HN & HN').
    split; [eauto|]. split; [exact HR|]. eauto.
  - intros Hnone.
    destruct (PQ.Change oldValue newValue pq) as [[] r|e r| |];
      try contradiction.
    + destruct HC as ((i & Hi & Heq & _) & _). exfalso.
      apply (Hnone (N.to_nat i)); [lia|exact Heq].
    + destruct HC as (_ & -> & ->). auto.
  - intros (j & Hj & Heq).
    destruct (PQ.Change oldValue newValue pq) as [[] r|e r| |];
      try contradiction.
    + eauto.
    + destruct HC as (Hnone & _). exfalso. apply (Hnone j Hj Heq).
  - intros Hout.
    destruct (PQ.Change_at idx newValue pq) as [[] r|e r| |];
      try contradiction.
    + destruct HA as (? & _). lia.
    + destruct HA as (_ & -> & ->). auto.
  - intros Hin.
    destruct (PQ.Change_at idx newValue pq) as [[] r|e r| |];
      try contradiction.
    + eauto.
    + destruct HA as (? & _). lia.
Qed.

Lemma failures_leave_state_witness :
  let pq := mkPQHeap (mkVector [20; 8; 15]%Z 3) 3 in
  valid pq /\
  (size pq = 0 ->
   PQ.Tip pq = Throw EmptyCollection pq /\
   PQ.RemoveTip pq = Throw EmptyCollection pq /\
   PQ.TipNRemove pq = Throw EmptyCollection pq) /\
  (size pq <> 0 ->
   (exists x, PQ.Tip pq = Ok x pq) /\
   (exists pq', PQ.RemoveTip pq = Ok tt pq') /\
   (exists x pq', PQ.TipNRemove pq = Ok x pq')) /\
  ((forall j, (j < N.to_nat (size pq))%nat -> elem (Elements pq) j <> 999%Z) ->
   PQ.Change 999 1 pq = Throw NotFound pq /\
   PQ.Change_move 999 1 pq = Throw NotFound pq) /\
  ((exists j, (j < N.to_nat (size pq))%nat /\ elem (Elements pq) j = 999%Z) ->
   exists pq',
     PQ.Change 999 1 pq = Ok tt pq' /\
     PQ.Change_move 999 1 pq = Ok tt pq') /\
  (size pq <= 10 ->
   PQ.Change_at 10 1 pq = Throw IndexOutOfRange pq /\
   PQ.Change_at_move 10 1 pq = Throw IndexOutOfRange pq) /\
  (10 < size pq ->
   exists pq',
     PQ.Change_at 10 1 pq = Ok tt pq' /\
     PQ.Change_at_move 10 1 pq = Ok tt pq').
Proof.
  intros pq.
  assert (Hv : valid pq) by (unfold valid, max_array_length; simpl; lia).
  split; [exact Hv|]. exact (failures_leave_state pq 999 1 10 Hv).
Defined.

(** C9 does not hold of the code: the queue constructed from the argument 3
    is not empty.  It has size 3 and capacity 3 over three elements of the
    default value, and [Tip()] returns 0 on it where the constructor's
    documentation ("creates an empty priority queue with pre-allocated
    space") has it throw EmptyCollection. *)
Lemma size_constructor_not_empty :
  Client.new_size 3 = Ok tt (mkPQHeap (mkVector [0; 0; 0]%Z 3) 3) /\
  PQ.Tip (mkPQHeap (mkVector [0; 0; 0]%Z 3) 3)
  = Ok 0%Z (mkPQHeap (mkVector [0; 0; 0]%Z 3) 3).
Proof. split; vm_compute; reflexivity. Qed.

(** The same at every argument [c]: the constructed queue holds [c] live
    elements, all of the default value 0, with size [c] and capacity [c];
    it is empty, and [Tip], [RemoveTip] and [TipNRemove] throw
    EmptyCollection on it, only when [c = 0]; otherwise [Tip()] returns
    0. *)
Theorem size_constructor (c : N) :
  c <= max_array_length ->
  exists pq,
    Client.new_size c = Ok tt pq /\
    size pq = c /\ capacity pq = c /\
    Elements pq = replicate (N.to_nat c) 0%Z /\
    (c = 0 ->
     PQ.Tip pq = Throw EmptyCollection pq /\
     PQ.RemoveTip pq = Throw EmptyCollection pq /\
     PQ.TipNRemove pq = Throw EmptyCollection pq) /\
    (c <> 0 ->
     PQ.Tip pq = Ok 0%Z pq /\
     (exists pq', PQ.RemoveTip pq = Ok tt pq') /\
     (exists pq', PQ.TipNRemove pq = Ok 0%Z pq')).
Proof.
  intros Hc.
  set (pq := mkPQHeap (mkVector (replicate (N.to_nat c) 0%Z) c) c).
  assert (Hv : valid pq).
  { unfold valid, pq. simpl. rewrite length_replicate. lia. }
  exists pq. split.
  { unfold Client.new_size, PQ.PQHeap_size, HeapVec.HeapVec_size,
      VectorImpl.Vector_size, alloc, bind, lift, set_capacity, modify, ret.
    simpl. destruct (N.leb_spec c max_array_length); [reflexivity|lia]. }
  split; [reflexivity|]. split; [reflexivity|]. split; [reflexivity|].
  destruct (root_operations pq Hv) as [Hz Hnz].
  split; [exact Hz|].
  intros Hne. specialize (Hnz Hne).
  assert (Hroot : elem (Elements pq) 0 = 0%Z).
  { unfold pq, elem. simpl. rewrite nth_lookup.
    rewrite lookup_replicate_2 by lia. reflexivity. }
  rewrite Hroot in Hnz. exact Hnz.
Qed.

Lemma size_constructor_witness :
  3 <= max_array_length /\
  exists pq,
    Client.new_size 3 = Ok tt pq /\
    size pq = 3 /\ capacity pq = 3 /\
    Elements pq = replicate (N.to_nat 3) 0%Z /\
    (3 = 0 ->
     PQ.Tip pq = Throw EmptyCollection pq /\
     PQ.RemoveTip pq = Throw EmptyCollection pq /\
     PQ.TipNRemove pq = Throw EmptyCollection pq) /\
    (3 <> 0 ->
     PQ.Tip pq = Ok 0%Z pq /\
     (exists pq', PQ.RemoveTip pq = Ok tt pq') /\
     (exists pq', PQ.TipNRemove pq = Ok 0%Z pq')).
Proof.
  assert (Hc : 3 <= max_array_length) by (unfold max_array_length; lia).
  split; [exact Hc|]. exact (size_constructor 3 Hc).
Defined.

(** C10: two queues of equal size whose elements are equal at every index
    compare equal under [operator==], and not different under [operator!=],
    whatever their capacities. *)
Theorem equality_ignores_capacity (v1 v2 : Vector) (c1 c2 : N) :
  vector_ok v1 -> vector_ok v2 ->
  size v1 = size v2 ->
  (forall i, (i < N.to_nat (size v1))%nat ->
             elem (Elements v1) i = elem (Elements v2) i) ->
  PQ.operator_eq (mkPQHeap v2 c2) (mkPQHeap v1 c1)
  = Ok true (mkPQHeap v1 c1) /\
  PQ.operator_ne (mkPQHeap v2 c2) (mkPQHeap v1 c1)
  = Ok false (mkPQHeap v1 c1).
Proof.
  intros Hok1 Hok2 Hsz Hall.
  destruct (operator_eq_spec v2 v1 Hok1 (fun _ => Hok2)) as (b & Hrun & Hb).
  assert (b = true) as -> by (apply Hb; auto).
  assert (Heq : PQ.operator_eq (mkPQHeap v2 c2) (mkPQHeap v1 c1)
                = Ok true (mkPQHeap v1 c1)).
  { unfold PQ.operator_eq, HeapVec.operator_eq.
    apply (lift_Ok _ (mkPQHeap v1 c1)). exact Hrun. }
  split; [exact Heq|].
  unfold PQ.operator_ne. rewrite (bind_Ok _ _ _ _ _ Heq). reflexivity.
Qed.

Lemma equality_ignores_capacity_witness :
  let v1 := mkVector [3; 1; 2]%Z 3 in
  let v2 := mkVector [3; 1; 2; 0]%Z 3 in
  vector_ok v1 /\ vector_ok v2 /\ size v1 = size v2 /\
  (forall i, (i < N.to_nat (size v1))%nat ->
             elem (Elements v1) i = elem (Elements v2) i) /\
  PQ.operator_eq (mkPQHeap v2 4) (mkPQHeap v1 3) = Ok true (mkPQHeap v1 3) /\
  PQ.operator_ne (mkPQHeap v2 4) (mkPQHeap v1 3) = Ok false (mkPQHeap v1 3).
Proof.
  intros v1 v2.
  assert (H1 : vector_ok v1)
    by (unfold vector_ok, max_array_length; simpl; lia).
  assert (H2 : vector_ok v2)
    by (unfold vector_ok, max_array_length; simpl; lia).
  assert (Hs : size v1 = size v2) by reflexivity.
  assert (He : forall i, (i < N.to_nat (size v1))%nat ->
                         elem (Elements v1) i = elem (Elements v2) i).
  { intros i Hi. simpl in Hi.
    destruct i as [|[|[|i]]]; [reflexivity|reflexivity|reflexivity|lia]. }
  split; [exact H1|]. split; [exact H2|]. split; [exact Hs|].
  split; [exact He|]. exact (equality_ignores_capacity v1 v2 3 4 H1 H2 Hs He).
Defined.

(* ===================================================================== *)
(** * Further properties of the code *)

(** ** Access to the elements of a vector *)

Section VectorAccess.
Local Open Scope N_scope.

Lemma length_items (v : Vector) :
  vector_ok v -> length (items v) = N.to_nat (size v).
Proof. intros [H _]. unfold items. rewrite length_take. lia. Qed.

Lemma items_lookup (v : Vector) (i : nat) :
  vector_ok v -> (i < N.to_nat (size v))%nat ->
  items v !! i = Some (elem (Elements v) i).
Proof.
  intros [H _] Hi. unfold items. rewrite lookup_take_lt by lia.
  apply lookup_elem. lia.
Qed.

Lemma copied_length src c i :
  (i <= c)%nat -> (i <= length src)%nat -> length (copied src c i) = c.
Proof.
  intros. unfold copied. rewrite length_app, length_take, length_replicate. lia.
Qed.

Lemma copied_step src c i :
  (i < c)%nat -> (i < length src)%nat ->
  <[i := elem src i]> (copied src c i) = copied src c (S i).
Proof.
  intros Hc Hi. unfold copied.
  rewrite insert_app_r_alt by (rewrite length_take; lia).
  rewrite length_take.
  replace (i `min` length src)%nat with i by lia.
  replace (i - i)%nat with 0%nat by lia.
  replace (c - i)%nat with (S (c - S i)) by lia.
  rewrite (take_S_r _ _ (elem src i)) by (apply lookup_elem; lia).
  simpl. rewrite <- app_assoc. reflexivity.
Qed.

Lemma operator_at_Ok (v : Vector) (index : N) :
  vector_ok v -> index < size v ->
  VectorImpl.operator_at index v = Ok (elem (Elements v) (N.to_nat index)) v.
Proof.
  intros [Hok _] H. unfold VectorImpl.operator_at. run_step.
  destruct (N.leb_spec (size v) index); [lia|]. apply load_Ok. lia.
Qed.

Lemma operator_at_put_Ok (v : Vector) (index : N) x :
  vector_ok v -> index < size v ->
  VectorImpl.operator_at_put index x v =
  Ok tt (mkVector (<[N.to_nat index := x]> (Elements v)) (size v)).
Proof.
  intros [Hok _] H. unfold VectorImpl.operator_at_put. run_step.
  destruct (N.leb_spec (size v) index); [lia|]. apply store_Ok. lia.
Qed.

Lemma items_insert (v : Vector) (i : nat) x :
  items (mkVector (<[i := x]> (Elements v)) (size v)) = <[i := x]> (items v).
Proof.
  unfold items. simpl.
  destruct (decide (i < N.to_nat (size v))%nat).
  - rewrite take_insert_lt by assumption. reflexivity.
  - rewrite take_insert_ge by lia.
    symmetry. apply list_insert_ge. rewrite length_take. lia.
Qed.

Lemma vector_ok_insert (v : Vector) (i : nat) x :
  vector_ok v -> vector_ok (mkVector (<[i := x]> (Elements v)) (size v)).
Proof. unfold vector_ok. simpl. rewrite length_insert. tauto. Qed.
End VectorAccess.

Section VectorProps.
Local Open Scope N_scope.

(** X1: on a vector whose live elements lie inside its array, [operator[]]
    returns the element at [index] exactly when [index < size]; otherwise
    it throws [std::out_of_range] with the message "Access at index <index>
    on vector of size <size>", also when the index is inside the allocated
    array.  The vector is the same afterwards in both cases. *)
Theorem index_access (v : Vector) (index : N) :
  vector_ok v ->
  match VectorImpl.operator_at index v with
  | Ok y v' =>
      v' = v /\ index < size v /\ items v !! N.to_nat index = Some y
  | Throw e v' =>
      v' = v /\ size v <= index /\
      e = out_of_range
            ("Access at index " ++ VectorImpl.to_string index
             ++ " on vector of size " ++ VectorImpl.to_string (size v))
  | _ => False
  end.
Proof.
  intros Hok. destruct (N.lt_ge_cases index (size v)) as [Hlt|Hge].
  - rewrite operator_at_Ok by assumption.
    split; [reflexivity|]. split; [exact Hlt|].
    apply items_lookup; [exact Hok|lia].
  - unfold VectorImpl.operator_at. run_step.
    destruct (N.leb_spec (size v) index); [|lia].
    split; [reflexivity|]. split; [exact Hge|reflexivity].
Qed.

Lemma index_access_witness :
  let v := mkVector [7; 8; 9; 0]%Z 3 in
  vector_ok v /\
  match VectorImpl.operator_at 3 v with
  | Ok y v' => v' = v /\ 3 < size v /\ items v !! N.to_nat 3 = Some y
  | Throw e v' =>
      v' = v /\ size v <= 3 /\
      e = out_of_range
            ("Access at index " ++ VectorImpl.to_string 3
             ++ " on vector of size " ++ VectorImpl.to_string (size v))
  | _ => False
  end.
Proof.
  assert (H : vector_ok (mkVector [7; 8; 9; 0]%Z 3)).
  { unfold vector_ok, max_array_length. simpl. lia. }
  split; [exact H|]. exact (index_access _ 3 H).
Defined.

(** X2: for [index < size], the assignment [v[index] = x] changes the
    live element at [index] and nothing else: [v[index]] then reads [x],
    every other index reads (or throws) as before, and the size is
    unchanged. *)
Theorem index_assign_then_read (v : Vector) (index : N) (x : Z) :
  vector_ok v -> index < size v ->
  exists v',
    VectorImpl.operator_at_put index x v = Ok tt v' /\
    vector_ok v' /\ size v' = size v /\
    items v' = <[N.to_nat index := x]> (items v) /\
    VectorImpl.operator_at index v' = Ok x v' /\
    forall j, j <> index ->
      VectorImpl.operator_at j v' =
      match VectorImpl.operator_at j v with
      | Ok y _ => Ok y v'
      | Throw e _ => Throw e v'
      | Fault => Fault
      | Diverge => Diverge
      end.
Proof.
  intros Hok Hlt. eexists. split; [apply operator_at_put_Ok; assumption|].
  assert (Hok' := vector_ok_insert v (N.to_nat index) x Hok).
  split; [exact Hok'|]. split; [reflexivity|].
  split; [apply items_insert|].
  assert (Hlen : (N.to_nat index < length (Elements v))%nat).
  { destruct Hok. lia. }
  split.
  - rewrite operator_at_Ok by assumption. simpl.
    rewrite elem_insert by exact Hlen. rewrite decide_True by reflexivity.
    reflexivity.
  - intros j Hj. destruct (N.lt_ge_cases j (size v)) as [Hjlt|Hjge].
    + rewrite !operator_at_Ok by assumption. simpl.
      rewrite elem_insert by exact Hlen. rewrite decide_False by lia.
      reflexivity.
    + unfold VectorImpl.operator_at. run_step. simpl.
      destruct (N.leb_spec (size v) j); [reflexivity|lia].
Qed.

Lemma index_assign_then_read_witness :
  let v := mkVector [7; 8; 9; 0]%Z 3 in
  vector_ok v /\ 1 < size v /\
  exists v',
    VectorImpl.operator_at_put 1 5 v = Ok tt v' /\
    vector_ok v' /\ size v' = size v /\
    items v' = <[N.to_nat 1 := 5%Z]> (items v) /\
    VectorImpl.operator_at 1 v' = Ok 5%Z v' /\
    forall j, j <> 1 ->
      VectorImpl.operator_at j v' =
      match VectorImpl.operator_at j v with
      | Ok y _ => Ok y v'
      | Throw e _ => Throw e v'
      | Fault => Fault
      | Diverge => Diverge
      end.
Proof.
  assert (H : vector_ok (mkVector [7; 8; 9; 0]%Z 3)).
  { unfold vector_ok, max_array_length. simpl. lia. }
  split; [exact H|]. split; [reflexivity|].
  exact (index_assign_then_read _ 1 5%Z H eq_refl).
Defined.

(** X3: [Front()] and [Back()] throw [std::length_error] with the message
    "Access to an empty vector" exactly on a vector of size 0; otherwise
    they return the first and the last live element, the same values as
    [operator[]] at [0] and at [size - 1]. *)
Theorem front_back (v : Vector) :
  vector_ok v ->
  (size v = 0 ->
   VectorImpl.Front v = Throw (length_error "Access to an empty vector") v /\
   VectorImpl.Back v = Throw (length_error "Access to an empty vector") v) /\
  (size v <> 0 ->
   exists x y,
     head (items v) = Some x /\ last (items v) = Some y /\
     VectorImpl.Front v = Ok x v /\ VectorImpl.Back v = Ok y v /\
     VectorImpl.operator_at 0 v = Ok x v /\
     VectorImpl.operator_at (size v - 1) v = Ok y v).
Proof.
  intros Hok. split.
  - intros H0. unfold VectorImpl.Front, VectorImpl.Back. run_step.
    rewrite H0. simpl. split; reflexivity.
  - intros Hne. assert (Hlen := length_items v Hok).
    exists (elem (Elements v) 0), (elem (Elements v) (N.to_nat (size v - 1))).
    split; [|split].
    + rewrite head_lookup. apply items_lookup; [exact Hok|lia].
    + rewrite last_lookup, Hlen.
      replace (Nat.pred (N.to_nat (size v))) with (N.to_nat (size v - 1)) by lia.
      apply items_lookup; [exact Hok|lia].
    + destruct (vector_ok_index v 0 Hok ltac:(lia)) as (_ & Hs62 & Hl).
      unfold VectorImpl.Front, VectorImpl.Back. run_step.
      destruct (N.eqb_spec (size v) 0) as [|_]; [contradiction|].
      rewrite sub_nowrap by lia.
      rewrite !load_Ok by lia.
      rewrite !operator_at_Ok by (assumption || lia).
      repeat split; reflexivity.
Qed.

Lemma front_back_witness :
  let v := mkVector [7; 8; 9; 0]%Z 3 in
  vector_ok v /\
  (size v = 0 ->
   VectorImpl.Front v = Throw (length_error "Access to an empty vector") v /\
   VectorImpl.Back v = Throw (length_error "Access to an empty vector") v) /\
  (size v <> 0 ->
   exists x y,
     head (items v) = Some x /\ last (items v) = Some y /\
     VectorImpl.Front v = Ok x v /\ VectorImpl.Back v = Ok y v /\
     VectorImpl.operator_at 0 v = Ok x v /\
     VectorImpl.operator_at (size v - 1) v = Ok y v).
Proof.
  assert (H : vector_ok (mkVector [7; 8; 9; 0]%Z 3)).
  { unfold vector_ok, max_array_length. simpl. lia. }
  split; [exact H|]. exact (front_back _ H).
Defined.
End VectorProps.

(** ** Storage of a vector: resizing, copying, comparing, constructing *)

Section VectorStorage.
Local Open Scope N_scope.

(** The copying loop of [Resize]. *)
Lemma resize_loop_spec (v : Vector) (m : N) (c : nat) :
  vector_ok v -> m <= size v -> (N.to_nat m <= c)%nat ->
  loop (S (N.to_nat m)) (VectorImpl.resize_step m) (0, replicate c 0%Z) v =
  Ok (copied (Elements v) c (N.to_nat m)) v.
Proof.
  intros Hok Hm Hc.
  destruct (loop_rule (VectorImpl.resize_step m)
    (fun st s => s = v /\ fst st <= m /\
                 snd st = copied (Elements v) c (N.to_nat (fst st)))
    (fun a s => s = v /\ a = copied (Elements v) c (N.to_nat m))
    (fun st _ => N.to_nat (m - fst st)))
    with (fuel := S (N.to_nat m)) (v := (0, replicate c 0%Z)) (s := v)
    as (a & s' & Hrun & -> & ->); [| | |exact Hrun].
  - intros [i a] s (-> & Hi & Ha). simpl in Hi, Ha.
    unfold VectorImpl.resize_step. run_step.
    destruct (N.ltb_spec i m) as [Hlt|Hge].
    2:{ split; [reflexivity|]. assert (i = m) as -> by lia. exact Ha. }
    destruct (vector_ok_index v i Hok ltac:(lia)) as (Hi62 & Hs62 & Hl).
    rewrite load_Ok by lia.
    assert (Hla : length a = c) by (rewrite Ha; apply copied_length; lia).
    rewrite wr_Some by lia. run_step. simpl fst. simpl snd.
    rewrite add_nowrap by lia.
    split; [|lia]. split; [reflexivity|]. split; [lia|].
    rewrite Ha, copied_step by lia. f_equal. lia.
  - simpl. split; [reflexivity|]. split; [lia|].
    unfold copied. simpl. rewrite Nat.sub_0_r. reflexivity.
  - simpl. lia.
Qed.

Lemma alloc_Ok {St} (n : N) (s : St) :
  n <= max_array_length -> alloc n s = Ok (replicate (N.to_nat n) 0%Z) s.
Proof.
  intros H. unfold alloc. destruct (N.leb_spec n max_array_length); [|lia].
  reflexivity.
Qed.

Lemma alloc_Throw {St} (n : N) (s : St) :
  max_array_length < n -> alloc n s = Throw bad_alloc s.
Proof.
  intros H. unfold alloc. destruct (N.leb_spec n max_array_length); [lia|].
  reflexivity.
Qed.

(** The runs of [Resize] that change the vector. *)
Lemma Resize_zero (v : Vector) :
  size v <> 0 -> VectorImpl.Resize 0 v = Ok tt (mkVector [] 0).
Proof.
  intros Hne. unfold VectorImpl.Resize. run_step.
  destruct (N.eqb_spec 0 (size v)); [congruence|reflexivity].
Qed.

Lemma Resize_run (v : Vector) (newSize : N) :
  vector_ok v -> newSize <> size v -> newSize <> 0 ->
  VectorImpl.Resize newSize v =
  if newSize <=? max_array_length
  then Ok tt (mkVector (copied (Elements v) (N.to_nat newSize)
                               (N.to_nat (N.min (size v) newSize)))
                       newSize)
  else Throw bad_alloc v.
Proof.
  intros Hok Hne Hne0. unfold VectorImpl.Resize. run_step.
  destruct (N.eqb_spec newSize (size v)); [contradiction|].
  destruct (N.eqb_spec newSize 0); [contradiction|].
  destruct (N.leb_spec newSize max_array_length) as [Hle|Hgt].
  2:{ rewrite alloc_Throw by exact Hgt. reflexivity. }
  rewrite alloc_Ok by exact Hle.
  replace (if size v <? newSize then size v else newSize)
    with (N.min (size v) newSize)
    by (destruct (N.ltb_spec (size v) newSize); lia).
  rewrite resize_loop_spec by (assumption || lia). reflexivity.
Qed.

(** X4: [Resize(newSize)] returns with [size = newSize], the first
    [min(size, newSize)] live elements kept in order and the new elements,
    if any, of the default value; unless [newSize] is the current size,
    the array then has exactly [newSize] slots.  When the new array cannot
    be allocated it throws [std::bad_alloc] and the vector is unchanged. *)
Theorem resize_keeps_prefix (v : Vector) (newSize : N) :
  vector_ok v ->
  match VectorImpl.Resize newSize v with
  | Ok _ v' =>
      vector_ok v' /\ size v' = newSize /\
      items v' = take (N.to_nat newSize) (items v)
                 ++ replicate (N.to_nat newSize - N.to_nat (size v)) 0%Z /\
      (newSize <> size v -> length (Elements v') = N.to_nat newSize)
  | Throw e v' => e = bad_alloc /\ v' = v /\ max_array_length < newSize
  | _ => False
  end.
Proof.
  intros Hok. assert (Hlen := length_items v Hok).
  destruct (N.eq_dec newSize (size v)) as [->|Hne].
  { unfold VectorImpl.Resize. run_step. rewrite N.eqb_refl.
    split; [exact Hok|]. split; [reflexivity|]. split; [|congruence].
    rewrite take_ge by lia. rewrite Nat.sub_diag, app_nil_r. reflexivity. }
  destruct (N.eq_dec newSize 0) as [->|Hne0].
  { rewrite Resize_zero by congruence.
    split; [|split; [reflexivity|split; reflexivity]].
    unfold vector_ok, max_array_length. simpl. lia. }
  rewrite Resize_run by assumption.
  destruct (N.leb_spec newSize max_array_length) as [Hle|Hgt]; [|auto].
  set (m := N.min (size v) newSize).
  assert (Hl : length (copied (Elements v) (N.to_nat newSize) (N.to_nat m))
               = N.to_nat newSize).
  { apply copied_length; [lia|]. destruct Hok. lia. }
  split; [|split; [reflexivity|split; [|intros _; exact Hl]]].
  { unfold vector_ok. simpl. rewrite Hl. lia. }
  unfold items at 1. simpl. rewrite take_ge by lia.
  unfold copied, items. rewrite take_take.
  f_equal; [f_equal|f_equal]; lia.
Qed.

Lemma resize_keeps_prefix_witness :
  let v := mkVector [7; 8; 9; 0]%Z 3 in
  vector_ok v /\
  match VectorImpl.Resize 5 v with
  | Ok _ v' =>
      vector_ok v' /\ size v' = 5 /\
      items v' = take (N.to_nat 5) (items v)
                 ++ replicate (N.to_nat 5 - N.to_nat (size v)) 0%Z /\
      (5 <> size v -> length (Elements v') = N.to_nat 5)
  | Throw e v' => e = bad_alloc /\ v' = v /\ max_array_length < 5
  | _ => False
  end.
Proof.
  assert (H : vector_ok (mkVector [7; 8; 9; 0]%Z 3)).
  { unfold vector_ok, max_array_length. simpl. lia. }
  split; [exact H|]. exact (resize_keeps_prefix _ 5 H).
Defined.

(** The copying loops of the copy constructor and of the copy
    assignment. *)
Lemma copy_loop_spec (vector : Vector) :
  vector_ok vector ->
  loop (S (N.to_nat (size vector))) (VectorImpl.copy_step vector) 0
       (mkVector (replicate (N.to_nat (size vector)) 0%Z) (size vector)) =
  Ok tt (mkVector (items vector) (size vector)).
Proof.
  intros Hok. set (n := N.to_nat (size vector)).
  destruct (loop_rule (VectorImpl.copy_step vector)
    (fun i s => i <= size vector /\
                s = mkVector (copied (Elements vector) n (N.to_nat i))
                             (size vector))
    (fun _ s => s = mkVector (items vector) (size vector))
    (fun i _ => N.to_nat (size vector - i)))
    with (fuel := S n) (v := 0)
         (s := mkVector (replicate n 0%Z) (size vector))
    as ([] & s' & Hrun & ->); [| | |exact Hrun].
  - intros i s (Hi & ->).
    unfold VectorImpl.copy_step. run_step. cbn [size].
    destruct (N.ltb_spec i (size vector)) as [Hlt|Hge].
    2:{ assert (i = size vector) as -> by lia. unfold copied, items.
        fold n. rewrite Nat.sub_diag, app_nil_r. reflexivity. }
    destruct (vector_ok_index vector i Hok ltac:(lia)) as (Hi62 & Hs62 & Hl).
    rewrite rd_elem by lia.
    rewrite store_Ok by (simpl; rewrite copied_length; lia).
    simpl. rewrite add_nowrap by lia.
    split; [|lia]. split; [lia|].
    rewrite copied_step by lia. do 2 f_equal. lia.
  - split; [lia|]. unfold copied. simpl. rewrite Nat.sub_0_r. reflexivity.
  - simpl. lia.
Qed.

Lemma assign_loop_spec (vector this : Vector) :
  vector_ok vector ->
  loop (S (N.to_nat (size vector))) (VectorImpl.assign_step vector)
       (0, replicate (N.to_nat (size vector)) 0%Z) this =
  Ok (items vector) this.
Proof.
  intros Hok. set (n := N.to_nat (size vector)).
  destruct (loop_rule (VectorImpl.assign_step vector)
    (fun st s => s = this /\ fst st <= size vector /\
                 snd st = copied (Elements vector) n (N.to_nat (fst st)))
    (fun a s => s = this /\ a = items vector)
    (fun st _ => N.to_nat (size vector - fst st)))
    with (fuel := S n) (v := (0, replicate n 0%Z)) (s := this)
    as (a & s' & Hrun & -> & ->); [| | |exact Hrun].
  - intros [i a] s (-> & Hi & Ha). simpl in Hi, Ha.
    unfold VectorImpl.assign_step. run_step.
    destruct (N.ltb_spec i (size vector)) as [Hlt|Hge].
    2:{ split; [reflexivity|]. assert (i = size vector) as -> by lia.
        rewrite Ha. unfold copied, items. fold n.
        rewrite Nat.sub_diag, app_nil_r. reflexivity. }
    destruct (vector_ok_index vector i Hok ltac:(lia)) as (Hi62 & Hs62 & Hl).
    rewrite rd_elem by lia.
    assert (Hla : length a = n) by (rewrite Ha; apply copied_length; lia).
    rewrite wr_Some by lia. run_step. simpl fst. simpl snd.
    rewrite add_nowrap by lia.
    split; [|lia]. split; [reflexivity|]. split; [lia|].
    rewrite Ha, copied_step by lia. f_equal. lia.
  - simpl. split; [reflexivity|]. split; [lia|].
    unfold copied. simpl. rewrite Nat.sub_0_r. reflexivity.
  - simpl. lia.
Qed.

Lemma vector_ok_size (v : Vector) : vector_ok v -> size v <= max_array_length.
Proof. intros [H1 H2]. lia. Qed.

Lemma items_eq_iff (v other : Vector) :
  vector_ok v -> vector_ok other ->
  items v = items other <->
  size v = size other /\
  forall i, (i < N.to_nat (size v))%nat ->
            elem (Elements v) i = elem (Elements other) i.
Proof.
  intros Hv Ho. split.
  - intros Heq. assert (Hsz : size v = size other).
    { apply (f_equal length) in Heq. rewrite !length_items in Heq by assumption.
      lia. }
    split; [exact Hsz|]. intros i Hi.
    assert (Hl := f_equal (fun l => l !! i) Heq). simpl in Hl.
    rewrite !items_lookup in Hl by (assumption || lia). congruence.
  - intros [Hsz Hall]. apply list_eq. intros i.
    destruct (decide (i < N.to_nat (size v))%nat) as [Hi|Hi].
    + rewrite !items_lookup by (assumption || lia). f_equal. apply Hall, Hi.
    + rewrite !lookup_ge_None_2; [reflexivity| |];
        rewrite length_items by assumption; lia.
Qed.

Lemma operator_eq_true (v other : Vector) :
  vector_ok v -> vector_ok other -> items v = items other ->
  VectorImpl.operator_eq other v = Ok true v.
Proof.
  intros Hv Ho Heq.
  destruct (operator_eq_spec other v Hv (fun _ => Ho)) as (b & Hrun & Hb).
  rewrite <- items_eq_iff in Hb by assumption.
  apply Hb in Heq. subst b. exact Hrun.
Qed.

(** X5: [operator==] returns true exactly when the two vectors hold the
    same sequence of live elements (so it is false when the sizes differ or
    an element differs), [operator!=] returns the negation, and neither
    changes the vector nor reads a slot beyond [size]. *)
Theorem vector_equality (v other : Vector) :
  vector_ok v -> vector_ok other ->
  VectorImpl.operator_eq other v
  = Ok (bool_decide (items v = items other)) v /\
  VectorImpl.operator_ne other v
  = Ok (negb (bool_decide (items v = items other))) v.
Proof.
  intros Hv Ho.
  destruct (operator_eq_spec other v Hv (fun _ => Ho)) as (b & Hrun & Hb).
  rewrite <- items_eq_iff in Hb by assumption.
  assert (b = bool_decide (items v = items other)) as <-.
  { destruct b.
    - symmetry. apply bool_decide_eq_true. apply Hb. reflexivity.
    - symmetry. apply bool_decide_eq_false. intros H. apply Hb in H.
      discriminate. }
  split; [exact Hrun|].
  unfold VectorImpl.operator_ne, bind. rewrite Hrun. reflexivity.
Qed.

Lemma vector_equality_witness :
  let v := mkVector [7; 8; 9; 1]%Z 3 in
  let other := mkVector [7; 8; 9]%Z 3 in
  vector_ok v /\ vector_ok other /\
  VectorImpl.operator_eq other v
  = Ok (bool_decide (items v = items other)) v /\
  VectorImpl.operator_ne other v
  = Ok (negb (bool_decide (items v = items other))) v.
Proof.
  assert (H1 : vector_ok (mkVector [7; 8; 9; 1]%Z 3)).
  { unfold vector_ok, max_array_length. simpl. lia. }
  assert (H2 : vector_ok (mkVector [7; 8; 9]%Z 3)).
  { unfold vector_ok, max_array_length. simpl. lia. }
  split; [exact H1|]. split; [exact H2|]. exact (vector_equality _ _ H1 H2).
Defined.

Lemma items_full (l : list Z) (n : N) :
  n = N.of_nat (length l) -> items (mkVector l n) = l.
Proof. intros ->. unfold items. simpl. rewrite Nat2N.id. apply firstn_all. Qed.

(** X6: the copy constructor and the copy assignment give the same
    vector, whatever the target held before: an array of exactly [size]
    slots holding the live elements of the source, of the same size.  The
    copy and the source compare equal under [operator==] in both
    directions. *)
Theorem copy_is_equal (vector this : Vector) :
  vector_ok vector ->
  exists cp,
    VectorImpl.Vector_copy vector VectorImpl.fresh = Ok tt cp /\
    VectorImpl.copy_assign vector this = Ok tt cp /\
    Elements cp = items vector /\ size cp = size vector /\
    VectorImpl.operator_eq vector cp = Ok true cp /\
    VectorImpl.operator_eq cp vector = Ok true vector.
Proof.
  intros Hok. assert (Hsz := vector_ok_size vector Hok).
  assert (Hlen := length_items vector Hok).
  set (cp := mkVector (items vector) (size vector)).
  assert (Hcp : vector_ok cp).
  { unfold vector_ok, cp. simpl. rewrite Hlen. lia. }
  assert (Hi : items cp = items vector).
  { apply items_full. rewrite Hlen. lia. }
  exists cp. split; [|split; [|split; [reflexivity|split; [reflexivity|]]]].
  - unfold VectorImpl.Vector_copy, VectorImpl.fresh. run_step. cbn [size].
    rewrite alloc_Ok by exact Hsz. cbn [Elements size].
    apply copy_loop_spec, Hok.
  - unfold VectorImpl.copy_assign. unfold bind at 1.
    rewrite alloc_Ok by exact Hsz. unfold bind at 1.
    rewrite assign_loop_spec by exact Hok. reflexivity.
  - split; apply operator_eq_true; auto.
Qed.

Lemma copy_is_equal_witness :
  let vector := mkVector [7; 8; 9; 1]%Z 3 in
  let this := mkVector [4]%Z 1 in
  vector_ok vector /\
  exists cp,
    VectorImpl.Vector_copy vector VectorImpl.fresh = Ok tt cp /\
    VectorImpl.copy_assign vector this = Ok tt cp /\
    Elements cp = items vector /\ size cp = size vector /\
    VectorImpl.operator_eq vector cp = Ok true cp /\
    VectorImpl.operator_eq cp vector = Ok true vector.
Proof.
  assert (H : vector_ok (mkVector [7; 8; 9; 1]%Z 3)).
  { unfold vector_ok, max_array_length. simpl. lia. }
  split; [exact H|]. exact (copy_is_equal _ (mkVector [4]%Z 1) H).
Defined.

(** The constructors from a container, when the array can be allocated. *)
Lemma Vector_container_Ok (container : list Z) :
  N.of_nat (length container) <= max_array_length ->
  VectorImpl.Vector_container container VectorImpl.fresh
  = Ok tt (mkVector container (N.of_nat (length container))).
Proof.
  intros H. unfold VectorImpl.Vector_container. unfold bind at 1.
  rewrite alloc_Ok by exact H. unfold bind, modify. rewrite Nat2N.id.
  apply fill_loop_spec. exact H.
Qed.

Lemma Vector_container_move_Ok (container : list Z) :
  N.of_nat (length container) <= max_array_length ->
  VectorImpl.Vector_container_move container VectorImpl.fresh
  = Ok (replicate (length container) 0%Z)
       (mkVector container (N.of_nat (length container))).
Proof.
  intros H. unfold VectorImpl.Vector_container_move. unfold bind at 1.
  rewrite alloc_Ok by exact H. unfold bind, modify. rewrite Nat2N.id.
  apply take_loop_spec. exact H.
Qed.

(** X7: a vector constructed from a container holds the elements of the
    container's traversal, in order, with the container's size; the moving
    constructor exchanges them with default values, so that the container
    keeps its length and is left with default elements only.  When an array
    of that length cannot be allocated both constructors throw
    [std::bad_alloc]. *)
Theorem construct_from_container (container : list Z) :
  let n := N.of_nat (length container) in
  (n <= max_array_length ->
   VectorImpl.Vector_container container VectorImpl.fresh
   = Ok tt (mkVector container n) /\
   VectorImpl.Vector_container_move container VectorImpl.fresh
   = Ok (replicate (length container) 0%Z) (mkVector container n)) /\
  (max_array_length < n ->
   VectorImpl.Vector_container container VectorImpl.fresh
   = Throw bad_alloc VectorImpl.fresh /\
   VectorImpl.Vector_container_move container VectorImpl.fresh
   = Throw bad_alloc VectorImpl.fresh).
Proof.
  intros n. split; intros H.
  - split; [apply Vector_container_Ok|apply Vector_container_move_Ok];
      exact H.
  - unfold VectorImpl.Vector_container, VectorImpl.Vector_container_move.
    fold n. unfold bind at 1 3. rewrite !alloc_Throw by exact H.
    split; reflexivity.
Qed.

Lemma construct_from_container_witness :
  N.of_nat (length [4; 5; 6]%Z) <= max_array_length /\
  VectorImpl.Vector_container [4; 5; 6]%Z VectorImpl.fresh
  = Ok tt (mkVector [4; 5; 6]%Z 3) /\
  VectorImpl.Vector_container_move [4; 5; 6]%Z VectorImpl.fresh
  = Ok [0; 0; 0]%Z (mkVector [4; 5; 6]%Z 3).
Proof.
  assert (H : N.of_nat (length [4; 5; 6]%Z) <= max_array_length).
  { unfold max_array_length. simpl. lia. }
  split; [exact H|].
  exact (proj1 (construct_from_container [4; 5; 6]%Z) H).
Defined.
End VectorStorage.

(** ** Comparison of vectors as linear containers *)

Section LinearCompare.
Local Open Scope N_scope.

Lemma Linear_eq_loop (con v : Vector) :
  vector_ok v -> vector_ok con -> size v = size con ->
  loop (S (N.to_nat (size v))) (Linear.eq_step con) 0 v
  = loop (S (N.to_nat (size v))) (VectorImpl.eq_step con) 0 v.
Proof.
  intros Hv Hc Hsz.
  assert (Hstep : forall i, Linear.eq_step con i v = VectorImpl.eq_step con i v).
  { intros i. unfold Linear.eq_step, VectorImpl.eq_step. run_step.
    destruct (N.ltb_spec i (size v)) as [Hlt|Hge]; [|reflexivity].
    destruct (vector_ok_index v i Hv ltac:(lia)) as (_ & _ & Hl).
    destruct (vector_ok_index con i Hc ltac:(lia)) as (_ & _ & Hlc).
    rewrite operator_at_Ok by assumption. rewrite load_Ok by lia.
    unfold Linear.on_other.
    rewrite operator_at_Ok by (assumption || lia).
    rewrite rd_elem by lia. reflexivity. }
  assert (Hkeep : forall i, match VectorImpl.eq_step con i v with
                            | Ok _ s => s = v | _ => True end).
  { intros i. unfold VectorImpl.eq_step. run_step.
    destruct (N.ltb_spec i (size v)) as [Hlt|Hge]; [|reflexivity].
    destruct (vector_ok_index v i Hv ltac:(lia)) as (_ & _ & Hl).
    destruct (vector_ok_index con i Hc ltac:(lia)) as (_ & _ & Hlc).
    rewrite load_Ok by lia. rewrite rd_elem by lia.
    destruct (Z.eqb _ _); reflexivity. }
  generalize (S (N.to_nat (size v))) as fuel. intros fuel. generalize 0 as i.
  induction fuel as [|fuel IH]; intros i; [reflexivity|].
  simpl. unfold bind. rewrite Hstep. specialize (Hkeep i).
  destruct (VectorImpl.eq_step con i v) as [[i'|b] s| | |]; try reflexivity.
  subst s. apply IH.
Qed.

(** X8: on two vectors, the comparison of [LinearContainer], which reads
    both containers through the bounds-checked [operator[]], returns what
    [Vector::operator==] returns: true exactly when the live elements are
    the same sequence; no access is out of range, so nothing is thrown in
    these [noexcept] functions.  The same holds of the two [operator!=]. *)
Theorem linear_equality_agrees (con v : Vector) :
  vector_ok v -> vector_ok con ->
  Linear.operator_eq con v = VectorImpl.operator_eq con v /\
  Linear.operator_ne con v = VectorImpl.operator_ne con v /\
  Linear.operator_eq con v = Ok (bool_decide (items v = items con)) v.
Proof.
  intros Hv Hc.
  assert (Heq : Linear.operator_eq con v = VectorImpl.operator_eq con v).
  { unfold Linear.operator_eq, VectorImpl.operator_eq. run_step.
    destruct (N.eqb_spec (size v) (size con)) as [Hsz|Hsz]; [|reflexivity].
    apply Linear_eq_loop; assumption. }
  split; [exact Heq|]. split.
  - unfold Linear.operator_ne, VectorImpl.operator_ne, bind. rewrite Heq.
    reflexivity.
  - rewrite Heq.
    destruct (operator_eq_spec con v Hv (fun _ => Hc)) as (b & Hrun & Hb).
    rewrite <- items_eq_iff in Hb by assumption. rewrite Hrun. f_equal.
    destruct b.
    + symmetry. apply bool_decide_eq_true. apply Hb. reflexivity.
    + symmetry. apply bool_decide_eq_false. intros H. apply Hb in H.
      discriminate.
Qed.

Lemma linear_equality_agrees_witness :
  let v := mkVector [7; 8; 9; 1]%Z 3 in
  let con := mkVector [7; 8; 5]%Z 3 in
  vector_ok v /\ vector_ok con /\
  Linear.operator_eq con v = VectorImpl.operator_eq con v /\
  Linear.operator_ne con v = VectorImpl.operator_ne con v /\
  Linear.operator_eq con v = Ok (bool_decide (items v = items con)) v.
Proof.
  assert (H1 : vector_ok (mkVector [7; 8; 9; 1]%Z 3)).
  { unfold vector_ok, max_array_length. simpl. lia. }
  assert (H2 : vector_ok (mkVector [7; 8; 5]%Z 3)).
  { unfold vector_ok, max_array_length. simpl. lia. }
  split; [exact H1|]. split; [exact H2|].
  exact (linear_equality_agrees _ _ H1 H2).
Defined.
End LinearCompare.

(** ** Traversals, folds and maps of a vector *)

Section Traversals.
Local Open Scope N_scope.
Context {C : Type}.

Lemma take_items_S (v : Vector) (i : nat) :
  vector_ok v -> (i < N.to_nat (size v))%nat ->
  take (S i) (items v) = take i (items v) ++ [elem (Elements v) i].
Proof.
  intros Hok Hi. apply take_S_r. apply items_lookup; assumption.
Qed.

Lemma drop_items_pred (v : Vector) (i : nat) :
  vector_ok v -> (i < N.to_nat (size v))%nat ->
  drop i (items v) = elem (Elements v) i :: drop (S i) (items v).
Proof.
  intros Hok Hi. apply drop_S. apply items_lookup; assumption.
Qed.

Lemma PreOrderTraverse_spec (f : Z -> C -> C) (c : C) (v : Vector) :
  vector_ok v ->
  Linear.PreOrderTraverse f c v
  = Ok (fold_left (fun c x => f x c) (items v) c) v.
Proof.
  intros Hok. assert (Hlen := length_items v Hok).
  unfold Linear.PreOrderTraverse. run_step.
  destruct (loop_rule (Linear.PreOrderTraverse_step f)
    (fun st s => s = v /\ fst st <= size v /\
                 snd st = fold_left (fun c x => f x c)
                            (take (N.to_nat (fst st)) (items v)) c)
    (fun a s => s = v /\ a = fold_left (fun c x => f x c) (items v) c)
    (fun st _ => N.to_nat (size v - fst st)))
    with (fuel := S (N.to_nat (size v))) (v := (0, c)) (s := v)
    as (a & s' & Hrun & -> & ->); [| | |exact Hrun].
  - intros [i a] s (-> & Hi & Ha). simpl in Hi, Ha.
    unfold Linear.PreOrderTraverse_step. run_step.
    destruct (N.ltb_spec i (size v)) as [Hlt|Hge].
    2:{ split; [reflexivity|]. rewrite Ha. rewrite take_ge by lia.
        reflexivity. }
    destruct (vector_ok_index v i Hok ltac:(lia)) as (Hi62 & Hs62 & Hl).
    rewrite operator_at_Ok by assumption. simpl fst. simpl snd.
    rewrite add_nowrap by lia.
    split; [|lia]. split; [reflexivity|]. split; [lia|].
    replace (N.to_nat (i + 1)) with (S (N.to_nat i)) by lia.
    rewrite take_items_S by (assumption || lia).
    rewrite fold_left_app. simpl. rewrite Ha. reflexivity.
  - simpl. split; [reflexivity|]. split; [lia|reflexivity].
  - simpl. lia.
Qed.

Lemma PostOrderTraverse_spec (f : Z -> C -> C) (c : C) (v : Vector) :
  vector_ok v ->
  Linear.PostOrderTraverse f c v = Ok (fold_right f c (items v)) v.
Proof.
  intros Hok. assert (Hlen := length_items v Hok).
  unfold Linear.PostOrderTraverse. run_step.
  destruct (loop_rule (Linear.PostOrderTraverse_step f)
    (fun st s => s = v /\ fst st <= size v /\
                 snd st = fold_right f c (drop (N.to_nat (fst st)) (items v)))
    (fun a s => s = v /\ a = fold_right f c (items v))
    (fun st _ => N.to_nat (fst st)))
    with (fuel := S (N.to_nat (size v))) (v := (size v, c)) (s := v)
    as (a & s' & Hrun & -> & ->); [| | |exact Hrun].
  - intros [i a] s (-> & Hi & Ha). simpl in Hi, Ha.
    unfold Linear.PostOrderTraverse_step. run_step.
    destruct (N.ltb_spec 0 i) as [Hlt|Hge].
    2:{ split; [reflexivity|]. rewrite Ha. assert (i = 0) as -> by lia.
        reflexivity. }
    destruct (vector_ok_index v (i - 1) Hok ltac:(lia)) as (Hi62 & Hs62 & Hl).
    rewrite sub_nowrap by lia.
    rewrite operator_at_Ok by (assumption || lia). simpl fst. simpl snd.
    split; [|lia]. split; [reflexivity|]. split; [lia|].
    rewrite (drop_items_pred v (N.to_nat (i - 1))) by (assumption || lia).
    simpl. rewrite Ha. do 3 f_equal. lia.
  - simpl. split; [reflexivity|]. split; [lia|].
    rewrite drop_ge by lia. reflexivity.
  - simpl. lia.
Qed.

Lemma visit_length (f : Z -> C -> Z * C) l : forall c,
  length (visit f l c).1 = length l.
Proof.
  induction l as [|x l IH]; intros c; [reflexivity|].
  simpl. destruct (f x c) as [y c']. specialize (IH c').
  destruct (visit f l c') as [ys c'']. simpl in *. congruence.
Qed.

Lemma visit_snoc (f : Z -> C -> Z * C) l x : forall c,
  visit f (l ++ [x]) c =
  ((visit f l c).1 ++ [(f x (visit f l c).2).1],
   (f x (visit f l c).2).2).
Proof.
  induction l as [|z l IH]; intros c; simpl.
  - destruct (f x c) as [y c']. reflexivity.
  - destruct (f z c) as [y c']. rewrite IH.
    destruct (visit f l c') as [ys c'']. reflexivity.
Qed.

Lemma visit_pure (f : Z -> C -> Z * C) (g : Z -> Z) l (c : C) :
  (forall x c, f x c = (g x, c)) -> visit f l c = (g <$> l, c).
Proof.
  intros Hf. induction l as [|x l IH]; [reflexivity|].
  simpl. rewrite Hf, IH. reflexivity.
Qed.

Lemma PreOrderMap_spec (f : Z -> C -> Z * C) (c : C) (v : Vector) :
  vector_ok v ->
  Linear.PreOrderMap f c v
  = Ok (visit f (items v) c).2
       (mkVector ((visit f (items v) c).1
                  ++ drop (N.to_nat (size v)) (Elements v))
                 (size v)).
Proof.
  intros Hok. assert (Hlen := length_items v Hok).
  unfold Linear.PreOrderMap. run_step.
  destruct (loop_rule (Linear.PreOrderMap_step f)
    (fun st s =>
       fst st <= size v /\
       snd st = (visit f (take (N.to_nat (fst st)) (items v)) c).2 /\
       s = mkVector ((visit f (take (N.to_nat (fst st)) (items v)) c).1
                     ++ drop (N.to_nat (fst st)) (Elements v))
                    (size v))
    (fun a s =>
       a = (visit f (items v) c).2 /\
       s = mkVector ((visit f (items v) c).1
                     ++ drop (N.to_nat (size v)) (Elements v))
                    (size v))
    (fun st _ => N.to_nat (size v - fst st)))
    with (fuel := S (N.to_nat (size v))) (v := (0, c)) (s := v)
    as (a & s' & Hrun & -> & ->); [| | |exact Hrun].
  - intros [i a] s (Hi & Ha & ->). simpl in Hi, Ha.
    unfold Linear.PreOrderMap_step. run_step. cbn [size fst snd].
    destruct (N.ltb_spec i (size v)) as [Hlt|Hge].
    2:{ assert (i = size v) as -> by lia.
        rewrite take_ge in * by lia. split; [exact Ha|reflexivity]. }
    destruct (vector_ok_index v i Hok ltac:(lia)) as (Hi62 & Hs62 & Hl).
    set (pre := take (N.to_nat i) (items v)) in *.
    assert (Hpre : length (visit f pre c).1 = N.to_nat i).
    { rewrite visit_length. unfold pre. rewrite length_take. lia. }
    set (s := mkVector _ _).
    assert (Hls : length (Elements s) = length (Elements v)).
    { unfold s. cbn [Elements]. rewrite length_app, Hpre, length_drop. lia. }
    assert (Hs : vector_ok s).
    { unfold vector_ok. rewrite Hls. exact Hok. }
    rewrite operator_at_Ok by assumption.
    assert (He : elem (Elements s) (N.to_nat i) = elem (Elements v) (N.to_nat i)).
    { unfold s, elem. cbn [Elements]. rewrite !nth_lookup.
      rewrite lookup_app_r by lia. rewrite Hpre, lookup_drop.
      do 2 f_equal. lia. }
    rewrite He.
    destruct (f (elem (Elements v) (N.to_nat i)) a) as [y c'] eqn:Hf.
    rewrite store_Ok by lia.
    cbn [fst snd]. rewrite add_nowrap by lia.
    split; [|lia]. split; [lia|].
    replace (N.to_nat (i + 1)) with (S (N.to_nat i)) by lia.
    rewrite take_items_S by (assumption || lia). fold pre.
    rewrite visit_snoc. rewrite <- Ha, Hf. cbn [fst snd].
    split; [reflexivity|]. unfold s. cbn [Elements size]. f_equal.
    rewrite insert_app_r_alt by lia. rewrite Hpre, Nat.sub_diag.
    rewrite (drop_S (Elements v) (elem (Elements v) (N.to_nat i)) (N.to_nat i))
      by (apply lookup_elem; lia).
    simpl. rewrite <- app_assoc. reflexivity.
  - simpl. split; [lia|]. split; [reflexivity|]. destruct v; reflexivity.
  - simpl. lia.
Qed.

Lemma PostOrderMap_spec (f : Z -> C -> Z * C) (c : C) (v : Vector) :
  vector_ok v ->
  Linear.PostOrderMap f c v
  = Ok (visit f (reverse (items v)) c).2
       (mkVector (reverse (visit f (reverse (items v)) c).1
                  ++ drop (N.to_nat (size v)) (Elements v))
                 (size v)).
Proof.
  intros Hok. assert (Hlen := length_items v Hok).
  set (n := N.to_nat (size v)) in *. set (L := reverse (items v)).
  assert (HL : length L = n) by (unfold L; rewrite length_reverse; exact Hlen).
  unfold Linear.PostOrderMap. run_step.
  destruct (loop_rule (Linear.PostOrderMap_step f)
    (fun st s =>
       fst st <= size v /\
       snd st = (visit f (take (n - N.to_nat (fst st)) L) c).2 /\
       s = mkVector (take (N.to_nat (fst st)) (Elements v)
                     ++ reverse (visit f (take (n - N.to_nat (fst st)) L) c).1
                     ++ drop n (Elements v))
                    (size v))
    (fun a s =>
       a = (visit f L c).2 /\
       s = mkVector (reverse (visit f L c).1 ++ drop n (Elements v)) (size v))
    (fun st _ => N.to_nat (fst st)))
    with (fuel := S n) (v := (size v, c)) (s := v)
    as (a & s' & Hrun & -> & ->); [| | |exact Hrun].
  - intros [i a] s (Hi & Ha & ->). simpl in Hi, Ha.
    unfold Linear.PostOrderMap_step. run_step. cbn [size fst snd].
    destruct (N.ltb_spec 0 i) as [Hlt|Hge].
    2:{ assert (i = 0) as -> by lia. simpl in *.
        rewrite Nat.sub_0_r, take_ge in * by lia.
        split; [exact Ha|reflexivity]. }
    destruct (vector_ok_index v (i - 1) Hok ltac:(lia)) as (Hi62 & Hs62 & Hl).
    rewrite sub_nowrap by lia.
    set (done := take (n - N.to_nat i) L) in *.
    assert (Hdone : length (visit f done c).1 = (n - N.to_nat i)%nat).
    { rewrite visit_length. unfold done. rewrite length_take. lia. }
    set (s := mkVector _ _).
    assert (Hls : length (Elements s) = length (Elements v)).
    { unfold s. cbn [Elements].
      rewrite !length_app, length_take, length_reverse, Hdone, length_drop.
      fold n in Hl. lia. }
    assert (Hs : vector_ok s).
    { unfold vector_ok. rewrite Hls. exact Hok. }
    rewrite operator_at_Ok by (assumption || (unfold s; cbn [size]; lia)).
    assert (Htk : take (N.to_nat i) (Elements v)
                  = take (N.to_nat (i - 1)) (Elements v)
                    ++ [elem (Elements v) (N.to_nat (i - 1))]).
    { replace (N.to_nat i) with (S (N.to_nat (i - 1))) by lia.
      apply take_S_r, lookup_elem. lia. }
    assert (He : elem (Elements s) (N.to_nat (i - 1))
                 = elem (Elements v) (N.to_nat (i - 1))).
    { unfold s, elem. cbn [Elements]. rewrite !nth_lookup.
      rewrite lookup_app_l by (rewrite length_take; lia).
      rewrite lookup_take_lt by lia. reflexivity. }
    rewrite He.
    destruct (f (elem (Elements v) (N.to_nat (i - 1))) a) as [y c'] eqn:Hf.
    rewrite store_Ok by lia.
    cbn [fst snd].
    split; [|lia]. split; [lia|].
    assert (Hnext : take (n - N.to_nat (i - 1)) L
                    = done ++ [elem (Elements v) (N.to_nat (i - 1))]).
    { replace (n - N.to_nat (i - 1))%nat with (S (n - N.to_nat i)) by lia.
      apply take_S_r. unfold L.
      rewrite reverse_lookup by lia. rewrite Hlen.
      replace (n - S (n - N.to_nat i))%nat with (N.to_nat (i - 1)) by lia.
      apply items_lookup; [exact Hok|lia]. }
    rewrite Hnext, visit_snoc. rewrite <- Ha, Hf. cbn [fst snd].
    split; [reflexivity|]. unfold s. cbn [Elements size]. f_equal.
    rewrite Htk. rewrite <- app_assoc.
    rewrite insert_app_r_alt by (rewrite length_take; lia).
    rewrite length_take.
    replace (N.to_nat (i - 1) - N.to_nat (i - 1) `min` length (Elements v))%nat
      with 0%nat by lia.
    rewrite reverse_snoc. reflexivity.
  - simpl. split; [lia|]. fold n. rewrite Nat.sub_diag. simpl.
    split; [reflexivity|]. rewrite take_drop. destruct v; reflexivity.
  - simpl. lia.
Qed.
End Traversals.

Section TraversalProps.
Local Open Scope N_scope.

(** X9: [Traverse], [PreOrderTraverse], [Fold] and [PreOrderFold] run the
    callable once on every live element from index 0 to [size - 1], that
    is, fold the live elements from the left; [PostOrderTraverse] and
    [PostOrderFold] run it from index [size - 1] down to 0, that is, fold
    them from the right.  The vector is unchanged and no access is out of
    range. *)
Theorem traverse_in_order {C : Type} (f : Z -> C -> C) (c : C) (v : Vector) :
  vector_ok v ->
  Linear.Traverse f c v = Ok (fold_left (fun c x => f x c) (items v) c) v /\
  Linear.PreOrderTraverse f c v
  = Ok (fold_left (fun c x => f x c) (items v) c) v /\
  Linear.PostOrderTraverse f c v = Ok (fold_right f c (items v)) v /\
  Linear.Fold f c v = Ok (fold_left (fun c x => f x c) (items v) c) v /\
  Linear.PreOrderFold f c v
  = Ok (fold_left (fun c x => f x c) (items v) c) v /\
  Linear.PostOrderFold f c v = Ok (fold_right f c (items v)) v.
Proof.
  intros Hok.
  pose proof (PreOrderTraverse_spec f c v Hok) as Hpre.
  pose proof (PostOrderTraverse_spec f c v Hok) as Hpost.
  repeat split; assumption.
Qed.

Lemma traverse_in_order_witness :
  let v := mkVector [7; 8; 9; 1]%Z 3 in
  let f := fun (x : Z) (seen : list Z) => seen ++ [x] in
  vector_ok v /\
  Linear.Traverse f [] v = Ok (fold_left (fun c x => f x c) (items v) []) v /\
  Linear.PreOrderTraverse f [] v
  = Ok (fold_left (fun c x => f x c) (items v) []) v /\
  Linear.PostOrderTraverse f [] v = Ok (fold_right f [] (items v)) v /\
  Linear.Fold f [] v = Ok (fold_left (fun c x => f x c) (items v) []) v /\
  Linear.PreOrderFold f [] v
  = Ok (fold_left (fun c x => f x c) (items v) []) v /\
  Linear.PostOrderFold f [] v = Ok (fold_right f [] (items v)) v.
Proof.
  assert (H : vector_ok (mkVector [7; 8; 9; 1]%Z 3)).
  { unfold vector_ok, max_array_length. simpl. lia. }
  split; [exact H|].
  exact (traverse_in_order (fun (x : Z) (seen : list Z) => seen ++ [x]) [] _ H).
Defined.

Lemma fold_collect (l : list Z) : forall seen,
  fold_left (fun seen x => seen ++ [x]) l seen = seen ++ l.
Proof.
  induction l as [|x l IH]; intros seen; simpl.
  - rewrite app_nil_r. reflexivity.
  - rewrite IH, <- app_assoc. reflexivity.
Qed.

(** X10: the sequence a vector hands to the callable of [Traverse] is the
    sequence of its live elements, so that constructing a vector from
    another vector copies exactly the live elements of the source, in
    order, with its size. *)
Theorem construct_from_vector (source : Vector) :
  vector_ok source ->
  Linear.Traverse (fun dat seen => seen ++ [dat]) [] source
  = Ok (items source) source /\
  VectorImpl.Vector_container (items source) VectorImpl.fresh
  = Ok tt (mkVector (items source) (size source)).
Proof.
  intros Hok. split.
  - unfold Linear.Traverse. rewrite PreOrderTraverse_spec by exact Hok.
    rewrite fold_collect. reflexivity.
  - assert (Hlen := length_items source Hok).
    assert (Hsz := vector_ok_size source Hok).
    rewrite Vector_container_Ok by (rewrite Hlen; lia).
    rewrite Hlen, N2Nat.id. reflexivity.
Qed.

Lemma fold_found (val : Z) (l : list Z) : forall found : bool,
  fold_left
    (fun found dat => if negb found && (dat =? val)%Z then true else found)
    l found
  = found || bool_decide (val ∈ l).
Proof.
  induction l as [|x l IH]; intros found; simpl.
  - rewrite orb_false_r. reflexivity.
  - rewrite IH. destruct found; simpl; [reflexivity|].
    destruct (Z.eqb_spec x val) as [->|Hne].
    + rewrite (bool_decide_eq_true_2 (val ∈ val :: l)) by left. reflexivity.
    + apply bool_decide_ext. rewrite elem_of_cons. intuition congruence.
Qed.

(** X11: [Exists(val)] returns true exactly when [val] is one of the live
    elements, and leaves the container unchanged; on a priority queue the
    elements of the spare capacity are never found. *)
Theorem exists_iff_member (val : Z) (v : Vector) (capacity : N) :
  vector_ok v ->
  Linear.Exists val v = Ok (bool_decide (val ∈ items v)) v /\
  PQ.Exists val (mkPQHeap v capacity)
  = Ok (bool_decide (val ∈ live (mkPQHeap v capacity))) (mkPQHeap v capacity).
Proof.
  intros Hok.
  assert (H : Linear.Exists val v = Ok (bool_decide (val ∈ items v)) v).
  { unfold Linear.Exists, Linear.Traverse.
    rewrite PreOrderTraverse_spec by exact Hok.
    rewrite fold_found. reflexivity. }
  split; [exact H|]. unfold PQ.Exists. apply lift_Ok. exact H.
Qed.

Lemma exists_iff_member_witness :
  let v := mkVector [7; 8; 9; 1]%Z 3 in
  vector_ok v /\
  Linear.Exists 1 v = Ok (bool_decide (1%Z ∈ items v)) v /\
  PQ.Exists 1 (mkPQHeap v 4)
  = Ok (bool_decide (1%Z ∈ live (mkPQHeap v 4))) (mkPQHeap v 4).
Proof.
  assert (H : vector_ok (mkVector [7; 8; 9; 1]%Z 3)).
  { unfold vector_ok, max_array_length. simpl. lia. }
  split; [exact H|]. exact (exists_iff_member 1 _ 4 H).
Defined.

(** X12: [Map] and [PreOrderMap] run the callable once on every live
    element from front to back, [PostOrderMap] once on every live element
    from back to front, each element being replaced by what the callable
    assigns to it; the size and the slots beyond [size] are unchanged.  For
    a callable that assigns [g(x)] to an element [x] and has no other
    effect, all three replace the live elements [l] by [map g l]. *)
Theorem map_visits_each_once {C : Type} (f : Z -> C -> Z * C) (g : Z -> Z)
    (c : C) (v : Vector) :
  vector_ok v ->
  let rest := drop (N.to_nat (size v)) (Elements v) in
  Linear.Map f c v
  = Ok (visit f (items v) c).2
       (mkVector ((visit f (items v) c).1 ++ rest) (size v)) /\
  Linear.PreOrderMap f c v = Linear.Map f c v /\
  Linear.PostOrderMap f c v
  = Ok (visit f (reverse (items v)) c).2
       (mkVector (reverse (visit f (reverse (items v)) c).1 ++ rest)
                 (size v)) /\
  ((forall x c, f x c = (g x, c)) ->
   Linear.Map f c v = Ok c (mkVector ((g <$> items v) ++ rest) (size v)) /\
   Linear.PostOrderMap f c v = Linear.Map f c v).
Proof.
  intros Hok rest.
  pose proof (PreOrderMap_spec f c v Hok) as Hpre.
  pose proof (PostOrderMap_spec f c v Hok) as Hpost.
  split; [exact Hpre|]. split; [reflexivity|]. split; [exact Hpost|].
  intros Hf.
  fold rest in Hpre, Hpost. unfold Linear.Map.
  rewrite Hpre, Hpost, !(visit_pure f g) by exact Hf. cbn [fst snd].
  rewrite fmap_reverse, reverse_involutive. split; reflexivity.
Qed.

Lemma map_visits_each_once_witness :
  let v := mkVector [7; 8; 9; 1]%Z 3 in
  let f := fun (x : Z) (count : nat) => ((2 * x)%Z, S count) in
  let rest := drop (N.to_nat (size v)) (Elements v) in
  vector_ok v /\
  Linear.Map f 0%nat v
  = Ok (visit f (items v) 0%nat).2
       (mkVector ((visit f (items v) 0%nat).1 ++ rest) (size v)) /\
  Linear.PreOrderMap f 0%nat v = Linear.Map f 0%nat v /\
  Linear.PostOrderMap f 0%nat v
  = Ok (visit f (reverse (items v)) 0%nat).2
       (mkVector (reverse (visit f (reverse (items v)) 0%nat).1 ++ rest)
                 (size v)) /\
  ((forall x c, f x c = (Z.succ x, c)) ->
   Linear.Map f 0%nat v
   = Ok 0%nat (mkVector ((Z.succ <$> items v) ++ rest) (size v)) /\
   Linear.PostOrderMap f 0%nat v = Linear.Map f 0%nat v).
Proof.
  assert (H : vector_ok (mkVector [7; 8; 9; 1]%Z 3)).
  { unfold vector_ok, max_array_length. simpl. lia. }
  split; [exact H|].
  exact (map_visits_each_once
           (fun (x : Z) (count : nat) => ((2 * x)%Z, S count)) Z.succ 0%nat _ H).
Defined.

Lemma construct_from_vector_witness :
  let source := mkVector [7; 8; 9; 1]%Z 3 in
  vector_ok source /\
  Linear.Traverse (fun dat seen => seen ++ [dat]) [] source
  = Ok (items source) source /\
  VectorImpl.Vector_container (items source) VectorImpl.fresh
  = Ok tt (mkVector (items source) (size source)).
Proof.
  assert (H : vector_ok (mkVector [7; 8; 9; 1]%Z 3)).
  { unfold vector_ok, max_array_length. simpl. lia. }
  split; [exact H|]. exact (construct_from_vector _ H).
Defined.
End TraversalProps.

(** ** The quicksort of sortable linear containers *)

Section QuickSort.
Local Open Scope N_scope.

Lemma range_closed_weaken p r p' r' Q :
  (p <= p')%nat -> (r' <= r)%nat -> range_closed p r Q -> range_closed p' r' Q.
Proof. intros Hp Hr H a i j Hi Hj Hil Hjl. apply H; lia. Qed.

Lemma range_closed_and p r Q1 Q2 :
  range_closed p r Q1 -> range_closed p r Q2 ->
  range_closed p r (fun a => Q1 a /\ Q2 a).
Proof.
  intros H1 H2 a i j Hi Hj Hil Hjl [? ?]. split; [apply H1|apply H2]; auto.
Qed.

Lemma swap_closed_range n p r Q :
  (r < n)%nat -> swap_closed n Q -> range_closed p r Q.
Proof. intros Hr H a i j Hi Hj Hil Hjl. apply H; lia. Qed.

(** A bound on the elements of a range survives the swaps inside the range
    and the swaps outside of it. *)
Lemma range_closed_bound p r lo hi (R : Z -> Prop) :
  (lo <= p /\ r <= hi \/ r < lo \/ hi < p)%nat ->
  range_closed p r (fun a => forall k, (lo <= k <= hi)%nat -> R (elem a k)).
Proof.
  intros Hpos a i j Hi Hj Hil Hjl HQ k Hk.
  destruct (elem_swap_list i j a k Hil Hjl)
    as [[-> ->]|[(_ & -> & ->)|(_ & _ & ->)]];
    apply HQ; lia.
Qed.

Lemma range_closed_sorted p r lo hi :
  (r < lo \/ hi < p)%nat -> range_closed p r (sorted_range lo hi).
Proof.
  intros Hpos a i j Hi Hj Hil Hjl HQ k1 k2 H1 H2 H3.
  destruct (elem_swap_list i j a k1 Hil Hjl)
    as [[-> _]|[(_ & -> & _)|(_ & _ & ->)]]; try lia.
  destruct (elem_swap_list i j a k2 Hil Hjl)
    as [[-> _]|[(_ & -> & _)|(_ & _ & ->)]]; try lia.
  apply HQ; assumption.
Qed.

(** The scan [do { j--; } while (operator[](j) > x)] stops at the first
    element from [j - 1] downwards that is not above [x], given that there
    is one at [t] or above. *)
Lemma scan_down_spec (v : Vector) (x : Z) (j : N) (t : nat) :
  vector_ok v -> j <= size v -> (t < N.to_nat j)%nat ->
  (elem (Elements v) t <= x)%Z ->
  exists j',
    loop (S (N.to_nat (size v))) (Linear.scan_down_step x) j v = Ok j' v /\
    (t <= N.to_nat j' < N.to_nat j)%nat /\
    (elem (Elements v) (N.to_nat j') <= x)%Z /\
    forall k, (N.to_nat j' < k < N.to_nat j)%nat ->
              (x < elem (Elements v) k)%Z.
Proof.
  intros Hok Hj Ht Hx.
  destruct (loop_rule (Linear.scan_down_step x)
    (fun jc s => s = v /\ (t < N.to_nat jc <= N.to_nat j)%nat /\
                 forall k, (N.to_nat jc <= k < N.to_nat j)%nat ->
                           (x < elem (Elements v) k)%Z)
    (fun j' s => s = v /\ (t <= N.to_nat j' < N.to_nat j)%nat /\
                 (elem (Elements v) (N.to_nat j') <= x)%Z /\
                 forall k, (N.to_nat j' < k < N.to_nat j)%nat ->
                           (x < elem (Elements v) k)%Z)
    (fun jc _ => N.to_nat jc))
    with (fuel := S (N.to_nat (size v))) (v := j) (s := v)
    as (j' & s' & Hrun & -> & Hpost).
  - intros jc s (-> & Hjc & Hab).
    destruct (vector_ok_index v (jc - 1) Hok ltac:(lia)) as (H62 & Hs62 & Hl).
    unfold Linear.scan_down_step. rewrite sub_nowrap by lia. run_step.
    rewrite operator_at_Ok by (assumption || lia).
    rewrite Z.gtb_ltb.
    destruct (Z.ltb_spec x (elem (Elements v) (N.to_nat (jc - 1))))
      as [Hgt|Hle].
    + split; [|lia]. split; [reflexivity|].
      assert (t <> N.to_nat (jc - 1)) by (intros ->; lia).
      split; [lia|]. intros k Hk.
      destruct (decide (k = N.to_nat (jc - 1))) as [->|]; [exact Hgt|].
      apply Hab. lia.
    + split; [reflexivity|]. split; [lia|]. split; [exact Hle|].
      intros k Hk. apply Hab. lia.
  - split; [reflexivity|]. split; [lia|]. intros k Hk. lia.
  - lia.
  - exists j'. split; [exact Hrun|exact Hpost].
Qed.

(** The scan [do { i++; } while (operator[](i) < x)] stops at the first
    element from [i + 1] upwards that is not below [x], given that there is
    one at [t] or below. *)
Lemma scan_up_spec (v : Vector) (x : Z) (i : N) (i1 t : nat) :
  vector_ok v -> ULong.add i 1 = N.of_nat i1 -> (i1 <= t)%nat ->
  (t < N.to_nat (size v))%nat -> (x <= elem (Elements v) t)%Z ->
  exists i',
    loop (S (N.to_nat (size v))) (Linear.scan_up_step x) i v = Ok i' v /\
    (i1 <= N.to_nat i' <= t)%nat /\
    (x <= elem (Elements v) (N.to_nat i'))%Z /\
    forall k, (i1 <= k < N.to_nat i')%nat -> (elem (Elements v) k < x)%Z.
Proof.
  intros Hok Hi Hit Ht Hx.
  destruct (vector_ok_index v (N.of_nat t) Hok ltac:(lia)) as (H62 & Hs62 & Hl).
  destruct (loop_rule (Linear.scan_up_step x)
    (fun ic s => s = v /\
                 (i1 <= N.to_nat (ULong.add ic 1) <= t)%nat /\
                 forall k, (i1 <= k < N.to_nat (ULong.add ic 1))%nat ->
                           (elem (Elements v) k < x)%Z)
    (fun i' s => s = v /\ (i1 <= N.to_nat i' <= t)%nat /\
                 (x <= elem (Elements v) (N.to_nat i'))%Z /\
                 forall k, (i1 <= k < N.to_nat i')%nat ->
                           (elem (Elements v) k < x)%Z)
    (fun ic _ => (t + 1 - N.to_nat (ULong.add ic 1))%nat))
    with (fuel := S (N.to_nat (size v))) (v := i) (s := v)
    as (i' & s' & Hrun & -> & Hpost).
  - intros ic s (-> & Hc & Hbe).
    unfold Linear.scan_up_step. set (c := ULong.add ic 1) in *. run_step.
    rewrite operator_at_Ok by (assumption || lia).
    destruct (Z.ltb_spec (elem (Elements v) (N.to_nat c)) x) as [Hlt|Hge].
    + assert (N.to_nat c <> t) by (intros Heq; rewrite Heq in Hlt; lia).
      rewrite add_nowrap by lia.
      split; [|lia]. split; [reflexivity|]. split; [lia|].
      intros k Hk. destruct (decide (k = N.to_nat c)) as [->|]; [exact Hlt|].
      apply Hbe. lia.
    + split; [reflexivity|]. split; [lia|]. split; [exact Hge|exact Hbe].
  - rewrite Hi, Nat2N.id. split; [reflexivity|]. split; [lia|].
    intros k Hk. lia.
  - rewrite Hi. lia.
  - exists i'. split; [exact Hrun|exact Hpost].
Qed.

Lemma SwapAt_Ok (i j : N) (v : Vector) :
  (N.to_nat i < length (Elements v))%nat ->
  (N.to_nat j < length (Elements v))%nat ->
  VectorImpl.SwapAt i j (elem (Elements v) (N.to_nat i))
                        (elem (Elements v) (N.to_nat j)) v
  = Ok tt (mkVector (swap_list (N.to_nat i) (N.to_nat j) (Elements v))
                    (size v)).
Proof.
  intros Hi Hj. unfold VectorImpl.SwapAt, bind.
  rewrite store_Ok by exact Hi. rewrite store_Ok by (simpl; rewrite length_insert; exact Hj).
  reflexivity.
Qed.

(** [Partition(p, r)] splits the range around the value [x] of its first
    element: it returns [q] with [p <= q < r], the elements of [p, ..., q]
    at most [x] and those of [q + 1, ..., r] at least [x]. *)
Lemma Partition_spec (Q : list Z -> Prop) (v : Vector) (p r : N) :
  vector_ok v -> p < r -> r < size v ->
  range_closed (N.to_nat p) (N.to_nat r) Q -> Q (Elements v) ->
  exists q a x,
    Linear.Partition p r v = Ok q (mkVector a (size v)) /\
    p <= q /\ q < r /\ length a = length (Elements v) /\ Q a /\
    (forall k, (N.to_nat p <= k <= N.to_nat q)%nat -> (elem a k <= x)%Z) /\
    (forall k, (N.to_nat q < k <= N.to_nat r)%nat -> (x <= elem a k)%Z).
Proof.
  intros Hok Hpr Hr HQc HQ.
  destruct (vector_ok_index v r Hok ltac:(lia)) as (Hr62 & Hs62 & Hl).
  unfold Linear.Partition. unfold bind at 1.
  rewrite operator_at_Ok by (assumption || lia).
  set (x := elem (Elements v) (N.to_nat p)). run_step.
  rewrite add_nowrap by lia.
  destruct (loop_rule (Linear.Partition_step x)
    (fun st s =>
       size s = size v /\ length (Elements s) = length (Elements v) /\
       Q (Elements s) /\
       (N.to_nat p <= N.to_nat (ULong.add (fst st) 1) <= N.to_nat (snd st))%nat /\
       snd st <= r + 1 /\
       (forall k, (N.to_nat p <= k < N.to_nat (ULong.add (fst st) 1))%nat ->
                  (elem (Elements s) k <= x)%Z) /\
       (forall k, (N.to_nat (snd st) <= k <= N.to_nat r)%nat ->
                  (x <= elem (Elements s) k)%Z) /\
       (ULong.add (fst st) 1 = p /\ snd st = r + 1 /\
        elem (Elements s) (N.to_nat p) = x \/
        p < ULong.add (fst st) 1 /\ snd st <= r))
    (fun q s =>
       size s = size v /\ length (Elements s) = length (Elements v) /\
       Q (Elements s) /\ p <= q /\ q < r /\
       (forall k, (N.to_nat p <= k <= N.to_nat q)%nat ->
                  (elem (Elements s) k <= x)%Z) /\
       (forall k, (N.to_nat q < k <= N.to_nat r)%nat ->
                  (x <= elem (Elements s) k)%Z))
    (fun st _ => (N.to_nat (snd st) - N.to_nat (ULong.add (fst st) 1))%nat))
    with (fuel := S (N.to_nat (size v))) (v := (ULong.sub p 1, r + 1)) (s := v)
    as (q & s' & Hrun & Hsz & Hlen & HQ' & Hpq & Hqr & Hle & Hge).
  - intros [i j] s (Hsz & Hlen & HQs & Hij & Hjr & Hlow & Hhigh & Hcase).
    cbn [fst snd] in *. set (c := ULong.add i 1) in *.
    assert (Hoks : vector_ok s).
    { destruct Hok. split; rewrite ?Hsz, ?Hlen; assumption. }
    unfold Linear.Partition_step. unfold bind at 1. unfold gets at 1.
    (* the scan from the right *)
    assert (Hdown : exists t, (N.to_nat p <= t < N.to_nat j)%nat /\
                              (N.to_nat c <= S t)%nat /\
                              (elem (Elements s) t <= x)%Z).
    { destruct Hcase as [(Hc & Hj & Hx)|(Hc & Hj)].
      - exists (N.to_nat p). split; [lia|]. split; [lia|]. lia.
      - exists (N.to_nat c - 1)%nat. split; [lia|]. split; [lia|].
        apply Hlow. lia. }
    destruct Hdown as (td & Htd & Htdc & Hxtd).
    destruct (scan_down_spec s x j td Hoks ltac:(lia) ltac:(lia) Hxtd)
      as (j' & Hrunj & Hj' & Hxj' & Habove).
    unfold bind at 1. rewrite Hrunj.
    (* the scan from the left *)
    assert (Hup : exists t, (N.to_nat c <= t)%nat /\ (t <= N.to_nat r)%nat /\
                            (t <= N.to_nat j)%nat /\
                            ((N.to_nat j <= N.to_nat r)%nat -> t = N.to_nat j) /\
                            ((N.to_nat r < N.to_nat j)%nat -> t = N.to_nat p) /\
                            (x <= elem (Elements s) t)%Z).
    { destruct Hcase as [(Hc & Hj & Hx)|(Hc & Hj)].
      - exists (N.to_nat p). repeat (split; [lia|]). lia.
      - exists (N.to_nat j). repeat (split; [lia|]). apply Hhigh. lia. }
    destruct Hup as (tu & Htu1 & Htu2 & Htu3 & Htu4 & Htu5 & Hxtu).
    destruct (scan_up_spec s x i (N.to_nat c) tu Hoks
                ltac:(unfold c; rewrite N2Nat.id; reflexivity)
                Htu1 ltac:(lia) Hxtu)
      as (i' & Hruni & Hi' & Hxi' & Hbelow).
    unfold bind at 1. rewrite Hruni.
    destruct (N.ltb_spec i' j') as [Hlt|Hge].
    + (* the two elements are exchanged and the loop goes on *)
      unfold bind at 1. unfold bind at 1.
      rewrite operator_at_Ok by (assumption || lia).
      unfold bind at 1. rewrite operator_at_Ok by (assumption || lia).
      rewrite SwapAt_Ok by lia.
      unfold ret. cbn [fst snd Elements size].
      rewrite length_swap_list. rewrite add_nowrap by lia.
      split; [|lia]. split; [exact Hsz|]. split; [exact Hlen|].
      split; [apply HQc; try assumption; lia|].
      split; [lia|]. split; [lia|]. split; [|split; [|right; lia]].
      * intros k Hk.
        destruct (elem_swap_list (N.to_nat i') (N.to_nat j') (Elements s) k
                    ltac:(lia) ltac:(lia))
          as [[-> ->]|[(_ & -> & ->)|(Hkj & Hki & ->)]]; try lia.
        destruct (decide (k < N.to_nat c)%nat); [apply Hlow; lia|].
        apply Z.lt_le_incl, Hbelow. lia.
      * intros k Hk.
        destruct (elem_swap_list (N.to_nat i') (N.to_nat j') (Elements s) k
                    ltac:(lia) ltac:(lia))
          as [[-> ->]|[(_ & -> & ->)|(Hkj & Hki & ->)]]; try lia.
        destruct (decide (k < N.to_nat j)%nat);
          [apply Z.lt_le_incl, Habove; lia|apply Hhigh; lia].
    + (* the scans have crossed: [j'] is returned *)
      unfold bind at 1. unfold ret.
      split; [exact Hsz|]. split; [exact Hlen|]. split; [exact HQs|].
      split; [lia|]. split; [lia|]. split.
      * intros k Hk.
        destruct (decide (k = N.to_nat j')) as [->|]; [exact Hxj'|].
        destruct (decide (k < N.to_nat c)%nat); [apply Hlow; lia|].
        apply Z.lt_le_incl, Hbelow. lia.
      * intros k Hk.
        destruct (decide (k < N.to_nat j)%nat);
          [apply Z.lt_le_incl, Habove; lia|apply Hhigh; lia].
  - cbn [fst snd].
    assert (Hc : ULong.add (ULong.sub p 1) 1 = p).
    { unfold ULong.add, ULong.sub, ULong.wrap, ULong.modulus.
      destruct (N.eq_dec p 0) as [->|]; [reflexivity|].
      rewrite (N.mod_small 1) by lia.
      replace (p + 2 ^ 64 - 1) with (p - 1 + 1 * 2 ^ 64) by lia.
      rewrite N.Div0.mod_add. rewrite (N.mod_small (p - 1)) by lia.
      replace (p - 1 + 1) with p by lia. apply N.mod_small. lia. }
    rewrite Hc. split; [reflexivity|]. split; [reflexivity|].
    split; [exact HQ|]. split; [lia|]. split; [lia|].
    split; [intros k Hk; lia|]. split; [intros k Hk; lia|].
    left. split; [reflexivity|]. split; reflexivity.
  - cbn [fst snd]. lia.
  - exists q, (Elements s'), x. destruct s' as [a sz]. simpl in *. subst sz.
    split; [exact Hrun|]. tauto.
Qed.

Lemma sorted_range_single p r a : (r <= p)%nat -> sorted_range p r a.
Proof.
  intros Hrp j k Hj Hjk Hk. assert (j = k) as -> by lia. reflexivity.
Qed.

(** [QuickSort(p, r)] sorts the range and touches nothing else, whatever
    the recursion depth allowed beyond the length of the range. *)
Lemma QuickSort_spec (depth : nat) :
  forall (Q : list Z -> Prop) (v : Vector) (p r : N),
    vector_ok v -> (N.to_nat r - N.to_nat p < depth)%nat ->
    (p < r -> r < size v) ->
    range_closed (N.to_nat p) (N.to_nat r) Q -> Q (Elements v) ->
    exists a,
      Linear.QuickSort depth p r v = Ok tt (mkVector a (size v)) /\
      length a = length (Elements v) /\ Q a /\
      sorted_range (N.to_nat p) (N.to_nat r) a.
Proof.
  induction depth as [|depth IH]; intros Q v p r Hok Hd Hr HQc HQ; [lia|].
  simpl. destruct (N.ltb_spec p r) as [Hpr|Hrp].
  2:{ exists (Elements v). destruct v as [a sz].
      split; [reflexivity|]. split; [reflexivity|]. split; [exact HQ|].
      apply sorted_range_single. lia. }
  specialize (Hr Hpr).
  destruct (vector_ok_index v r Hok ltac:(lia)) as (Hr62 & Hs62 & Hl).
  destruct (Partition_spec Q v p r Hok Hpr Hr HQc HQ)
    as (q & a1 & x & Hpart & Hpq & Hqr & Hl1 & HQ1 & Hle1 & Hge1).
  unfold bind at 1. rewrite Hpart.
  set (lower := fun a : list Z =>
         forall k, (N.to_nat p <= k <= N.to_nat q)%nat -> (elem a k <= x)%Z).
  set (upper := fun a : list Z =>
         forall k, (S (N.to_nat q) <= k <= N.to_nat r)%nat -> (x <= elem a k)%Z).
  assert (Hup1 : upper a1) by (intros k Hk; apply Hge1; lia).
  assert (Hok1 : vector_ok (mkVector a1 (size v))).
  { unfold vector_ok. simpl. rewrite Hl1. exact Hok. }
  (* the range on the left *)
  assert (Hleft : exists a2,
    (if 0 <? q then Linear.QuickSort depth p q else ret tt)
      (mkVector a1 (size v)) = Ok tt (mkVector a2 (size v)) /\
    length a2 = length (Elements v) /\ Q a2 /\ lower a2 /\ upper a2 /\
    sorted_range (N.to_nat p) (N.to_nat q) a2).
  { destruct (N.ltb_spec 0 q) as [Hq|Hq].
    - destruct (IH (fun a => Q a /\ lower a /\ upper a)
                   (mkVector a1 (size v)) p q Hok1 ltac:(lia)
                   ltac:(simpl; lia))
        as (a2 & Hrun & Hl2 & (HQ2 & Hlo2 & Hup2) & Hs2).
      + apply range_closed_and;
          [eapply range_closed_weaken; [| |exact HQc]; lia|].
        apply range_closed_and.
        * apply (range_closed_bound _ _ _ _ (fun z => (z <= x)%Z)). lia.
        * apply (range_closed_bound _ _ _ _ (fun z => (x <= z)%Z)). lia.
      + simpl. auto.
      + exists a2. simpl in Hl2. rewrite Hl1 in Hl2. auto 10.
    - exists a1. split; [reflexivity|]. split; [exact Hl1|].
      split; [exact HQ1|]. split; [exact Hle1|]. split; [exact Hup1|].
      apply sorted_range_single. lia. }
  destruct Hleft as (a2 & Hrun2 & Hl2 & HQ2 & Hlo2 & Hup2 & Hs2).
  unfold bind at 1. rewrite Hrun2.
  (* the range on the right *)
  assert (Hok2 : vector_ok (mkVector a2 (size v))).
  { unfold vector_ok. simpl. rewrite Hl2. exact Hok. }
  rewrite add_nowrap by lia.
  destruct (IH (fun a => Q a /\ lower a /\ upper a /\
                         sorted_range (N.to_nat p) (N.to_nat q) a)
               (mkVector a2 (size v)) (q + 1) r Hok2 ltac:(lia)
               ltac:(simpl; lia))
    as (a3 & Hrun3 & Hl3 & (HQ3 & Hlo3 & Hup3 & Hs3) & Hs3').
  - apply range_closed_and;
      [eapply range_closed_weaken; [| |exact HQc]; lia|].
    apply range_closed_and;
      [apply (range_closed_bound _ _ _ _ (fun z => (z <= x)%Z)); lia|].
    apply range_closed_and;
      [apply (range_closed_bound _ _ _ _ (fun z => (x <= z)%Z)); lia|].
    apply range_closed_sorted. lia.
  - simpl. auto.
  - exists a3. split; [exact Hrun3|]. simpl in Hl3. rewrite Hl2 in Hl3.
    split; [exact Hl3|]. split; [exact HQ3|].
    intros j k Hj Hjk Hk.
    destruct (decide (k <= N.to_nat q)%nat) as [Hkq|Hkq];
      [apply Hs3; lia|].
    destruct (decide (N.to_nat (q + 1) <= j)%nat) as [Hjq|Hjq];
      [apply Hs3'; lia|].
    transitivity x; [apply Hlo3; lia|apply Hup3; lia].
Qed.

(** Outcome of the quicksort [Sort()] on a vector. *)
Lemma QuickSort_Sort_spec (v : Vector) :
  vector_ok v ->
  exists a,
    Linear.Sort v = Ok tt (mkVector a (size v)) /\
    length a = length (Elements v) /\
    take (N.to_nat (size v)) a ≡ₚ take (N.to_nat (size v)) (Elements v) /\
    drop (N.to_nat (size v)) a = drop (N.to_nat (size v)) (Elements v) /\
    sorted_upto (N.to_nat (size v)) a.
Proof.
  intros Hok. unfold Linear.Sort. run_step.
  destruct (N.ltb_spec 1 (size v)) as [Hgt|Hle].
  2:{ exists (Elements v). destruct v as [a sz]. simpl in *.
      split; [reflexivity|]. split; [reflexivity|]. split; [reflexivity|].
      split; [reflexivity|]. intros j k Hjk Hk.
      assert (j = k) as -> by lia. reflexivity. }
  assert (Hs62 : size v < 2 ^ 62)
    by (destruct Hok; unfold max_array_length in *; lia).
  rewrite sub_nowrap by lia.
  destruct (QuickSort_spec (S (N.to_nat (size v)))
    (fun a => take (N.to_nat (size v)) a
              ≡ₚ take (N.to_nat (size v)) (Elements v) /\
              drop (N.to_nat (size v)) a = drop (N.to_nat (size v)) (Elements v))
    v 0 (size v - 1) Hok ltac:(lia) ltac:(lia))
    as (a & Hrun & Hlen & (Hp & Hd) & Hs).
  - apply (swap_closed_range (N.to_nat (size v))); [lia|].
    apply swap_closed_and; [apply swap_closed_perm|apply swap_closed_drop].
  - split; reflexivity.
  - exists a. split; [exact Hrun|]. split; [exact Hlen|].
    split; [exact Hp|]. split; [exact Hd|].
    intros j k Hjk Hk. apply Hs; lia.
Qed.

Lemma vector_split_eq (n : nat) (a b : list Z) :
  take n a = take n b -> drop n a = drop n b -> a = b.
Proof.
  intros Ht Hd. rewrite <- (take_drop n a), <- (take_drop n b). congruence.
Qed.

(** X13: the quicksort [Sort()] of [SortableLinearContainer], run on a
    vector, returns with the live elements permuted into non-decreasing
    order and the slots beyond [size] untouched; it never throws nor
    accesses an index out of range, and the vector it leaves is the one the
    heap sort [HeapVec::Sort()] leaves. *)
Theorem quicksort_sorts (v : Vector) :
  vector_ok v ->
  exists a,
    Linear.Sort v = Ok tt (mkVector a (size v)) /\
    length a = length (Elements v) /\
    StronglySorted Z.le (take (N.to_nat (size v)) a) /\
    take (N.to_nat (size v)) a ≡ₚ take (N.to_nat (size v)) (Elements v) /\
    drop (N.to_nat (size v)) a = drop (N.to_nat (size v)) (Elements v) /\
    HeapVec.Sort v = Linear.Sort v.
Proof.
  intros Hok.
  destruct (QuickSort_Sort_spec v Hok) as (a & Hrun & Hlen & Hp & Hd & Hs).
  destruct (Sort_spec v Hok) as (b & Hrunb & Hlenb & Hpb & Hdb & Hsb).
  assert (Hn : (N.to_nat (size v) <= length (Elements v))%nat)
    by (destruct Hok; lia).
  assert (Hsa : StronglySorted Z.le (take (N.to_nat (size v)) a)).
  { apply sorted_upto_StronglySorted; [lia|exact Hs]. }
  assert (Hsb' : StronglySorted Z.le (take (N.to_nat (size v)) b)).
  { apply sorted_upto_StronglySorted; [lia|exact Hsb]. }
  exists a. split; [exact Hrun|]. split; [exact Hlen|]. split; [exact Hsa|].
  split; [exact Hp|]. split; [exact Hd|].
  rewrite Hrun, Hrunb. do 2 f_equal.
  apply (vector_split_eq (N.to_nat (size v))); [|congruence].
  apply (StronglySorted_unique Z.le); try assumption.
  rewrite Hpb, Hp. reflexivity.
Qed.

Lemma quicksort_sorts_witness :
  let v := mkVector [10; 5; 15; 2; 8; 20; 3; 1]%Z 7 in
  vector_ok v /\
  exists a,
    Linear.Sort v = Ok tt (mkVector a (size v)) /\
    length a = length (Elements v) /\
    StronglySorted Z.le (take (N.to_nat (size v)) a) /\
    take (N.to_nat (size v)) a ≡ₚ take (N.to_nat (size v)) (Elements v) /\
    drop (N.to_nat (size v)) a = drop (N.to_nat (size v)) (Elements v) /\
    HeapVec.Sort v = Linear.Sort v.
Proof.
  assert (H : vector_ok (mkVector [10; 5; 15; 2; 8; 20; 3; 1]%Z 7)).
  { unfold vector_ok, max_array_length. simpl. lia. }
  split; [exact H|]. exact (quicksort_sorts _ H).
Defined.

(** X14: for [p < r < size], [Partition(p, r)] returns an index [q] with
    [p <= q < r] after permuting the elements of [p, ..., r] so that those
    of [p, ..., q] are at most, and those of [q + 1, ..., r] at least,
    some value [x]; the elements outside the range are untouched and no
    index outside [p, ..., r] is accessed. *)
Theorem partition_splits (v : Vector) (p r : N) :
  vector_ok v -> p < r -> r < size v ->
  exists q a x,
    Linear.Partition p r v = Ok q (mkVector a (size v)) /\
    p <= q /\ q < r /\
    a ≡ₚ Elements v /\
    take (N.to_nat p) a = take (N.to_nat p) (Elements v) /\
    drop (S (N.to_nat r)) a = drop (S (N.to_nat r)) (Elements v) /\
    (forall k, (N.to_nat p <= k <= N.to_nat q)%nat -> (elem a k <= x)%Z) /\
    (forall k, (N.to_nat q < k <= N.to_nat r)%nat -> (x <= elem a k)%Z).
Proof.
  intros Hok Hpr Hr.
  destruct (Partition_spec
    (fun a => a ≡ₚ Elements v /\
              take (N.to_nat p) a = take (N.to_nat p) (Elements v) /\
              drop (S (N.to_nat r)) a = drop (S (N.to_nat r)) (Elements v))
    v p r Hok Hpr Hr)
    as (q & a & x & Hrun & Hpq & Hqr & _ & (Hp & Ht & Hd) & Hle & Hge).
  - intros a i j Hi Hj Hil Hjl (Hp & Ht & Hd). split; [|split].
    + rewrite swap_list_perm by assumption. exact Hp.
    + unfold swap_list. rewrite !take_insert_ge by lia. exact Ht.
    + rewrite drop_swap_list by lia. exact Hd.
  - split; [reflexivity|]. split; reflexivity.
  - exists q, a, x. auto 10.
Qed.

Lemma partition_splits_witness :
  let v := mkVector [10; 5; 15; 2; 8; 20; 3; 1]%Z 7 in
  vector_ok v /\ 1 < 5 /\ 5 < size v /\
  exists q a x,
    Linear.Partition 1 5 v = Ok q (mkVector a (size v)) /\
    1 <= q /\ q < 5 /\
    a ≡ₚ Elements v /\
    take (N.to_nat 1) a = take (N.to_nat 1) (Elements v) /\
    drop (S (N.to_nat 5)) a = drop (S (N.to_nat 5)) (Elements v) /\
    (forall k, (N.to_nat 1 <= k <= N.to_nat q)%nat -> (elem a k <= x)%Z) /\
    (forall k, (N.to_nat q < k <= N.to_nat 5)%nat -> (x <= elem a k)%Z).
Proof.
  assert (H : vector_ok (mkVector [10; 5; 15; 2; 8; 20; 3; 1]%Z 7)).
  { unfold vector_ok, max_array_length. simpl. lia. }
  split; [exact H|]. split; [reflexivity|]. split; [reflexivity|].
  exact (partition_splits _ 1 5 H eq_refl eq_refl).
Defined.
End QuickSort.

(** ** More on the heap engine *)

Section HeapProps.
Local Open Scope N_scope.

Lemma is_heap_parent_iff (n : nat) (a : list Z) :
  is_heap n a <->
  forall i, (0 < i < n)%nat -> (elem a i <= elem a ((i - 1) / 2))%Z.
Proof.
  split.
  - intros Hh i Hi.
    destruct (Hh ((i - 1) / 2)%nat ltac:(lia)) as [Hl Hr].
    assert (i = 2 * ((i - 1) / 2) + 1 \/ i = 2 * ((i - 1) / 2) + 2)%nat
      as [Heq|Heq] by lia.
    + rewrite Heq at 1. apply Hl. lia.
    + rewrite Heq at 1. apply Hr. lia.
  - intros Hp p _. split; intros Hc.
    + specialize (Hp (2 * p + 1)%nat ltac:(lia)).
      replace ((2 * p + 1 - 1) / 2)%nat with p in Hp by lia. exact Hp.
    + specialize (Hp (2 * p + 2)%nat ltac:(lia)).
      replace ((2 * p + 2 - 1) / 2)%nat with p in Hp by lia. exact Hp.
Qed.

(** X15: [IsHeap()] returns true exactly when every live element other
    than the root is at most its parent, the element at index
    [(i - 1) / 2]; it leaves the vector unchanged. *)
Theorem isheap_decides_parent_order (v : Vector) :
  vector_ok v ->
  exists b : bool,
    HeapVec.IsHeap v = Ok b v /\
    (b = true <->
     forall i, (0 < i < N.to_nat (size v))%nat ->
       (elem (Elements v) i <= elem (Elements v) ((i - 1) / 2))%Z).
Proof.
  intros Hok. destruct (IsHeap_spec v Hok) as (b & Hrun & Hb).
  exists b. split; [exact Hrun|]. rewrite Hb. apply is_heap_parent_iff.
Qed.

Lemma isheap_decides_parent_order_witness :
  let v := mkVector [20; 8; 15; 9]%Z 4 in
  vector_ok v /\
  exists b : bool,
    HeapVec.IsHeap v = Ok b v /\
    (b = true <->
     forall i, (0 < i < N.to_nat (size v))%nat ->
       (elem (Elements v) i <= elem (Elements v) ((i - 1) / 2))%Z).
Proof.
  assert (H : vector_ok (mkVector [20; 8; 15; 9]%Z 4)).
  { unfold vector_ok, max_array_length. simpl. lia. }
  split; [exact H|]. exact (isheap_decides_parent_order _ H).
Defined.

Lemma IsHeap_true_iff (v : Vector) :
  vector_ok v ->
  (HeapVec.IsHeap v = Ok true v <->
   is_heap (N.to_nat (size v)) (Elements v)).
Proof.
  intros Hok. destruct (IsHeap_spec v Hok) as (b & Hrun & Hb).
  rewrite Hrun. split.
  - intros Heq. apply Hb. congruence.
  - intros Hh. apply Hb in Hh. subst b. reflexivity.
Qed.

(** X16: [Heapify()] turns any contents into a max-heap: it returns,
    [IsHeap()] is true afterwards, the live elements are a permutation of
    the former ones and the slots beyond [size] are untouched. *)
Theorem heapify_builds_heap (v : Vector) :
  vector_ok v ->
  exists a,
    HeapVec.Heapify v = Ok tt (mkVector a (size v)) /\
    length a = length (Elements v) /\
    take (N.to_nat (size v)) a ≡ₚ take (N.to_nat (size v)) (Elements v) /\
    drop (N.to_nat (size v)) a = drop (N.to_nat (size v)) (Elements v) /\
    HeapVec.IsHeap (mkVector a (size v)) = Ok true (mkVector a (size v)).
Proof.
  intros Hok.
  destruct (Heapify_spec
    (fun a => take (N.to_nat (size v)) a
              ≡ₚ take (N.to_nat (size v)) (Elements v) /\
              drop (N.to_nat (size v)) a = drop (N.to_nat (size v)) (Elements v))
    v Hok) as (a & Hrun & Hlen & Hh & Hp & Hd).
  - apply swap_closed_and; [apply swap_closed_perm|apply swap_closed_drop].
  - split; reflexivity.
  - exists a. split; [exact Hrun|]. split; [exact Hlen|].
    split; [exact Hp|]. split; [exact Hd|].
    apply IsHeap_true_iff; [|exact Hh].
    unfold vector_ok in *. simpl. rewrite Hlen. exact Hok.
Qed.

Lemma heapify_builds_heap_witness :
  let v := mkVector [3; 9; 2; 7; 5; 0]%Z 5 in
  vector_ok v /\
  exists a,
    HeapVec.Heapify v = Ok tt (mkVector a (size v)) /\
    length a = length (Elements v) /\
    take (N.to_nat (size v)) a ≡ₚ take (N.to_nat (size v)) (Elements v) /\
    drop (N.to_nat (size v)) a = drop (N.to_nat (size v)) (Elements v) /\
    HeapVec.IsHeap (mkVector a (size v)) = Ok true (mkVector a (size v)).
Proof.
  assert (H : vector_ok (mkVector [3; 9; 2; 7; 5; 0]%Z 5)).
  { unfold vector_ok, max_array_length. simpl. lia. }
  split; [exact H|]. exact (heapify_builds_heap _ H).
Defined.

(** A node that dominates its children is left where it is. *)
Lemma HeapifyDown_noop (v : Vector) (idx : N) :
  vector_ok v -> idx < size v ->
  edge_ok (N.to_nat (size v)) (Elements v) (N.to_nat idx) ->
  HeapVec.HeapifyDown idx v = Ok tt v.
Proof.
  intros Hok Hidx He. unfold HeapVec.HeapifyDown. run_step.
  destruct (HeapifyDown_round (size v) v idx Hok eq_refl ltac:(lia))
    as [[Hstep _]|(c & _ & (Hc & Hlc) & Hlt)].
  - simpl. unfold bind. rewrite Hstep. reflexivity.
  - exfalso. destruct He as [Hl Hr].
    destruct Hlc as [[Heq _]|[Heq _]]; rewrite Heq in *; lia.
Qed.

Lemma HeapifyUp_noop (v : Vector) (idx : N) :
  vector_ok v -> idx < size v ->
  is_heap (N.to_nat (size v)) (Elements v) ->
  HeapVec.HeapifyUp idx v = Ok tt v.
Proof.
  intros Hok Hidx Hh. unfold HeapVec.HeapifyUp. simpl. unfold bind.
  destruct (vector_ok_index v idx Hok ltac:(lia)) as (Hi62 & Hs62 & Hl).
  unfold HeapVec.HeapifyUp_step. run_step.
  destruct (N.ltb_spec 0 idx) as [Hpos|Hz]; [|reflexivity].
  rewrite GetParent_nowrap by lia.
  rewrite (load_Ok idx), (load_Ok ((idx - 1) / 2)) by lia.
  rewrite to_nat_parent, Z.gtb_ltb.
  pose proof (proj1 (is_heap_parent_iff _ _) Hh (N.to_nat idx) ltac:(lia)).
  destruct (Z.ltb_spec (elem (Elements v) ((N.to_nat idx - 1) / 2))
                       (elem (Elements v) (N.to_nat idx))); [lia|reflexivity].
Qed.

(** X17: on a vector that is a heap, [Heapify()], [HeapifyDown(idx)] and
    [HeapifyUp(idx)] (for [idx < size]) change nothing. *)
Theorem heapify_on_heap_is_identity (v : Vector) (idx : N) :
  vector_ok v -> HeapVec.IsHeap v = Ok true v ->
  HeapVec.Heapify v = Ok tt v /\
  (idx < size v ->
   HeapVec.HeapifyDown idx v = Ok tt v /\ HeapVec.HeapifyUp idx v = Ok tt v).
Proof.
  intros Hok Hrun. apply IsHeap_true_iff in Hrun; [|exact Hok].
  split.
  2:{ intros Hidx. split; [|apply HeapifyUp_noop; assumption].
      apply HeapifyDown_noop; try assumption. apply Hrun. lia. }
  unfold HeapVec.Heapify. run_step.
  destruct (N.ltb_spec 1 (size v)) as [Hgt|Hle]; [|reflexivity].
  assert (Hs62 : size v < 2 ^ 62)
    by (destruct Hok; unfold max_array_length in *; lia).
  rewrite to_long_pred by lia.
  destruct (loop_rule HeapVec.Heapify_step
    (fun i s => s = v /\ (-1 <= i < Z.of_N (size v / 2))%Z)
    (fun _ s => s = v)
    (fun i _ => Z.to_nat (i + 1)))
    with (fuel := S (N.to_nat (size v / 2)))
         (v := (Z.of_N (size v / 2) - 1)%Z) (s := v)
    as ([] & s' & Hloop & ->); [| | |exact Hloop].
  - intros i s (-> & Hi). unfold HeapVec.Heapify_step. rewrite Z.geb_leb.
    destruct (Z.leb_spec 0 i) as [Hpos|Hneg]; [|reflexivity].
    run_step. rewrite HeapifyDown_noop; try assumption; try lia.
    + split; [|lia]. split; [reflexivity|lia].
    + apply Hrun. lia.
  - split; [reflexivity|lia].
  - lia.
Qed.

Lemma heapify_on_heap_is_identity_witness :
  let v := mkVector [20; 8; 15; 2; 5; 10; 3]%Z 7 in
  vector_ok v /\ HeapVec.IsHeap v = Ok true v /\
  HeapVec.Heapify v = Ok tt v /\
  (4 < size v ->
   HeapVec.HeapifyDown 4 v = Ok tt v /\ HeapVec.HeapifyUp 4 v = Ok tt v).
Proof.
  assert (H : vector_ok (mkVector [20; 8; 15; 2; 5; 10; 3]%Z 7)).
  { unfold vector_ok, max_array_length. simpl. lia. }
  split; [exact H|]. split; [reflexivity|].
  exact (heapify_on_heap_is_identity _ 4 H eq_refl).
Defined.
End HeapProps.

(** *** Ties between the children of a node *)

Section TieBreak.
Local Open Scope N_scope.

(** A loop that returns keeps returning the same with a larger bound. *)
Lemma loop_more_fuel {St V A} (step : V -> M St (V + A)) (n : nat) :
  forall (m : nat) (v : V) (s : St) (a : A) (s' : St),
    (n <= m)%nat -> loop n step v s = Ok a s' -> loop m step v s = Ok a s'.
Proof.
  induction n as [|n IH]; intros m v s a s' Hnm Hrun; [discriminate|].
  destruct m as [|m]; [lia|]. simpl in *. unfold bind in *.
  destruct (step v s) as [[v'|b] s1| | |]; try discriminate.
  - apply IH; [lia|exact Hrun].
  - exact Hrun.
Qed.

(** The sift from a node other than the root returns within [size]
    rounds. *)
Lemma HeapifyDown_short (v : Vector) (idx : N) :
  vector_ok v -> 0 < idx -> idx < size v ->
  exists a,
    loop (N.to_nat (size v)) HeapVec.HeapifyDown_step idx v
    = Ok tt (mkVector a (size v)).
Proof.
  intros Hok Hpos Hidx.
  destruct (loop_rule HeapVec.HeapifyDown_step
    (fun i s => size s = size v /\ length (Elements s) = length (Elements v) /\
                i < size v)
    (fun _ s => size s = size v)
    (fun i _ => (N.to_nat (size v) - N.to_nat i)%nat))
    with (fuel := N.to_nat (size v)) (v := idx) (s := v)
    as ([] & s' & Hrun & Hsz).
  - intros i s (Hsz & Hlen & Hi).
    assert (Hoks : vector_ok s).
    { destruct Hok. split; rewrite ?Hsz, ?Hlen; assumption. }
    destruct (HeapifyDown_round (size s) s i Hoks eq_refl ltac:(lia))
      as [[-> _]|(c & -> & Hc & _)]; [exact Hsz|].
    cbn [size Elements]. rewrite length_swap_list.
    pose proof (larger_child_bounds _ _ _ _ Hc) as Hcn.
    split; [|lia]. split; [exact Hsz|]. split; [exact Hlen|]. lia.
  - split; [reflexivity|]. split; [reflexivity|exact Hidx].
  - lia.
  - exists (Elements s'). destruct s' as [a sz]. simpl in *. subst sz.
    exact Hrun.
Qed.

(** X18: when both children of a node are in the heap, equal, and greater
    than the node, [HeapifyDown] exchanges the node with its left child and
    goes on from there: ties between children go to the left. *)
Theorem heapify_down_prefers_left (v : Vector) (idx : N) :
  vector_ok v -> 2 * idx + 2 < size v ->
  elem (Elements v) (N.to_nat (2 * idx + 1))
  = elem (Elements v) (N.to_nat (2 * idx + 2)) ->
  (elem (Elements v) (N.to_nat idx)
   < elem (Elements v) (N.to_nat (2 * idx + 1)))%Z ->
  HeapVec.HeapifyDown idx v =
  HeapVec.HeapifyDown (2 * idx + 1)
    (mkVector (swap_list (N.to_nat idx) (N.to_nat (2 * idx + 1)) (Elements v))
              (size v)).
Proof.
  intros Hok Hr Htie Hlt.
  destruct (vector_ok_index v (2 * idx + 2) Hok ltac:(lia)) as (H62 & Hs62 & Hl).
  set (v1 := mkVector _ _).
  assert (Hok1 : vector_ok v1).
  { unfold vector_ok, v1. simpl. rewrite length_swap_list. exact Hok. }
  assert (Hstep : HeapVec.HeapifyDown_step idx v = Ok (inl (2 * idx + 1)) v1).
  { unfold HeapVec.HeapifyDown_step. run_step.
    rewrite GetLeftChild_nowrap, GetRightChild_nowrap by lia.
    destruct (N.ltb_spec (2 * idx + 1) (size v)); [|lia].
    destruct (N.ltb_spec (2 * idx + 2) (size v)); [|lia].
    rewrite (load_Ok (2 * idx + 2)), (load_Ok (2 * idx + 1)) by lia.
    rewrite <- Htie, Z.gtb_ltb, Z.ltb_irrefl.
    rewrite (load_Ok idx), (load_Ok (2 * idx + 1)) by lia.
    rewrite Z.geb_leb.
    destruct (Z.leb_spec (elem (Elements v) (N.to_nat (2 * idx + 1)))
                         (elem (Elements v) (N.to_nat idx))); [lia|].
    rewrite swap_Ok by lia. reflexivity. }
  destruct (HeapifyDown_short v1 (2 * idx + 1) Hok1 ltac:(lia)
              ltac:(simpl; lia)) as (a & Hrun).
  unfold HeapVec.HeapifyDown at 1. run_step.
  change (loop (S (N.to_nat (size v))) HeapVec.HeapifyDown_step idx v)
    with (bind (HeapVec.HeapifyDown_step idx)
            (fun r => match r with
                      | inl v' => loop (N.to_nat (size v))
                                       HeapVec.HeapifyDown_step v'
                      | inr a => ret a
                      end) v).
  unfold bind. rewrite Hstep.
  change (size v) with (size v1) at 1. rewrite Hrun.
  unfold HeapVec.HeapifyDown. run_step. symmetry.
  apply (loop_more_fuel _ (N.to_nat (size v1))); [lia|exact Hrun].
Qed.

Lemma heapify_down_prefers_left_witness :
  let v := mkVector [1; 9; 9; 4; 5; 6; 7]%Z 7 in
  vector_ok v /\ 2 * 0 + 2 < size v /\
  elem (Elements v) (N.to_nat (2 * 0 + 1))
  = elem (Elements v) (N.to_nat (2 * 0 + 2)) /\
  (elem (Elements v) (N.to_nat 0)
   < elem (Elements v) (N.to_nat (2 * 0 + 1)))%Z /\
  HeapVec.HeapifyDown 0 v =
  HeapVec.HeapifyDown (2 * 0 + 1)
    (mkVector (swap_list (N.to_nat 0) (N.to_nat (2 * 0 + 1)) (Elements v))
              (size v)).
Proof.
  assert (H : vector_ok (mkVector [1; 9; 9; 4; 5; 6; 7]%Z 7)).
  { unfold vector_ok, max_array_length. simpl. lia. }
  split; [exact H|]. split; [reflexivity|]. split; [reflexivity|].
  split; [reflexivity|].
  exact (heapify_down_prefers_left _ 0 H eq_refl eq_refl eq_refl).
Defined.
End TieBreak.

(** ** More on the priority queue *)

Section QueueProps.
Local Open Scope N_scope.

(** The root of a non-empty valid heap is one of its elements and bounds
    them all. *)
Lemma heap_root_is_max (pq : PQHeap) :
  valid pq -> heap_ok pq -> size pq <> 0 ->
  elem (Elements pq) 0 ∈ live pq /\
  forall y, y ∈ live pq -> (y <= elem (Elements pq) 0)%Z.
Proof.
  intros Hv Hh Hne. split.
  - apply (list_elem_of_lookup_2 _ 0%nat).
    apply (items_lookup pq 0 (valid_vector_ok pq Hv)). lia.
  - intros y Hy. destruct (live_elem_of pq y Hv Hy) as (j & Hj & <-).
    apply (is_heap_root_max _ _ Hh). exact Hj.
Qed.

(** X19: on a non-empty valid heap, [Tip()] returns a live element that
    is greater than or equal to every live element, and leaves the queue
    unchanged. *)
Theorem tip_is_maximum (pq : PQHeap) :
  valid pq -> PQ.IsHeap pq = Ok true pq -> size pq <> 0 ->
  exists x,
    PQ.Tip pq = Ok x pq /\ x ∈ live pq /\
    forall y, y ∈ live pq -> (y <= x)%Z.
Proof.
  intros Hv Hh Hne. apply PQ_IsHeap_true in Hh; [|exact Hv].
  exists (elem (Elements pq) 0). split.
  - rewrite Tip_spec by exact Hv.
    destruct (N.eqb_spec (size pq) 0); [contradiction|reflexivity].
  - apply heap_root_is_max; assumption.
Qed.

Lemma tip_is_maximum_witness :
  let pq := mkPQHeap (mkVector [20; 8; 15; 99]%Z 3) 4 in
  valid pq /\ PQ.IsHeap pq = Ok true pq /\ size pq <> 0 /\
  exists x,
    PQ.Tip pq = Ok x pq /\ x ∈ live pq /\
    forall y, y ∈ live pq -> (y <= x)%Z.
Proof.
  assert (H : valid (mkPQHeap (mkVector [20; 8; 15; 99]%Z 3) 4)).
  { unfold valid, max_array_length. simpl. lia. }
  assert (H0 : size (mkPQHeap (mkVector [20; 8; 15; 99]%Z 3) 4) <> 0)
    by discriminate.
  split; [exact H|]. split; [reflexivity|]. split; [exact H0|].
  exact (tip_is_maximum _ H eq_refl H0).
Defined.

(** What [Insert] does to the capacity. *)
Lemma first_doubling_full (c newCapacity : N) :
  first_doubling (N.max c 1) (c + 1) newCapacity ->
  newCapacity = N.max 1 (2 * c).
Proof.
  intros (k & -> & Hge & Hprev).
  destruct (N.eq_dec k 0) as [->|Hk0].
  { simpl in *. lia. }
  destruct (N.eq_dec k 1) as [->|Hk1].
  { simpl in *. specialize (Hprev 0 ltac:(lia)). simpl in Hprev. lia. }
  specialize (Hprev 1 ltac:(lia)). simpl in Hprev. lia.
Qed.

Lemma Insert_full x (pq : PQHeap) :
  valid pq -> size pq < 2 ^ 61 ->
  exists pq',
    PQ.Insert x pq = Ok tt pq' /\
    valid pq' /\ size pq' = size pq + 1 /\
    capacity pq' = (if size pq <? capacity pq then capacity pq
                    else N.max 1 (2 * capacity pq)) /\
    live pq' ≡ₚ x :: live pq /\ (heap_ok pq -> heap_ok pq').
Proof.
  intros Hv Hs61. pose proof (valid_vector_ok pq Hv) as Hok.
  pose proof Hv as (Hsc & Hcl & Hm).
  unfold PQ.Insert. unfold bind at 1. unfold gets at 1.
  rewrite add_nowrap by lia.
  destruct (N.ltb_spec (size pq) (capacity pq)) as [Hlt|Hge].
  - rewrite (bind_Ok _ _ _ _ _ (EnsureCapacity_noop pq (size pq + 1) ltac:(lia))).
    destruct (Insert_tail x pq Hv Hlt)
      as (pq' & -> & Hv' & Hs' & Hc' & Hp' & Hh').
    exists pq'. auto 10.
  - assert (Heq : capacity pq = size pq) by lia.
    destruct (EnsureCapacity_grow pq (size pq + 1) Hok ltac:(lia) ltac:(lia)
                ltac:(lia)) as (newCapacity & Hfd & Hlt & Hrun).
    rewrite Heq in Hfd. apply first_doubling_full in Hfd. rewrite <- Heq in Hfd.
    destruct (N.leb_spec newCapacity max_array_length) as [Hfit|Hbig].
    2:{ unfold max_array_length in Hbig. lia. }
    rewrite (bind_Ok _ _ _ _ _ Hrun).
    assert (Hv1 : valid (relocated pq newCapacity))
      by (apply relocated_valid; try assumption; lia).
    destruct (Insert_tail x (relocated pq newCapacity) Hv1
                ltac:(simpl; lia))
      as (pq' & Hrun' & Hv' & Hs' & Hc' & Hp' & Hh').
    change (size (relocated pq newCapacity)) with (size pq) in Hrun'.
    exists pq'. split; [exact Hrun'|]. split; [exact Hv'|].
    split; [exact Hs'|]. split; [rewrite Hc'; exact Hfd|]. split.
    + rewrite Hp'. unfold live at 1.
      change (size (relocated pq newCapacity)) with (size pq).
      rewrite relocated_take by exact Hok. reflexivity.
    + intros Hh. apply Hh', relocated_heap_ok; assumption.
Qed.

(** X20: on a valid heap of fewer than [2^61] elements, [Insert(x)]
    (either overload) returns; the queue is then a valid heap of one more
    element, its live elements are the former ones and [x], and [Tip()]
    returns [x] if the queue was empty and the larger of [x] and the former
    tip otherwise. *)
Theorem insert_adds_value (x : Z) (pq : PQHeap) :
  valid pq -> PQ.IsHeap pq = Ok true pq -> size pq < 2 ^ 61 ->
  exists pq',
    PQ.Insert x pq = Ok tt pq' /\ PQ.Insert_move x pq = Ok tt pq' /\
    valid pq' /\ PQ.IsHeap pq' = Ok true pq' /\
    size pq' = size pq + 1 /\ live pq' ≡ₚ x :: live pq /\
    PQ.Tip pq' =
    Ok (if size pq =? 0 then x else Z.max x (elem (Elements pq) 0)) pq'.
Proof.
  intros Hv Hh Hs61. apply PQ_IsHeap_true in Hh; [|exact Hv].
  destruct (Insert_full x pq Hv Hs61) as (pq' & Hrun & Hv' & Hs' & _ & Hp' & Hh').
  specialize (Hh' Hh).
  exists pq'. split; [exact Hrun|]. split; [exact Hrun|]. split; [exact Hv'|].
  split; [apply PQ_IsHeap_true; assumption|]. split; [exact Hs'|].
  split; [exact Hp'|].
  rewrite Tip_spec by exact Hv'.
  destruct (N.eqb_spec (size pq') 0) as [|_]; [lia|]. f_equal.
  destruct (heap_root_is_max pq' Hv' Hh' ltac:(lia)) as [Hin Hmax].
  rewrite Hp' in Hin. setoid_rewrite Hp' in Hmax.
  pose proof (Hmax x ltac:(left)) as Hx.
  apply elem_of_cons in Hin.
  destruct (N.eqb_spec (size pq) 0) as [H0|H0].
  - destruct Hin as [Hin|Hin]; [exact Hin|].
    unfold live in Hin. rewrite H0 in Hin. simpl in Hin.
    apply elem_of_nil in Hin. contradiction.
  - destruct (heap_root_is_max pq Hv Hh H0) as [Hr Hrmax].
    pose proof (Hmax _ ltac:(right; exact Hr)) as Hr'.
    destruct Hin as [Hin|Hin]; [lia|].
    apply Hrmax in Hin. lia.
Qed.

Lemma insert_adds_value_witness :
  let pq := mkPQHeap (mkVector [20; 8; 15; 99]%Z 3) 4 in
  valid pq /\ PQ.IsHeap pq = Ok true pq /\ size pq < 2 ^ 61 /\
  exists pq',
    PQ.Insert 17 pq = Ok tt pq' /\ PQ.Insert_move 17 pq = Ok tt pq' /\
    valid pq' /\ PQ.IsHeap pq' = Ok true pq' /\
    size pq' = size pq + 1 /\ live pq' ≡ₚ 17%Z :: live pq /\
    PQ.Tip pq' =
    Ok (if size pq =? 0 then 17%Z else Z.max 17 (elem (Elements pq) 0)) pq'.
Proof.
  assert (H : valid (mkPQHeap (mkVector [20; 8; 15; 99]%Z 3) 4)).
  { unfold valid, max_array_length. simpl. lia. }
  split; [exact H|]. split; [reflexivity|]. split; [reflexivity|].
  exact (insert_adds_value 17 _ H eq_refl eq_refl).
Defined.

(** What [ShrinkCapacity] and [RemoveTip] do to the capacity. *)
Lemma Shrink_capacity (pq : PQHeap) :
  valid pq ->
  exists pq',
    PQ.ShrinkCapacity pq = Ok tt pq' /\ size pq' = size pq /\
    capacity pq' = (if (4 <? capacity pq) && (size pq <=? capacity pq / 4)
                    then capacity pq / 2 else capacity pq).
Proof.
  intros Hv. pose proof Hv as (Hsc & Hcl & Hm).
  destruct (N.ltb_spec 4 (capacity pq)) as [H4|H4];
    destruct (N.leb_spec (size pq) (capacity pq / 4)) as [Hq|Hq]; cbn [andb].
  1:{ exists (relocated pq (N.max (capacity pq / 2) (size pq))).
      split; [|split; [reflexivity|simpl; lia]].
      apply ShrinkCapacity_shrink; try assumption;
        [apply valid_vector_ok; exact Hv|lia]. }
  all: exists pq; split; [apply ShrinkCapacity_noop; lia|split; reflexivity].
Qed.

Lemma RemoveTip_shape (pq : PQHeap) :
  valid pq -> size pq <> 0 ->
  exists pq2,
    PQ.RemoveTip pq = PQ.ShrinkCapacity pq2 /\ valid pq2 /\
    size pq2 = size pq - 1 /\ capacity pq2 = capacity pq.
Proof.
  intros Hv H0. pose proof (valid_size_bound pq Hv) as Hs62.
  pose proof Hv as (Hsc & Hcl & Hm).
  unfold PQ.RemoveTip. unfold bind at 1. unfold gets at 1.
  destruct (N.eqb_spec (size pq) 0) as [|_]; [contradiction|].
  destruct (N.eqb_spec (size pq) 1) as [H1|H1].
  - unfold bind at 1. unfold set_size, modify.
    eexists. split; [reflexivity|]. split; [|split; [simpl; lia|reflexivity]].
    unfold valid. simpl. lia.
  - rewrite sub_nowrap by lia.
    rewrite (bind_Ok _ _ _ _ _
               (lift_Ok _ pq _ _ (load_Ok (size pq - 1) pq ltac:(lia)))).
    rewrite (bind_Ok _ _ _ _ _
               (lift_Ok _ _ _ _
                  (store_Ok 0 _ (heap (mkPQHeap (heap pq) (capacity pq)))
                     ltac:(simpl; lia)))).
    unfold bind at 1. unfold set_size, modify. cbn [heap Elements size capacity].
    set (a1 := <[N.to_nat 0 := _]> (Elements pq)).
    destruct (HeapifyDown_spec False 0 (fun _ => True)
                (mkVector a1 (size pq - 1)) 0)
      as (a2 & Hrun & Hl2 & _ & _).
    + split; simpl; unfold a1; rewrite length_insert; lia.
    + simpl. lia.
    + lia.
    + contradiction.
    + apply swap_closed_True.
    + exact I.
    + unfold bind at 1. unfold lift at 1. cbn [heap capacity]. rewrite Hrun.
      simpl in Hl2. unfold a1 in Hl2. rewrite length_insert in Hl2.
      eexists. split; [reflexivity|].
      split; [|split; reflexivity]. unfold valid. simpl. lia.
Qed.

Lemma RemoveTip_full (pq : PQHeap) :
  valid pq -> size pq <> 0 ->
  exists pq',
    PQ.RemoveTip pq = Ok tt pq' /\
    valid pq' /\ size pq' = size pq - 1 /\
    capacity pq' = (if (4 <? capacity pq) && (size pq - 1 <=? capacity pq / 4)
                    then capacity pq / 2 else capacity pq) /\
    elem (Elements pq) 0 :: live pq' ≡ₚ live pq /\
    (heap_ok pq -> heap_ok pq').
Proof.
  intros Hv H0.
  destruct (RemoveTip_shape pq Hv H0) as (pq2 & Hshape & Hv2 & Hs2 & Hc2).
  destruct (Shrink_capacity pq2 Hv2) as (pq' & Hrun & Hs' & Hc').
  pose proof (RemoveTip_spec pq Hv) as Hspec.
  rewrite Hshape, Hrun in Hspec. destruct Hspec as (_ & Hv' & Hsz & Hp & Hh).
  exists pq'. split; [rewrite Hshape; exact Hrun|].
  split; [exact Hv'|]. split; [exact Hsz|].
  split; [rewrite Hc', Hs2, Hc2; reflexivity|]. split; assumption.
Qed.

(** X21: on a non-empty valid heap, [RemoveTip()] removes exactly one
    occurrence of the value [Tip()] returns, every remaining element being
    at most that value, and leaves a valid heap of one element less;
    [TipNRemove()] returns that value and leaves the same queue. *)
Theorem remove_tip_removes_maximum (pq : PQHeap) :
  valid pq -> PQ.IsHeap pq = Ok true pq -> size pq <> 0 ->
  exists x pq',
    PQ.Tip pq = Ok x pq /\
    PQ.RemoveTip pq = Ok tt pq' /\ PQ.TipNRemove pq = Ok x pq' /\
    valid pq' /\ PQ.IsHeap pq' = Ok true pq' /\
    size pq' = size pq - 1 /\ x :: live pq' ≡ₚ live pq /\
    forall y, y ∈ live pq' -> (y <= x)%Z.
Proof.
  intros Hv Hh H0. apply PQ_IsHeap_true in Hh; [|exact Hv].
  pose proof Hv as (Hsc & Hcl & Hm).
  destruct (RemoveTip_full pq Hv H0) as (pq' & Hrun & Hv' & Hs' & _ & Hp & Hh').
  exists (elem (Elements pq) 0), pq'. split.
  { rewrite Tip_spec by exact Hv.
    destruct (N.eqb_spec (size pq) 0); [contradiction|reflexivity]. }
  split; [exact Hrun|]. split.
  { rewrite TipNRemove_RemoveTip by (intros _; lia). rewrite Hrun.
    reflexivity. }
  split; [exact Hv'|]. split; [apply PQ_IsHeap_true; auto|].
  split; [exact Hs'|]. split; [exact Hp|].
  intros y Hy. apply (heap_root_is_max pq Hv Hh H0).
  rewrite <- Hp. right. exact Hy.
Qed.

Lemma remove_tip_removes_maximum_witness :
  let pq := mkPQHeap (mkVector [20; 8; 15; 99]%Z 3) 4 in
  valid pq /\ PQ.IsHeap pq = Ok true pq /\ size pq <> 0 /\
  exists x pq',
    PQ.Tip pq = Ok x pq /\
    PQ.RemoveTip pq = Ok tt pq' /\ PQ.TipNRemove pq = Ok x pq' /\
    valid pq' /\ PQ.IsHeap pq' = Ok true pq' /\
    size pq' = size pq - 1 /\ x :: live pq' ≡ₚ live pq /\
    forall y, y ∈ live pq' -> (y <= x)%Z.
Proof.
  assert (H : valid (mkPQHeap (mkVector [20; 8; 15; 99]%Z 3) 4)).
  { unfold valid, max_array_length. simpl. lia. }
  assert (H0 : size (mkPQHeap (mkVector [20; 8; 15; 99]%Z 3) 4) <> 0)
    by discriminate.
  split; [exact H|]. split; [reflexivity|]. split; [exact H0|].
  exact (remove_tip_removes_maximum _ H eq_refl H0).
Defined.

(** X22: on a valid queue, an [Insert] that follows a [RemoveTip] never
    reallocates, and a [RemoveTip] that follows an [Insert] which
    reallocated never reallocates: alternating the two operations at a
    capacity boundary does not reallocate at every call. *)
Theorem reallocations_do_not_alternate (x : Z) (pq : PQHeap) :
  valid pq -> size pq < 2 ^ 61 ->
  (size pq <> 0 ->
   exists pq1 pq2,
     PQ.RemoveTip pq = Ok tt pq1 /\ PQ.Insert x pq1 = Ok tt pq2 /\
     capacity pq2 = capacity pq1) /\
  (exists pq1 pq2,
     PQ.Insert x pq = Ok tt pq1 /\ PQ.RemoveTip pq1 = Ok tt pq2 /\
     (capacity pq1 <> capacity pq -> capacity pq2 = capacity pq1)).
Proof.
  intros Hv Hs61. pose proof Hv as (Hsc & Hcl & Hm). split.
  - intros H0.
    destruct (RemoveTip_full pq Hv H0) as (pq1 & Hr1 & Hv1 & Hs1 & Hc1 & _).
    destruct (Insert_full x pq1 Hv1 ltac:(lia))
      as (pq2 & Hr2 & _ & _ & Hc2 & _).
    exists pq1, pq2. split; [exact Hr1|]. split; [exact Hr2|].
    rewrite Hc2. destruct (N.ltb_spec (size pq1) (capacity pq1)) as [|Hge];
      [reflexivity|].
    exfalso. rewrite Hc1, Hs1 in Hge.
    destruct (N.ltb_spec 4 (capacity pq));
      destruct (N.leb_spec (size pq - 1) (capacity pq / 4));
      cbn [andb] in Hge; lia.
  - destruct (Insert_full x pq Hv Hs61) as (pq1 & Hr1 & Hv1 & Hs1 & Hc1 & _).
    destruct (RemoveTip_full pq1 Hv1 ltac:(lia))
      as (pq2 & Hr2 & _ & _ & Hc2 & _).
    exists pq1, pq2. split; [exact Hr1|]. split; [exact Hr2|].
    intros Hgrew. rewrite Hc2, Hs1.
    destruct (N.ltb_spec (size pq) (capacity pq)) as [|Hge]; [congruence|].
    destruct (N.ltb_spec 4 (capacity pq1));
      destruct (N.leb_spec (size pq + 1 - 1) (capacity pq1 / 4));
      cbn [andb]; try reflexivity.
    exfalso. lia.
Qed.

Lemma reallocations_do_not_alternate_witness :
  let pq := mkPQHeap (mkVector [20; 8; 15; 7; 0; 0; 0; 0]%Z 3) 8 in
  valid pq /\ size pq < 2 ^ 61 /\
  (size pq <> 0 ->
   exists pq1 pq2,
     PQ.RemoveTip pq = Ok tt pq1 /\ PQ.Insert 5 pq1 = Ok tt pq2 /\
     capacity pq2 = capacity pq1) /\
  (exists pq1 pq2,
     PQ.Insert 5 pq = Ok tt pq1 /\ PQ.RemoveTip pq1 = Ok tt pq2 /\
     (capacity pq1 <> capacity pq -> capacity pq2 = capacity pq1)).
Proof.
  assert (H : valid (mkPQHeap (mkVector [20; 8; 15; 7; 0; 0; 0; 0]%Z 3) 8)).
  { unfold valid, max_array_length. simpl. lia. }
  split; [exact H|]. split; [reflexivity|].
  exact (reallocations_do_not_alternate 5 _ H eq_refl).
Defined.
End QueueProps.

Section QueueProps2.
Local Open Scope N_scope.

(** One occurrence replaced, as multisets. *)
Lemma insert_perm (l : list Z) (i : nat) (old new : Z) :
  l !! i = Some old -> old :: <[i := new]> l ≡ₚ new :: l.
Proof.
  intros Hl. assert (Hi : (i < length l)%nat) by (eapply lookup_lt_Some, Hl).
  rewrite insert_take_drop by exact Hi.
  rewrite <- (take_drop_middle l i old Hl) at 3.
  rewrite <- !Permutation_middle. apply perm_swap.
Qed.

(** X23: on a valid heap, [Change(oldValue, newValue)] with [oldValue]
    among the live elements replaces exactly one occurrence of [oldValue]
    by [newValue], and [Change(idx, newValue)] with [idx < size] replaces
    the element at [idx]; both overloads of each return the same valid heap
    of the same size and capacity. *)
Theorem change_replaces_one (pq : PQHeap) (oldValue newValue : Z) (idx : N) :
  valid pq -> PQ.IsHeap pq = Ok true pq ->
  (oldValue ∈ live pq ->
   exists pq',
     PQ.Change oldValue newValue pq = Ok tt pq' /\
     PQ.Change_move oldValue newValue pq = Ok tt pq' /\
     valid pq' /\ PQ.IsHeap pq' = Ok true pq' /\
     size pq' = size pq /\ capacity pq' = capacity pq /\
     oldValue :: live pq' ≡ₚ newValue :: live pq) /\
  (idx < size pq ->
   exists pq',
     PQ.Change_at idx newValue pq = Ok tt pq' /\
     PQ.Change_at_move idx newValue pq = Ok tt pq' /\
     valid pq' /\ PQ.IsHeap pq' = Ok true pq' /\
     size pq' = size pq /\ capacity pq' = capacity pq /\
     elem (Elements pq) (N.to_nat idx) :: live pq' ≡ₚ newValue :: live pq).
Proof.
  intros Hv Hh. apply PQ_IsHeap_true in Hh; [|exact Hv].
  pose proof (valid_vector_ok pq Hv) as Hok. split.
  - intros Hin. destruct (live_elem_of pq _ Hv Hin) as (j & Hj & Hej).
    pose proof (Change_spec oldValue newValue pq Hv) as Hspec.
    rewrite Change_move_eq.
    destruct (PQ.Change oldValue newValue pq) as [[] pq'|e pq'| |];
      try contradiction.
    2:{ destruct Hspec as (Hnone & _). exfalso. exact (Hnone j Hj Hej). }
    destruct Hspec as ((i & Hi & Hei & _ & Hp) & Hv' & Hs' & Hc' & Hh').
    exists pq'. split; [reflexivity|]. split; [reflexivity|].
    split; [exact Hv'|]. split; [apply PQ_IsHeap_true; auto|].
    split; [exact Hs'|]. split; [exact Hc'|].
    rewrite Hp. apply insert_perm. rewrite <- Hei.
    apply (items_lookup pq _ Hok). lia.
  - intros Hidx.
    pose proof (Change_at_spec idx newValue pq Hv) as Hspec.
    rewrite Change_at_move_eq.
    destruct (PQ.Change_at idx newValue pq) as [[] pq'|e pq'| |];
      try contradiction.
    2:{ destruct Hspec as (Hge & _). lia. }
    destruct Hspec as (_ & Hv' & Hs' & Hc' & Hp & Hh').
    exists pq'. split; [reflexivity|]. split; [reflexivity|].
    split; [exact Hv'|]. split; [apply PQ_IsHeap_true; auto|].
    split; [exact Hs'|]. split; [exact Hc'|].
    rewrite Hp. apply insert_perm. apply (items_lookup pq _ Hok). lia.
Qed.

Lemma change_replaces_one_witness :
  let pq := mkPQHeap (mkVector [20; 8; 15; 8]%Z 4) 4 in
  valid pq /\ PQ.IsHeap pq = Ok true pq /\
  (8%Z ∈ live pq ->
   exists pq',
     PQ.Change 8 30 pq = Ok tt pq' /\
     PQ.Change_move 8 30 pq = Ok tt pq' /\
     valid pq' /\ PQ.IsHeap pq' = Ok true pq' /\
     size pq' = size pq /\ capacity pq' = capacity pq /\
     8%Z :: live pq' ≡ₚ 30%Z :: live pq) /\
  (2 < size pq ->
   exists pq',
     PQ.Change_at 2 30 pq = Ok tt pq' /\
     PQ.Change_at_move 2 30 pq = Ok tt pq' /\
     valid pq' /\ PQ.IsHeap pq' = Ok true pq' /\
     size pq' = size pq /\ capacity pq' = capacity pq /\
     elem (Elements pq) (N.to_nat 2) :: live pq' ≡ₚ 30%Z :: live pq).
Proof.
  assert (H : valid (mkPQHeap (mkVector [20; 8; 15; 8]%Z 4) 4)).
  { unfold valid, max_array_length. simpl. lia. }
  split; [exact H|]. split; [reflexivity|].
  exact (change_replaces_one _ 8 30 2 H eq_refl).
Defined.

Lemma insert_all_doubled (values : list Z) : forall pq0 : PQHeap,
  valid pq0 -> doubled pq0 ->
  size pq0 + N.of_nat (length values) <= 2 ^ 61 ->
  exists pq,
    Client.insert_all values pq0 = Ok tt pq /\ valid pq /\ doubled pq /\
    size pq = size pq0 + N.of_nat (length values).
Proof.
  induction values as [|x rest IH]; intros pq0 Hv Hd Hlen.
  - exists pq0. simpl. split; [reflexivity|]. split; [exact Hv|].
    split; [exact Hd|lia].
  - simpl length in Hlen.
    destruct (Insert_full x pq0 Hv ltac:(lia))
      as (pq1 & Hrun & Hv1 & Hs1 & Hc1 & _).
    assert (Hd1 : doubled pq1).
    { right. revert Hc1.
      destruct (N.ltb_spec (size pq0) (capacity pq0)) as [Hlt|Hge]; intros Hc1.
      - destruct Hd as [[H0 Hc0]|(k & Hk & Hle & Hlt2)]; [lia|].
        exists k. lia.
      - destruct Hd as [[H0 Hc0]|(k & Hk & Hle & Hlt2)].
        + exists 0. rewrite Hc1, Hc0, Hs1, H0. simpl. lia.
        + exists (k + 1). rewrite N.pow_add_r.
          pose proof (N.pow_nonzero 2 k ltac:(lia)). simpl (2 ^ 1). lia. }
    destruct (IH pq1 Hv1 Hd1 ltac:(lia)) as (pq & Hrest & Hv' & Hd' & Hs').
    exists pq. split.
    + simpl. unfold bind. rewrite Hrun. exact Hrest.
    + split; [exact Hv'|]. split; [exact Hd'|]. simpl length. lia.
Qed.

(** X24: after [n >= 1] calls of [Insert] on a default-constructed queue
    ([n <= 2^61]) the capacity is a power of two with
    [n <= capacity < 2 n]: the array was reallocated only when the size
    reached a power of two. *)
Theorem capacity_is_power_of_two (values : list Z) :
  values <> [] -> N.of_nat (length values) <= 2 ^ 61 ->
  exists pq k,
    (PQ.PQHeap_default ;; Client.insert_all values)%monad PQ.fresh
    = Ok tt pq /\
    size pq = N.of_nat (length values) /\
    capacity pq = 2 ^ k /\
    size pq <= capacity pq /\ capacity pq < 2 * size pq.
Proof.
  intros Hne Hlen.
  destruct (insert_all_doubled values PQ.fresh) as (pq & Hrun & _ & Hd & Hs).
  - apply fresh_valid.
  - left. split; reflexivity.
  - simpl. lia.
  - simpl in Hs. destruct Hd as [[H0 _]|(k & Hk & Hle & Hlt)].
    + destruct values; [contradiction|]. simpl in Hs. lia.
    + exists pq, k. split; [exact Hrun|]. split; [exact Hs|].
      split; [exact Hk|]. split; assumption.
Qed.

Lemma capacity_is_power_of_two_witness :
  [5; 1; 9; 3; 7]%Z <> [] /\ N.of_nat (length [5; 1; 9; 3; 7]%Z) <= 2 ^ 61 /\
  exists pq k,
    (PQ.PQHeap_default ;; Client.insert_all [5; 1; 9; 3; 7]%Z)%monad PQ.fresh
    = Ok tt pq /\
    size pq = N.of_nat (length [5; 1; 9; 3; 7]%Z) /\
    capacity pq = 2 ^ k /\
    size pq <= capacity pq /\ capacity pq < 2 * size pq.
Proof.
  assert (H1 : [5; 1; 9; 3; 7]%Z <> []) by discriminate.
  assert (H2 : N.of_nat (length [5; 1; 9; 3; 7]%Z) <= 2 ^ 61)
    by (simpl; lia).
  split; [exact H1|]. split; [exact H2|].
  exact (capacity_is_power_of_two _ H1 H2).
Defined.

(** X25: on a valid queue, the inherited [Resize(newSize)] with
    [newSize] different from the size and below the capacity (and so
    [Clear()], on a non-empty queue) returns with an array of [newSize]
    slots while the capacity is unchanged: the next [Insert] skips the
    reallocation and writes outside the array. *)
Theorem resize_below_capacity_breaks_insert (pq : PQHeap) (newSize : N) (x : Z) :
  valid pq -> newSize <> size pq -> newSize < capacity pq ->
  exists pq',
    PQ.Resize newSize pq = Ok tt pq' /\
    (newSize = 0 -> PQ.Clear pq = Ok tt pq') /\
    size pq' = newSize /\ capacity pq' = capacity pq /\
    length (Elements pq') = N.to_nat newSize /\
    PQ.Insert x pq' = Fault /\ PQ.Insert_move x pq' = Fault.
Proof.
  intros Hv Hne Hlt. pose proof (valid_vector_ok pq Hv) as Hok.
  pose proof Hv as (Hsc & Hcl & Hm).
  assert (Hres : exists v',
    VectorImpl.Resize newSize pq = Ok tt v' /\ size v' = newSize /\
    length (Elements v') = N.to_nat newSize).
  { destruct (N.eq_dec newSize 0) as [->|Hne0].
    - exists (mkVector [] 0). split; [|split; reflexivity].
      apply Resize_zero. congruence.
    - eexists. split.
      + rewrite Resize_run by assumption.
        destruct (N.leb_spec newSize max_array_length); [reflexivity|lia].
      + split; [reflexivity|]. apply copied_length; lia. }
  destruct Hres as (v' & Hrun & Hs' & Hl').
  exists (mkPQHeap v' (capacity pq)).
  split; [unfold PQ.Resize; apply lift_Ok; exact Hrun|].
  split.
  { intros ->. unfold PQ.Clear, VectorImpl.Clear. apply lift_Ok. exact Hrun. }
  split; [exact Hs'|]. split; [reflexivity|]. split; [exact Hl'|].
  assert (PQ.Insert x (mkPQHeap v' (capacity pq)) = Fault) as Hf; [|split; exact Hf].
  unfold PQ.Insert. unfold bind at 1. unfold gets at 1. cbn [heap].
  rewrite Hs'. rewrite add_nowrap by (unfold max_array_length in Hm; lia).
  rewrite (bind_Ok _ _ _ _ _
             (EnsureCapacity_noop (mkPQHeap v' (capacity pq)) (newSize + 1)
                ltac:(simpl; lia))).
  unfold bind at 1. unfold lift at 1. cbn [heap].
  rewrite store_Fault by lia. reflexivity.
Qed.

Lemma resize_below_capacity_breaks_insert_witness :
  let pq := mkPQHeap (mkVector [20; 8; 15; 0]%Z 3) 4 in
  valid pq /\ 0 <> size pq /\ 0 < capacity pq /\
  exists pq',
    PQ.Resize 0 pq = Ok tt pq' /\
    (0 = 0 -> PQ.Clear pq = Ok tt pq') /\
    size pq' = 0 /\ capacity pq' = capacity pq /\
    length (Elements pq') = N.to_nat 0 /\
    PQ.Insert 1 pq' = Fault /\ PQ.Insert_move 1 pq' = Fault.
Proof.
  assert (H : valid (mkPQHeap (mkVector [20; 8; 15; 0]%Z 3) 4)).
  { unfold valid, max_array_length. simpl. lia. }
  assert (H0 : 0 <> size (mkPQHeap (mkVector [20; 8; 15; 0]%Z 3) 4))
    by discriminate.
  split; [exact H|]. split; [exact H0|]. split; [reflexivity|].
  exact (resize_below_capacity_breaks_insert _ 0 1 H H0 eq_refl).
Defined.

End QueueProps2.

Section QueueProps3.
Local Open Scope N_scope.

(** [Insert] on a queue whose capacity is not above its size: the array is
    reallocated whatever its length was. *)
Lemma Insert_regrow x (pq : PQHeap) :
  vector_ok pq -> capacity pq <= size pq -> size pq < 2 ^ 61 ->
  exists pq',
    PQ.Insert x pq = Ok tt pq' /\ valid pq' /\ size pq' = size pq + 1 /\
    live pq' ≡ₚ x :: live pq /\ (heap_ok pq -> heap_ok pq').
Proof.
  intros Hok Hcap Hs61.
  unfold PQ.Insert. unfold bind at 1. unfold gets at 1.
  rewrite add_nowrap by lia.
  destruct (EnsureCapacity_grow pq (size pq + 1) Hok ltac:(lia) ltac:(lia)
              ltac:(lia)) as (newCapacity & Hfd & Hlt & Hrun).
  destruct (N.leb_spec newCapacity max_array_length) as [Hfit|Hbig].
  2:{ unfold max_array_length in Hbig. lia. }
  rewrite (bind_Ok _ _ _ _ _ Hrun).
  destruct Hfd as (k & _ & Hge & _).
  assert (Hv1 : valid (relocated pq newCapacity))
    by (apply relocated_valid; try assumption; lia).
  destruct (Insert_tail x (relocated pq newCapacity) Hv1 ltac:(simpl; lia))
    as (pq' & Hrun' & Hv' & Hs' & _ & Hp' & Hh').
  change (size (relocated pq newCapacity)) with (size pq) in Hrun'.
  exists pq'. split; [exact Hrun'|]. split; [exact Hv'|].
  split; [exact Hs'|]. split.
  - rewrite Hp'. unfold live at 1.
    change (size (relocated pq newCapacity)) with (size pq).
    rewrite relocated_take by exact Hok. reflexivity.
  - intros Hh. apply Hh', relocated_heap_ok; assumption.
Qed.

(** X26: after the move assignment [target = std::move(source)] into a
    valid heap [target] of fewer than [2^61] elements, [target] holds what
    [source] held, and the moved-from [source] holds the former elements of
    [target] with capacity 0; the next [Insert] on it reallocates and
    leaves a valid heap of those elements and the new one.  The same holds
    for [target] after the self-assignment [target = std::move(target)],
    which only sets its capacity to 0. *)
Theorem moved_from_queue_recovers (target source : PQHeap) (x : Z) :
  valid target -> PQ.IsHeap target = Ok true target -> size target < 2 ^ 61 ->
  fst (PQ.move_assign target source) = source /\
  size (snd (PQ.move_assign target source)) = size target /\
  capacity (snd (PQ.move_assign target source)) = 0 /\
  (exists pq',
     PQ.Insert x (snd (PQ.move_assign target source)) = Ok tt pq' /\
     valid pq' /\ PQ.IsHeap pq' = Ok true pq' /\
     live pq' ≡ₚ x :: live target) /\
  (exists self pq',
     PQ.move_assign_self target = Ok tt self /\
     size self = size target /\ capacity self = 0 /\
     PQ.Insert x self = Ok tt pq' /\
     valid pq' /\ PQ.IsHeap pq' = Ok true pq' /\
     live pq' ≡ₚ x :: live target).
Proof.
  intros Hv Hh Hs61. apply PQ_IsHeap_true in Hh; [|exact Hv].
  pose proof (valid_vector_ok target Hv) as Hok.
  split; [destruct source as [[a s] c]; reflexivity|].
  split; [reflexivity|]. split; [reflexivity|].
  set (moved := mkPQHeap (mkVector (Elements target) (size target)) 0).
  assert (Hrec : exists pq',
    PQ.Insert x moved = Ok tt pq' /\ valid pq' /\
    PQ.IsHeap pq' = Ok true pq' /\ live pq' ≡ₚ x :: live target).
  { destruct (Insert_regrow x moved) as (pq' & Hrun & Hv' & _ & Hp & Hh');
      [exact Hok|simpl; lia|exact Hs61|].
    exists pq'. split; [exact Hrun|]. split; [exact Hv'|].
    split; [apply PQ_IsHeap_true; [exact Hv'|apply Hh'; exact Hh]|exact Hp]. }
  split; [exact Hrec|].
  exists (mkPQHeap (heap target) 0).
  destruct Hrec as (pq' & Hrun & Hrest). exists pq'.
  split; [reflexivity|]. split; [reflexivity|]. split; [reflexivity|].
  split; [|exact Hrest].
  destruct target as [[a s] c]. exact Hrun.
Qed.

Lemma moved_from_queue_recovers_witness :
  let target := mkPQHeap (mkVector [20; 8; 15; 99]%Z 3) 4 in
  let source := mkPQHeap (mkVector [5; 4]%Z 2) 2 in
  valid target /\ PQ.IsHeap target = Ok true target /\
  size target < 2 ^ 61 /\
  fst (PQ.move_assign target source) = source /\
  size (snd (PQ.move_assign target source)) = size target /\
  capacity (snd (PQ.move_assign target source)) = 0 /\
  (exists pq',
     PQ.Insert 17 (snd (PQ.move_assign target source)) = Ok tt pq' /\
     valid pq' /\ PQ.IsHeap pq' = Ok true pq' /\
     live pq' ≡ₚ 17%Z :: live target) /\
  (exists self pq',
     PQ.move_assign_self target = Ok tt self /\
     size self = size target /\ capacity self = 0 /\
     PQ.Insert 17 self = Ok tt pq' /\
     valid pq' /\ PQ.IsHeap pq' = Ok true pq' /\
     live pq' ≡ₚ 17%Z :: live target).
Proof.
  assert (H : valid (mkPQHeap (mkVector [20; 8; 15; 99]%Z 3) 4)).
  { unfold valid, max_array_length. simpl. lia. }
  split; [exact H|]. split; [reflexivity|]. split; [reflexivity|].
  exact (moved_from_queue_recovers _ (mkPQHeap (mkVector [5; 4]%Z 2) 2) 17
           H eq_refl eq_refl).
Defined.

(** The bulk constructors return whenever the array can be allocated. *)
Lemma new_container_run (container : list Z) :
  N.of_nat (length container) <= max_array_length ->
  exists pq,
    Client.new_container container = Ok tt pq /\
    Client.new_container_move container
    = Ok (replicate (length container) 0%Z) pq /\
    size pq = N.of_nat (length container) /\ capacity pq = size pq.
Proof.
  intros Hle. set (n := N.of_nat (length container)).
  pose proof (Vector_container_Ok container Hle) as Hc.
  pose proof (Vector_container_move_Ok container Hle) as Hm.
  fold n in Hc, Hm.
  assert (Hok : vector_ok (mkVector container n)).
  { unfold vector_ok, n. simpl. lia. }
  destruct (Heapify_spec (fun _ => True) (mkVector container n) Hok)
    as (a & Hrun & _ & _ & _); [apply swap_closed_True|exact I|].
  exists (mkPQHeap (mkVector a n) n). split; [|split; [|split; reflexivity]].
  - unfold Client.new_container, PQ.PQHeap_container,
      HeapVec.HeapVec_container.
    unfold bind at 1. unfold lift at 1. unfold bind at 1.
    change (heap PQ.fresh) with VectorImpl.fresh. rewrite Hc, Hrun.
    reflexivity.
  - unfold Client.new_container_move, PQ.PQHeap_container_move,
      HeapVec.HeapVec_container_move.
    unfold bind at 1. unfold lift at 1. unfold bind at 1.
    change (heap PQ.fresh) with VectorImpl.fresh. rewrite Hm.
    unfold bind at 1. rewrite Hrun. reflexivity.
Qed.

(** X27: a queue constructed from a non-empty container, by copy or by
    move, has the size of the container, a capacity equal to its size, is a
    heap, and its [Tip()] is the maximum of the container; the moved-from
    container is left with default elements. *)
Theorem bulk_constructor_tip (container : list Z) :
  container <> [] -> N.of_nat (length container) <= max_array_length ->
  exists pq m,
    Client.new_container container = Ok tt pq /\
    Client.new_container_move container
    = Ok (replicate (length container) 0%Z) pq /\
    size pq = N.of_nat (length container) /\ capacity pq = size pq /\
    PQ.IsHeap pq = Ok true pq /\
    PQ.Tip pq = Ok m pq /\ m ∈ container /\
    forall y, y ∈ container -> (y <= m)%Z.
Proof.
  intros Hne Hle.
  destruct (new_container_run container Hle) as (pq & Hrun & Hmv & Hs & Hc).
  destruct (new_container_spec container pq Hrun) as (Hv & Hh & Hp).
  assert (H0 : size pq <> 0).
  { destruct container; [contradiction|]. simpl in Hs. lia. }
  destruct (heap_root_is_max pq Hv Hh H0) as [Hin Hmax].
  exists pq, (elem (Elements pq) 0). split; [exact Hrun|].
  split; [exact Hmv|]. split; [exact Hs|]. split; [exact Hc|].
  split; [apply PQ_IsHeap_true; assumption|]. split.
  { rewrite Tip_spec by exact Hv.
    destruct (N.eqb_spec (size pq) 0); [contradiction|reflexivity]. }
  split; [rewrite <- Hp; exact Hin|].
  intros y Hy. apply Hmax. rewrite Hp. exact Hy.
Qed.

Lemma bulk_constructor_tip_witness :
  [10; 5; 15; 2; 8]%Z <> [] /\
  N.of_nat (length [10; 5; 15; 2; 8]%Z) <= max_array_length /\
  exists pq m,
    Client.new_container [10; 5; 15; 2; 8]%Z = Ok tt pq /\
    Client.new_container_move [10; 5; 15; 2; 8]%Z
    = Ok (replicate (length [10; 5; 15; 2; 8]%Z) 0%Z) pq /\
    size pq = N.of_nat (length [10; 5; 15; 2; 8]%Z) /\
    capacity pq = size pq /\
    PQ.IsHeap pq = Ok true pq /\
    PQ.Tip pq = Ok m pq /\ m ∈ [10; 5; 15; 2; 8]%Z /\
    forall y, y ∈ [10; 5; 15; 2; 8]%Z -> (y <= m)%Z.
Proof.
  assert (H1 : [10; 5; 15; 2; 8]%Z <> []) by discriminate.
  assert (H2 : N.of_nat (length [10; 5; 15; 2; 8]%Z) <= max_array_length).
  { unfold max_array_length. simpl. lia. }
  split; [exact H1|]. split; [exact H2|].
  exact (bulk_constructor_tip _ H1 H2).
Defined.

(** X28: on a non-empty valid queue the inherited [Sort()] returns with
    the smallest live element at the root, so that [Tip()] then returns the
    minimum; a following [Heapify()] keeps the elements and makes [Tip()]
    return the maximum again. *)
Theorem sort_puts_minimum_at_tip (pq : PQHeap) :
  valid pq -> size pq <> 0 ->
  exists sorted m,
    PQ.Sort pq = Ok tt sorted /\
    PQ.Tip sorted = Ok m sorted /\ m ∈ live pq /\
    (forall y, y ∈ live pq -> (m <= y)%Z) /\
    exists heapified top,
      PQ.Heapify sorted = Ok tt heapified /\
      live heapified ≡ₚ live pq /\
      PQ.Tip heapified = Ok top heapified /\ top ∈ live pq /\
      forall y, y ∈ live pq -> (y <= top)%Z.
Proof.
  intros Hv H0. pose proof (valid_vector_ok pq Hv) as Hok.
  pose proof Hv as (Hsc & Hcl & Hm).
  destruct (Sort_spec pq Hok) as (a & Hrun & Hlen & Hp & _ & Hs).
  set (sorted := mkPQHeap (mkVector a (size pq)) (capacity pq)).
  assert (Hvs : valid sorted) by (unfold valid, sorted; simpl; lia).
  assert (Hls : live sorted ≡ₚ live pq) by exact Hp.
  assert (Tip_of : forall q : PQHeap, valid q -> size q = size pq ->
            PQ.Tip q = Ok (elem (Elements q) 0) q /\ elem (Elements q) 0 ∈ live q).
  { intros q Hq Hsq. rewrite Tip_spec by exact Hq.
    destruct (N.eqb_spec (size q) 0); [lia|]. split; [reflexivity|].
    apply (list_elem_of_lookup_2 _ 0%nat).
    apply (items_lookup q 0 (valid_vector_ok q Hq)). lia. }
  exists sorted, (elem a 0).
  split; [unfold PQ.Sort; apply lift_Ok; exact Hrun|].
  destruct (Tip_of sorted Hvs eq_refl) as [Htip Hin].
  split; [exact Htip|]. split; [rewrite <- Hls; exact Hin|]. split.
  { intros y Hy. rewrite <- Hls in Hy.
    destruct (live_elem_of sorted y Hvs Hy) as (j & Hj & <-).
    apply Hs; [lia|exact Hj]. }
  destruct (PQ_Heapify_spec sorted Hvs) as (hp & Hrunh & Hvh & Hsh & Hph & Hhh).
  destruct (Tip_of hp Hvh Hsh) as [Htiph Hinh].
  exists hp, (elem (Elements hp) 0). split; [exact Hrunh|].
  split; [rewrite Hph; exact Hls|]. split; [exact Htiph|].
  split; [rewrite <- Hls, <- Hph; exact Hinh|].
  intros y Hy. rewrite <- Hls, <- Hph in Hy.
  apply (heap_root_is_max hp Hvh Hhh); [|exact Hy].
  rewrite Hsh. exact H0.
Qed.

Lemma sort_puts_minimum_at_tip_witness :
  let pq := mkPQHeap (mkVector [20; 8; 15; 99]%Z 3) 4 in
  valid pq /\ size pq <> 0 /\
  exists sorted m,
    PQ.Sort pq = Ok tt sorted /\
    PQ.Tip sorted = Ok m sorted /\ m ∈ live pq /\
    (forall y, y ∈ live pq -> (m <= y)%Z) /\
    exists heapified top,
      PQ.Heapify sorted = Ok tt heapified /\
      live heapified ≡ₚ live pq /\
      PQ.Tip heapified = Ok top heapified /\ top ∈ live pq /\
      forall y, y ∈ live pq -> (y <= top)%Z.
Proof.
  assert (H : valid (mkPQHeap (mkVector [20; 8; 15; 99]%Z 3) 4)).
  { unfold valid, max_array_length. simpl. lia. }
  assert (H0 : size (mkPQHeap (mkVector [20; 8; 15; 99]%Z 3) 4) <> 0)
    by discriminate.
  split; [exact H|]. split; [exact H0|].
  exact (sort_puts_minimum_at_tip _ H H0).
Defined.
End QueueProps3.

(** *** Searching before changing *)

Section ExistsChange.
Local Open Scope N_scope.

Lemma PQ_Exists_run (val : Z) (pq : PQHeap) :
  valid pq -> PQ.Exists val pq = Ok (bool_decide (val ∈ live pq)) pq.
Proof.
  intros Hv. unfold PQ.Exists, Linear.Exists, Linear.Traverse.
  rewrite (lift_Ok _ pq (bool_decide (val ∈ live pq)) (heap pq)).
  - destruct pq as [v c]. reflexivity.
  - rewrite PreOrderTraverse_spec by (apply valid_vector_ok; exact Hv).
    rewrite fold_found. reflexivity.
Qed.

(** X29: on a valid queue, the value-based [Change(oldValue, newValue)]
    returns exactly when [Exists(oldValue)] is true, and throws NotFound
    exactly when it is false. *)
Theorem exists_guards_change (pq : PQHeap) (oldValue newValue : Z) :
  valid pq ->
  (PQ.Exists oldValue pq = Ok true pq <->
   exists pq', PQ.Change oldValue newValue pq = Ok tt pq') /\
  (PQ.Exists oldValue pq = Ok false pq <->
   PQ.Change oldValue newValue pq = Throw NotFound pq).
Proof.
  intros Hv. rewrite PQ_Exists_run by exact Hv.
  pose proof (Change_spec oldValue newValue pq Hv) as Hspec.
  destruct (decide (oldValue ∈ live pq)) as [Hin|Hnin].
  - rewrite bool_decide_eq_true_2 by exact Hin.
    destruct (live_elem_of pq _ Hv Hin) as (j & Hj & Hej).
    destruct (PQ.Change oldValue newValue pq) as [[] pq'|e pq'| |];
      try contradiction.
    + split; split; try discriminate; intros _; [exists pq'|]; reflexivity.
    + destruct Hspec as (Hnone & _). exfalso. exact (Hnone j Hj Hej).
  - rewrite bool_decide_eq_false_2 by exact Hnin.
    destruct (PQ.Change oldValue newValue pq) as [[] pq'|e pq'| |];
      try contradiction.
    + destruct Hspec as ((i & Hi & Hei & _) & _). exfalso. apply Hnin.
      rewrite <- Hei. apply (list_elem_of_lookup_2 _ (N.to_nat i)).
      apply (items_lookup pq _ (valid_vector_ok pq Hv)). lia.
    + destruct Hspec as (_ & -> & ->).
      split; split; try discriminate; try reflexivity.
      intros [pq' H]. discriminate.
Qed.

Lemma exists_guards_change_witness :
  let pq := mkPQHeap (mkVector [20; 8; 15; 99]%Z 3) 4 in
  valid pq /\
  (PQ.Exists 99 pq = Ok true pq <->
   exists pq', PQ.Change 99 1 pq = Ok tt pq') /\
  (PQ.Exists 99 pq = Ok false pq <->
   PQ.Change 99 1 pq = Throw NotFound pq).
Proof.
  assert (H : valid (mkPQHeap (mkVector [20; 8; 15; 99]%Z 3) 4)).
  { unfold valid, max_array_length. simpl. lia. }
  split; [exact H|]. exact (exists_guards_change _ 99 1 H).
Defined.
End ExistsChange.
